(** * CrashLens suppression engine: a shallow embedding of
      [crashlens/cli_new.py] and the properties of its ownership logic.

    The Python class [SuppressionEngine] keeps three pieces of mutable state
    (the trace ownership table, the active list and the suppressed list) and
    works on detection records, which are Python dictionaries passed by
    reference.  Records are mutated in place ([detection['suppressed_by'] =
    None]) and copied ([detection.copy()]), so the model carries an explicit
    object store: a detection is a reference into the store, and the two
    lists hold references. *)

From Stdlib Require Import ZArith Ascii String.
From stdpp Require Import gmap strings list fin_maps sorting.

Set Warnings "-register-all".

Local Open Scope string_scope.
Local Open Scope list_scope.
Local Open Scope Z_scope.

(* ===================================================================== *)
(** ** Python values *)
(* ===================================================================== *)

(** The fragment of Python's value universe that a detection field can hold
    here: [None], booleans, integers, strings and lists of such values.
    Strings are sequences of 8-bit characters; case conversion follows the
    ASCII letters. *)
Inductive pyval : Type :=
  | PNone
  | PBool (b : bool)
  | PInt (z : Z)
  | PStr (s : string)
  | PList (l : list pyval).

(** Python truthiness, as used by [if not trace_id] and by [x and y]. *)
Definition truthy (v : pyval) : bool :=
  match v with
  | PNone => false
  | PBool b => b
  | PInt z => negb (z =? 0)
  | PStr s => negb (String.eqb s "")
  | PList l => match l with [] => false | _ => true end
  end.

(** Python [==].  [bool] is a subclass of [int], so [True == 1]. *)
Fixpoint py_eq (a b : pyval) {struct a} : bool :=
  match a, b with
  | PNone, PNone => true
  | PBool x, PBool y => Z.b2z x =? Z.b2z y
  | PBool x, PInt y => Z.b2z x =? y
  | PInt x, PBool y => x =? Z.b2z y
  | PInt x, PInt y => x =? y
  | PStr x, PStr y => String.eqb x y
  | PList xs, PList ys =>
      (fix go (xs ys : list pyval) {struct xs} : bool :=
         match xs, ys with
         | [], [] => true
         | x :: xs', y :: ys' => py_eq x y && go xs' ys'
         | _, _ => false
         end) xs ys
  | _, _ => false
  end.

(** Dictionary keys.  A key is looked up by hash and [==]; [True] and [1]
    are the same key.  Lists are unhashable. *)
Inductive hkey : Type :=
  | KNone
  | KInt (z : Z)
  | KStr (s : string).

Global Instance hkey_eq_dec : EqDecision hkey.
Proof. solve_decision. Defined.

Definition hkey_enc (k : hkey) : unit + (Z + string) :=
  match k with
  | KNone => inl tt
  | KInt z => inr (inl z)
  | KStr s => inr (inr s)
  end.

Definition hkey_dec (x : unit + (Z + string)) : hkey :=
  match x with
  | inl _ => KNone
  | inr (inl z) => KInt z
  | inr (inr s) => KStr s
  end.

Global Instance hkey_countable : Countable hkey.
Proof.
  apply (inj_countable' hkey_enc hkey_dec).
  intros []; reflexivity.
Defined.

(** [hash(v)]: [None] stands for [TypeError: unhashable type]. *)
Definition py_hash (v : pyval) : option hkey :=
  match v with
  | PNone => Some KNone
  | PBool b => Some (KInt (Z.b2z b))
  | PInt z => Some (KInt z)
  | PStr s => Some (KStr s)
  | PList _ => None
  end.

(* ===================================================================== *)
(** ** String methods *)
(* ===================================================================== *)

Definition lower_ascii (c : ascii) : ascii :=
  let n := nat_of_ascii c in
  if ((65 <=? n) && (n <=? 90))%nat then ascii_of_nat (n + 32) else c.

(** [s.lower()] on ASCII strings, as the detector names and the type tags
    of the repository are: the letters [A] to [Z] are converted, every other
    character is left as it is. *)
Fixpoint lower (s : string) : string :=
  match s with
  | EmptyString => EmptyString
  | String c s' => String (lower_ascii c) (lower s')
  end.

(** [s.replace(c, '')] for a one-character [c]. *)
Fixpoint remove_char (c : ascii) (s : string) : string :=
  match s with
  | EmptyString => EmptyString
  | String d s' =>
      if Ascii.eqb c d then remove_char c s' else String d (remove_char c s')
  end.

(** [s.startswith(p)] *)
Fixpoint startswith (p s : string) : bool :=
  match p, s with
  | EmptyString, _ => true
  | String a p', String b s' => Ascii.eqb a b && startswith p' s'
  | String _ _, EmptyString => false
  end.

(** [s.replace(p, '')] for a non-empty [p]: occurrences are removed from
    left to right without overlap.  [skip] counts the characters of an
    occurrence still to be dropped. *)
Fixpoint remove_sub_from (p : string) (skip : nat) (s : string) : string :=
  match s with
  | EmptyString => EmptyString
  | String c s' =>
      match skip with
      | S k => remove_sub_from p k s'
      | O =>
          if startswith p s then remove_sub_from p (Nat.pred (String.length p)) s'
          else String c (remove_sub_from p O s')
      end
  end.

Definition remove_sub (p s : string) : string := remove_sub_from p O s.

(** [p in s] on strings. *)
Fixpoint contains (p s : string) : bool :=
  startswith p s ||
  match s with
  | EmptyString => false
  | String _ s' => contains p s'
  end.

(* ===================================================================== *)
(** ** Priority table *)
(* ===================================================================== *)

Definition DETECTOR_PRIORITY : gmap string Z :=
  list_to_map
    [ ("RetryLoopDetector", 1);
      ("FallbackStormDetector", 2);
      ("FallbackFailureDetector", 3);
      ("OverkillModelDetector", 4) ].

(** [DETECTOR_PRIORITY.get(name, 999)] *)
Definition priority (name : string) : Z :=
  default 999 (DETECTOR_PRIORITY !! name).

(* ===================================================================== *)
(** ** Object store and engine state *)
(* ===================================================================== *)

(** A detection is a reference (an index) into the store of dictionaries.
    [heap] is that store; the other fields are the attributes of
    [SuppressionEngine]. *)
Record state : Type := mkState {
  heap : list (gmap string pyval);
  suppression_config : gmap string (gmap string pyval);
  include_suppressed : bool;
  trace_ownership : gmap hkey string;
  suppressed_detections : list nat;
  active_detections : list nat
}.

(** [SuppressionEngine.__init__] over a given store. *)
Definition init (h : list (gmap string pyval))
    (config : gmap string (gmap string pyval)) (incl : bool) : state :=
  mkState h config incl ∅ [] [].

Definition set_heap (h : list (gmap string pyval)) (s : state) : state :=
  mkState h (suppression_config s) (include_suppressed s)
    (trace_ownership s) (suppressed_detections s) (active_detections s).

Definition set_trace_ownership (o : gmap hkey string) (s : state) : state :=
  mkState (heap s) (suppression_config s) (include_suppressed s)
    o (suppressed_detections s) (active_detections s).

Definition set_suppressed_detections (l : list nat) (s : state) : state :=
  mkState (heap s) (suppression_config s) (include_suppressed s)
    (trace_ownership s) l (active_detections s).

Definition set_active_detections (l : list nat) (s : state) : state :=
  mkState (heap s) (suppression_config s) (include_suppressed s)
    (trace_ownership s) (suppressed_detections s) l.

(** The dictionary a reference points to.  A reference outside the store,
    which Python cannot form, reads as an empty dictionary. *)
Definition deref (h : list (gmap string pyval)) (r : nat) : gmap string pyval :=
  default ∅ (h !! r).

(** [d.get(key)] and [d.get(key, dflt)] *)
Definition dict_get (d : gmap string pyval) (key : string) : pyval :=
  default PNone (d !! key).

Definition dict_get_or (d : gmap string pyval) (key : string) (dflt : pyval) : pyval :=
  default dflt (d !! key).

(* ===================================================================== *)
(** ** Exceptions and the state monad of the engine *)
(* ===================================================================== *)

Inductive exn : Type := TypeError | AttributeError.

Inductive outcome (A : Type) : Type :=
  | Ok (a : A)
  | Raise (e : exn).
Arguments Ok {A} a.
Arguments Raise {A} e.

(** A method call either returns or raises; the state it leaves behind is
    kept in both cases, as the orchestration catches exceptions and goes on
    with the same engine. *)
Definition M (A : Type) : Type := state → outcome A * state.

Definition ret {A} (a : A) : M A := λ s, (Ok a, s).

Definition raise {A} (e : exn) : M A := λ s, (Raise e, s).

Definition bind {A B} (m : M A) (k : A → M B) : M B :=
  λ s, match m s with
       | (Ok a, s') => k a s'
       | (Raise e, s') => (Raise e, s')
       end.

Definition get : M state := λ s, (Ok s, s).

Definition modify (f : state → state) : M unit := λ s, (Ok tt, f s).

Notation "'let!' x ':=' m 'in' k" := (bind m (λ x, k))
  (at level 10, x name, m at level 100, k at level 200).
Notation "'do!' m 'in' k" := (bind m (λ _, k))
  (at level 10, m at level 100, k at level 200).

(* ===================================================================== *)
(** ** The engine *)
(* ===================================================================== *)

(** The key under which a detector's rules are looked up:
    [detector_name.lower().replace('detector', '')]. *)
Definition config_key (detector_name : string) : string :=
  remove_sub "detector" (lower detector_name).

(** [_is_detector_suppressed] *)
Definition _is_detector_suppressed (detector_name : string) (trace_id : pyval)
  : M bool :=
  let! s := get in
  let detector_config :=
    default ∅ (suppression_config s !! config_key detector_name) in
  if truthy (dict_get_or detector_config "suppress_if_retry_loop" (PBool false))
  then
    match py_hash trace_id with
    | Some k =>
        ret (bool_decide (trace_ownership s !! k = Some "RetryLoopDetector"))
    | None => raise TypeError
    end
  else ret false.

(** The copy that [_add_suppressed_detection] stores. *)
Definition suppressed_copy (d : gmap string pyval) (detector_name reason : string)
  : gmap string pyval :=
  <["detector" := PStr detector_name]>
    (<["suppression_reason" := PStr reason]>
       (<["suppressed_by" := PStr detector_name]> d)).

(** [_add_suppressed_detection]: the copy is a new object of the store, and
    the suppressed list receives the reference to it. *)
Definition push_suppressed (detection : nat) (detector_name reason : string)
    (s : state) : state :=
  let suppressed :=
    suppressed_copy (deref (heap s) detection) detector_name reason in
  set_suppressed_detections (suppressed_detections s ++ [length (heap s)])
    (set_heap (heap s ++ [suppressed]) s).

Definition _add_suppressed_detection (detection : nat)
    (detector_name reason : string) : M unit :=
  modify (push_suppressed detection detector_name reason).

(** [detection.get('type', '').replace('_', '').replace(' ', '').lower()];
    a value without a [replace] method raises [AttributeError]. *)
Definition normalized_type (d : gmap string pyval) : outcome string :=
  match dict_get_or d "type" (PStr "") with
  | PStr ty => Ok (lower (remove_char " " (remove_char "_" ty)))
  | _ => Raise AttributeError
  end.

(** The test of the loop in [_transfer_ownership]. *)
Definition matches_old_owner (d : gmap string pyval) (trace_id : pyval)
    (old_owner : string) : outcome bool :=
  if py_eq (dict_get d "trace_id") trace_id then
    match normalized_type d with
    | Ok ty => Ok (contains ty (lower old_owner))
    | Raise e => Raise e
    end
  else Ok false.

(** The first loop of [_transfer_ownership]: [(to_suppress, remaining_active)]. *)
Fixpoint split_active (h : list (gmap string pyval)) (trace_id : pyval)
    (old_owner : string) (l : list nat) : outcome (list nat * list nat) :=
  match l with
  | [] => Ok ([], [])
  | detection :: l' =>
      match matches_old_owner (deref h detection) trace_id old_owner with
      | Raise e => Raise e
      | Ok b =>
          match split_active h trace_id old_owner l' with
          | Raise e => Raise e
          | Ok (to_suppress, remaining_active) =>
              if b then Ok (detection :: to_suppress, remaining_active)
              else Ok (to_suppress, detection :: remaining_active)
          end
      end
  end.

(** The second loop of [_transfer_ownership]. *)
Fixpoint suppress_all (to_suppress : list nat) (old_owner reason : string)
  : M unit :=
  match to_suppress with
  | [] => ret tt
  | detection :: l' =>
      do! _add_suppressed_detection detection old_owner reason in
      suppress_all l' old_owner reason
  end.

(** [_transfer_ownership] *)
Definition _transfer_ownership (trace_id : pyval) (old_owner new_owner : string)
  : M unit :=
  let! s := get in
  match split_active (heap s) trace_id old_owner (active_detections s) with
  | Raise e => raise e
  | Ok (to_suppress, remaining_active) =>
      do! suppress_all to_suppress old_owner ("superseded_by:" +:+ new_owner) in
      modify (set_active_detections remaining_active)
  end.

(** The tail of the loop body of [process_detections]: claim ownership and
    mark the record as not suppressed ... *)
Definition claim (detector_name : string) (k : hkey) (detection : nat)
    (s : state) : state :=
  set_heap
    (<[detection := <["suppressed_by" := PNone]> (deref (heap s) detection)]>
       (heap s))
    (set_trace_ownership (<[k := detector_name]> (trace_ownership s)) s).

(** ... and append it to the local list [active]. *)
Definition accept (detector_name : string) (k : hkey) (detection : nat)
    (active : list nat) : M (list nat) :=
  do! modify (claim detector_name k detection) in
  ret (active ++ [detection]).

(** One iteration of the loop of [process_detections]; [active] is the local
    list and the result is its new value. *)
Definition process_one (detector_name : string) (active : list nat)
    (detection : nat) : M (list nat) :=
  let! s := get in
  let trace_id := dict_get (deref (heap s) detection) "trace_id" in
  if negb (truthy trace_id) then ret (active ++ [detection])
  else
    let! suppressed := _is_detector_suppressed detector_name trace_id in
    if (suppressed : bool) then
      do! _add_suppressed_detection detection detector_name "disabled_by_config" in
      ret active
    else
      match py_hash trace_id with
      | None => raise TypeError
      | Some k =>
          let! s := get in
          match trace_ownership s !! k with
          | Some current_owner =>
              let current_priority := priority detector_name in
              let owner_priority := priority current_owner in
              if current_priority >? owner_priority then
                do! _add_suppressed_detection detection detector_name
                      ("higher_priority_detector:" +:+ current_owner) in
                ret active
              else
                do! (if current_priority <? owner_priority
                     then _transfer_ownership trace_id current_owner detector_name
                     else ret tt) in
                accept detector_name k detection active
          | None => accept detector_name k detection active
          end
      end.

(** The loop of [process_detections] over the elements of a list that
    nothing changes while the loop runs; [process_loop_live] below is the
    loop over a list object. *)
Fixpoint process_loop (detector_name : string) (active : list nat)
    (detections : list nat) : M (list nat) :=
  match detections with
  | [] => ret active
  | detection :: rest =>
      let! active' := process_one detector_name active detection in
      process_loop detector_name active' rest
  end.

(** [process_detections] *)
Definition process_detections (detector_name : string) (detections : list nat)
  : M (list nat) :=
  let! active := process_loop detector_name [] detections in
  do! modify (λ s, set_active_detections (active_detections s ++ active) s) in
  ret active.

(** The list object that a call of [process_detections] is given: a list of
    the caller's, which nothing changes while the loop runs (the engine's
    active list is such a list: [_transfer_ownership] rebinds the attribute
    to a new list and [extend] comes after the loop), or the engine's own
    [suppressed_detections], to which [_add_suppressed_detection] appends
    while the loop runs. *)
Inductive detections_arg : Type :=
  | Given (detections : list nat)
  | OwnSuppressed.

(** The elements of that list object in state [s]. *)
Definition current (arg : detections_arg) (s : state) : list nat :=
  match arg with
  | Given detections => detections
  | OwnSuppressed => suppressed_detections s
  end.

(** [for detection in detections] as Python runs it: the iterator keeps an
    index [i] into the list object and each round reads the element at [i]
    from the list as it is then; the loop ends when [i] is past the end.
    [fuel] bounds the number of rounds, and [None] is a loop that is not
    through after that many. *)
Fixpoint process_loop_live (fuel : nat) (detector_name : string)
    (arg : detections_arg) (i : nat) (active : list nat) (s : state)
    : option (outcome (list nat) * state) :=
  match fuel with
  | O => None
  | S fuel' =>
      match current arg s !! i with
      | None => Some (Ok active, s)
      | Some detection =>
          match process_one detector_name active detection s with
          | (Ok active', s') =>
              process_loop_live fuel' detector_name arg (S i) active' s'
          | (Raise e, s') => Some (Raise e, s')
          end
      end
  end.

(** [process_detections] over a list object. *)
Definition process_detections_live (fuel : nat) (detector_name : string)
    (arg : detections_arg) (s : state) : option (outcome (list nat) * state) :=
  match process_loop_live fuel detector_name arg 0 [] s with
  | None => None
  | Some (Ok active, s') =>
      Some (Ok active, set_active_detections (active_detections s' ++ active) s')
  | Some (Raise e, s') => Some (Raise e, s')
  end.

(** A run of the engine: [process_detections] for each call in turn.  A call
    that raises leaves its state behind and the run goes on, as in [scan].
    The raw detections of a run are records of the store it starts from;
    the engine allocates its copies behind them. *)
Fixpoint run (calls : list (string * list nat)) (s : state) : state :=
  match calls with
  | [] => s
  | (detector_name, detections) :: rest =>
      run rest (snd (process_detections detector_name detections s))
  end.

(** The set of [get_suppression_summary]:
    [set(d.get('trace_id') for d in ... if d.get('trace_id'))]. *)
Fixpoint trace_ids (h : list (gmap string pyval)) (l : list nat)
  : outcome (gset hkey) :=
  match l with
  | [] => Ok ∅
  | d :: rest =>
      let trace_id := dict_get (deref h d) "trace_id" in
      if truthy trace_id then
        match py_hash trace_id with
        | None => Raise TypeError
        | Some k =>
            match trace_ids h rest with
            | Ok ks => Ok ({[ k ]} ∪ ks)
            | Raise e => Raise e
            end
        end
      else trace_ids h rest
  end.

(** The loop of [get_suppression_summary] that counts the suppressed
    detections by reason. *)
Fixpoint breakdown (h : list (gmap string pyval)) (acc : gmap hkey nat)
    (l : list nat) : outcome (gmap hkey nat) :=
  match l with
  | [] => Ok acc
  | d :: rest =>
      match py_hash (dict_get_or (deref h d) "suppression_reason" (PStr "unknown")) with
      | None => Raise TypeError
      | Some reason => breakdown h (<[reason := S (default O (acc !! reason))]> acc) rest
      end
  end.

Record summary : Type := mkSummary {
  total_traces_analyzed : nat;
  active_issues : nat;
  suppressed_issues : nat;
  suppression_breakdown : gmap hkey nat;
  trace_ownership_copy : gmap hkey string
}.

(** [get_suppression_summary]: it reads the engine and builds new values. *)
Definition get_suppression_summary : M summary :=
  let! s := get in
  match trace_ids (heap s) (active_detections s ++ suppressed_detections s) with
  | Raise e => raise e
  | Ok ks =>
      match breakdown (heap s) ∅ (suppressed_detections s) with
      | Raise e => raise e
      | Ok counts =>
          ret (mkSummary (size ks) (length (active_detections s))
                 (length (suppressed_detections s)) counts (trace_ownership s))
      end
  end.

(** The public operations of the engine, and sequences of them. *)
Inductive operation : Type :=
  | Process (detector_name : string) (detections : list nat)
  | Summary.

Definition perform (op : operation) (s : state) : state :=
  match op with
  | Process detector_name detections =>
      (process_detections detector_name detections s).2
  | Summary => (get_suppression_summary s).2
  end.

Fixpoint operate (ops : list operation) (s : state) : state :=
  match ops with
  | [] => s
  | op :: rest => operate rest (perform op s)
  end.

(** The detections that a sequence of operations feeds in. *)
Definition fed (ops : list operation) : list nat :=
  concat ((λ op, match op with Process _ ds => ds | Summary => [] end) <$> ops).

(** The loop of [scan] over the detectors, given what each detector's
    [detect] produced (a list of raw detections, or an exception): the
    lists that [process_detections] returns are collected in
    [all_active_detections]; a detector or a call that raises is skipped. *)
Fixpoint scan_loop (results : list (string * outcome (list nat)))
    (all_active_detections : list nat) (s : state) : list nat * state :=
  match results with
  | [] => (all_active_detections, s)
  | (detector_name, Raise _) :: rest => scan_loop rest all_active_detections s
  | (detector_name, Ok raw_detections) :: rest =>
      match process_detections detector_name raw_detections s with
      | (Ok active_detections, s') =>
          scan_loop rest (all_active_detections ++ active_detections) s'
      | (Raise _, s') => scan_loop rest all_active_detections s'
      end
  end.

(** The order in which [scan] runs the detectors ([detector_configs]). *)
Definition detector_order : list string :=
  [ "RetryLoopDetector"; "FallbackStormDetector";
    "FallbackFailureDetector"; "OverkillModelDetector" ].

(** [detections_by_type.get(k)] for the dict that
    [_generate_transparent_output] builds; a dict keeps its keys in the
    order of their first insertion, so it is a list of bindings here. *)
Fixpoint group_get (k : hkey) (groups : list (hkey * list nat)) : option (list nat) :=
  match groups with
  | [] => None
  | (k', g) :: rest => if decide (k = k') then Some g else group_get k rest
  end.

(** [if k not in detections_by_type: detections_by_type[k] = []] followed by
    [detections_by_type[k].append(d)]. *)
Fixpoint group_append (k : hkey) (d : nat) (groups : list (hkey * list nat))
    : list (hkey * list nat) :=
  match groups with
  | [] => [(k, [d])]
  | (k', g) :: rest =>
      if decide (k = k') then (k', g ++ [d]) :: rest
      else (k', g) :: group_append k d rest
  end.

(** The grouping loop of [_generate_transparent_output]: the key of a
    detection is [detection.get('type', 'unknown')]; a key that cannot be
    hashed raises [TypeError]. *)
Fixpoint detections_by_type (h : list (gmap string pyval))
    (groups : list (hkey * list nat)) (active_detections : list nat)
    : outcome (list (hkey * list nat)) :=
  match active_detections with
  | [] => Ok groups
  | detection :: rest =>
      match py_hash (dict_get_or (deref h detection) "type" (PStr "unknown")) with
      | Some detector_name =>
          detections_by_type h (group_append detector_name detection groups) rest
      | None => Raise TypeError
      end
  end.

(** [x + v] for an integer [x], as [sum] computes it; numbers are integers
    here, and [True] counts as [1]. *)
Definition py_add (x : Z) (v : pyval) : outcome Z :=
  match v with
  | PInt z => Ok (x + z)
  | PBool b => Ok (x + Z.b2z b)
  | _ => Raise TypeError
  end.

(** [sum(d.get(key, 0) for d in detections)], the totals of
    [_generate_transparent_output], from the running sum [acc]. *)
Fixpoint sum_field_from (h : list (gmap string pyval)) (key : string) (acc : Z)
    (detections : list nat) : outcome Z :=
  match detections with
  | [] => Ok acc
  | d :: rest =>
      match py_add acc (dict_get_or (deref h d) key (PInt 0)) with
      | Ok acc' => sum_field_from h key acc' rest
      | Raise e => Raise e
      end
  end.

Definition sum_field (h : list (gmap string pyval)) (key : string)
    (detections : list nat) : outcome Z :=
  sum_field_from h key 0 detections.

(** Every call of the run returns. *)
Fixpoint completes (calls : list (string * list nat)) (s : state) : bool :=
  match calls with
  | [] => true
  | (detector_name, detections) :: rest =>
      match process_detections detector_name detections s with
      | (Ok _, s') => completes rest s'
      | (Raise _, _) => false
      end
  end.

(* ===================================================================== *)
(** ** Auxiliary definitions for the statements *)
(* ===================================================================== *)

(** Whether the rules of [detector_name] set [suppress_if_retry_loop]. *)
Definition config_flag (detector_name : string) (s : state) : bool :=
  truthy
    (dict_get_or (default ∅ (suppression_config s !! config_key detector_name))
       "suppress_if_retry_loop" (PBool false)).

(** The state [suppress_all] leaves behind. *)
Definition push_all (to_suppress : list nat) (old_owner reason : string)
    (s : state) : state :=
  foldl (λ s' d, push_suppressed d old_owner reason s') s to_suppress.

(** The [type] field is absent or a string: [replace] does not raise. *)
Definition typed (d : gmap string pyval) : Prop :=
  match d !! "type" with
  | None | Some (PStr _) => True
  | Some _ => False
  end.

(** The test of the loop of [_transfer_ownership] on a record whose type is
    usable. *)
Definition owned_by (h : list (gmap string pyval)) (trace_id : pyval)
    (old_owner : string) (r : nat) : bool :=
  py_eq (dict_get (deref h r) "trace_id") trace_id &&
  match normalized_type (deref h r) with
  | Ok ty => contains ty (lower old_owner)
  | Raise _ => false
  end.

(** The ways one loop iteration of [process_detections] can go, with the
    state each leaves behind: the detection has no usable trace id and is
    kept; the trace id is unhashable and the dictionary lookup raises; the
    loop of the transfer raises on a [type] without [replace]; the
    detection is suppressed; the detection is accepted without a transfer;
    the detection is accepted after a transfer.  Both exceptions are raised
    before anything is changed. *)
Inductive step (X : string) (active : list nat) (d : nat) (s : state)
  : outcome (list nat) → state → Prop :=
  | step_no_trace :
      truthy (dict_get (deref (heap s) d) "trace_id") = false →
      step X active d s (Ok (active ++ [d])) s
  | step_unhashable :
      truthy (dict_get (deref (heap s) d) "trace_id") = true →
      py_hash (dict_get (deref (heap s) d) "trace_id") = None →
      step X active d s (Raise TypeError) s
  | step_transfer_raise (k : hkey) (owner : string) (e : exn) :
      truthy (dict_get (deref (heap s) d) "trace_id") = true →
      py_hash (dict_get (deref (heap s) d) "trace_id") = Some k →
      trace_ownership s !! k = Some owner →
      priority X < priority owner →
      split_active (heap s) (dict_get (deref (heap s) d) "trace_id") owner
        (active_detections s) = Raise e →
      step X active d s (Raise e) s
  | step_suppress (k : hkey) (owner reason : string) :
      truthy (dict_get (deref (heap s) d) "trace_id") = true →
      py_hash (dict_get (deref (heap s) d) "trace_id") = Some k →
      trace_ownership s !! k = Some owner →
      step X active d s (Ok active) (push_suppressed d X reason s)
  | step_claim (k : hkey) :
      truthy (dict_get (deref (heap s) d) "trace_id") = true →
      py_hash (dict_get (deref (heap s) d) "trace_id") = Some k →
      (trace_ownership s !! k = None ∨
       ∃ owner, trace_ownership s !! k = Some owner ∧ priority X = priority owner) →
      step X active d s (Ok (active ++ [d])) (claim X k d s)
  | step_transfer (k : hkey) (owner : string) :
      let trace_id := dict_get (deref (heap s) d) "trace_id" in
      truthy trace_id = true →
      py_hash trace_id = Some k →
      trace_ownership s !! k = Some owner →
      priority X < priority owner →
      Forall (λ r, matches_old_owner (deref (heap s) r) trace_id owner =
                   Ok (owned_by (heap s) trace_id owner r)) (active_detections s) →
      step X active d s (Ok (active ++ [d]))
        (claim X k d
           (set_active_detections
              (List.filter (λ r, negb (owned_by (heap s) trace_id owner r))
                 (active_detections s))
              (push_all
                 (List.filter (owned_by (heap s) trace_id owner) (active_detections s))
                 owner ("superseded_by:" +:+ X) s))).

(** Two records that differ at most in [suppressed_by], the one field the
    engine writes into a record it was given. *)
Definition same_raw (o o' : gmap string pyval) : Prop :=
  delete "suppressed_by" o' = delete "suppressed_by" o.

(** What the engine may do to the store while it processes the detections
    [ds]: allocate new records, and write [suppressed_by] in records of [ds]. *)
Definition heap_ext (ds : list nat) (h h' : list (gmap string pyval)) : Prop :=
  (length h ≤ length h')%nat ∧
  ∀ r o, h !! r = Some o →
         ∃ o', h' !! r = Some o' ∧ same_raw o o' ∧ (r ∉ ds → o' = o).

(** What the engine may do to its state while it processes [ds]: the rules
    stay, the suppressed list is extended at its end by newly allocated
    records, the active list receives nothing but detections of [ds]. *)
Definition frame (ds : list nat) (s s' : state) : Prop :=
  suppression_config s' = suppression_config s ∧
  suppressed_detections s `prefix_of` suppressed_detections s' ∧
  (∀ r, r ∈ suppressed_detections s' →
        r ∈ suppressed_detections s ∨ (length (heap s) ≤ r < length (heap s'))%nat) ∧
  (∀ r, r ∈ active_detections s' → r ∈ active_detections s ∨ r ∈ ds) ∧
  heap_ext ds (heap s) (heap s').

(** The keys of the falsy values [None], [0]/[False] and [''], which
    [if not trace_id] keeps away from the ownership table. *)
Definition falsy_key (k : hkey) : bool :=
  match k with
  | KNone => true
  | KInt z => z =? 0
  | KStr s => String.eqb s ""
  end.

(** The record at [r] is allocated and carries no usable trace id. *)
Definition no_trace (s : state) (r : nat) : Prop :=
  ∃ o, heap s !! r = Some o ∧ truthy (dict_get o "trace_id") = false.

(** A record the engine can handle: its [type] is absent or a string, and
    its trace id, when truthy, is hashable. *)
Definition record_ok (o : gmap string pyval) : Prop :=
  typed o ∧
  (truthy (dict_get o "trace_id") = true → is_Some (py_hash (dict_get o "trace_id"))).

(** The same as a test. *)
Definition record_okb (o : gmap string pyval) : bool :=
  match o !! "type" with
  | None | Some (PStr _) => true
  | Some _ => false
  end &&
  (negb (truthy (dict_get o "trace_id")) ||
   bool_decide (is_Some (py_hash (dict_get o "trace_id")))).

(** The records of the initial store [h0] are still there and differ from
    what they were at most in [suppressed_by]. *)
Definition stable (h0 h : list (gmap string pyval)) : Prop :=
  (length h0 ≤ length h)%nat ∧
  ∀ r, (r < length h0)%nat → same_raw (deref h0 r) (deref h r).

(** [r'] is a record allocated by the engine, the copy that
    [_add_suppressed_detection] makes of the raw detection [r]. *)
Definition copy_of (h0 h : list (gmap string pyval)) (r' r : nat) : Prop :=
  (length h0 ≤ r')%nat ∧
  ∃ name reason, h !! r' = Some (suppressed_copy (deref h0 r) name reason).

(** The accounting of the detections [fed] so far, [local] being the local
    list of the call in progress: the active and the local list together
    with the originals [moved] of the suppressed copies are the detections
    fed in, each as often as it was fed. *)
Definition partition_inv (h0 : list (gmap string pyval)) (fed local : list nat)
    (s : state) : Prop :=
  stable h0 (heap s) ∧
  ∃ moved, (active_detections s ++ local) ++ moved ≡ₚ fed ∧
           Forall2 (copy_of h0 (heap s)) (suppressed_detections s) moved.

(** The key under which the trace of record [r] is owned, when the record
    carries a usable trace id. *)
Definition trace_key (h : list (gmap string pyval)) (r : nat) : option hkey :=
  let trace_id := dict_get (deref h r) "trace_id" in
  if truthy trace_id then py_hash trace_id else None.

(** The test of [_transfer_ownership] recognises record [r] as one of
    detector [X]: its normalised [type] is a substring of the lower-cased
    name. *)
Definition type_matches (h : list (gmap string pyval)) (r : nat) (X : string) : Prop :=
  match normalized_type (deref h r) with
  | Ok ty => contains ty (lower X) = true
  | Raise _ => False
  end.

(** Detection [r] was fed in by a call for detector [X]. *)
Definition produced (calls : list (string * list nat)) (r : nat) (X : string) : Prop :=
  ∃ ds, (X, ds) ∈ calls ∧ r ∈ ds.

(** The ownership invariant between calls: every owner is a detector of
    the run, and an active detection with a trace id was fed in by the owner
    of its trace. *)
Definition ownership_inv (h0 : list (gmap string pyval))
    (calls : list (string * list nat)) (s : state) : Prop :=
  stable h0 (heap s) ∧
  (∀ k O, trace_ownership s !! k = Some O → O ∈ calls.*1) ∧
  (∀ r k, r ∈ active_detections s → trace_key h0 r = Some k →
          ∃ O, trace_ownership s !! k = Some O ∧ produced calls r O).

(** The same for the local list of a call for detector [X] in progress. *)
Definition local_inv (h0 : list (gmap string pyval)) (X : string) (s : state)
    (local : list nat) : Prop :=
  ∀ r k, r ∈ local → trace_key h0 r = Some k → trace_ownership s !! k = Some X.

(** Every trace owned in [s] is still owned in [s'], by a detector whose
    rank is not numerically larger. *)
Definition owners_improve (s s' : state) : Prop :=
  ∀ k O, trace_ownership s !! k = Some O →
         ∃ O', trace_ownership s' !! k = Some O' ∧ priority O' ≤ priority O.

(** No owner in the table has a rank numerically larger than [p]. *)
Definition owners_within (p : Z) (s : state) : Prop :=
  ∀ k O, trace_ownership s !! k = Some O → priority O ≤ p.

Definition set_suppression_config (c : gmap string (gmap string pyval))
    (s : state) : state :=
  mkState (heap s) c (include_suppressed s)
    (trace_ownership s) (suppressed_detections s) (active_detections s).

(** The sum of the counts of a breakdown. *)
Definition count_total (m : gmap hkey nat) : nat :=
  map_fold (λ _ n acc, n + acc)%nat O m.

(** The three kinds of reason that the engine writes. *)
Definition reason_form (reason : string) : Prop :=
  reason = "disabled_by_config" ∨
  (∃ owner, reason = "higher_priority_detector:" +:+ owner) ∨
  (∃ new_owner, reason = "superseded_by:" +:+ new_owner).

(** The record carries a trace id that is truthy and hashable. *)
Definition usable_trace (o : gmap string pyval) : Prop :=
  truthy (dict_get o "trace_id") = true ∧ is_Some (py_hash (dict_get o "trace_id")).

(** A record that [_add_suppressed_detection] allocated. *)
Definition engine_copy (o : gmap string pyval) : Prop :=
  ∃ o0 name reason,
    o = suppressed_copy o0 name reason ∧ usable_trace o0 ∧ reason_form reason.

(** What holds of the store and the lists throughout a run over the raw
    detections of the store [h0], [local] being the local list of the call
    in progress: the raw records are stable; an active detection is a raw
    record whose trace id, if truthy, is hashable, and which is then marked
    [suppressed_by = None]; a raw record without a truthy trace id is as it
    was; the suppressed list holds allocated records, and every allocated
    record is a copy made by the engine. *)
Definition run_inv (h0 : list (gmap string pyval)) (local : list nat)
    (s : state) : Prop :=
  stable h0 (heap s) ∧
  (∀ r, r ∈ active_detections s ++ local →
        (r < length h0)%nat ∧
        (truthy (dict_get (deref h0 r) "trace_id") = true → is_Some (trace_key h0 r)) ∧
        (is_Some (trace_key h0 r) → deref (heap s) r !! "suppressed_by" = Some PNone)) ∧
  (∀ r, (r < length h0)%nat →
        truthy (dict_get (deref h0 r) "trace_id") = false →
        deref (heap s) r = deref h0 r) ∧
  (∀ r, r ∈ suppressed_detections s → (length h0 ≤ r < length (heap s))%nat) ∧
  (∀ r o, heap s !! r = Some o → (length h0 ≤ r)%nat → engine_copy o).

(** The owned traces are the traces of the detections fed in so far. *)
Definition keys_inv (h0 : list (gmap string pyval)) (fed_so_far : list nat)
    (s : state) : Prop :=
  stable h0 (heap s) ∧
  (∀ r k, r ∈ fed_so_far → trace_key h0 r = Some k →
          is_Some (trace_ownership s !! k)) ∧
  (∀ k, is_Some (trace_ownership s !! k) →
        ∃ r, r ∈ fed_so_far ∧ trace_key h0 r = Some k).

(** No owner in the table outranks detector [X]. *)
Definition unrivalled (X : string) (s : state) : Prop :=
  ∀ k O, trace_ownership s !! k = Some O → priority X ≤ priority O.

(** The key under which the report files detection [d]. *)
Definition type_key (h : list (gmap string pyval)) (d : nat) : option hkey :=
  py_hash (dict_get_or (deref h d) "type" (PStr "unknown")).

(** The detections of [l] filed under key [k], in the order of [l]. *)
Definition of_type (h : list (gmap string pyval)) (k : hkey) (l : list nat) : list nat :=
  List.filter (λ d, bool_decide (type_key h d = Some k)) l.

(** A group of the report: absent rather than empty. *)
Definition group_of (l : list nat) : option (list nat) :=
  match l with [] => None | _ => Some l end.

(* ===================================================================== *)
(** ** Sample records and rules *)
(* ===================================================================== *)

(** [{'trace_id': t, 'type': ty}] *)
Definition detection_of (t ty : string) : gmap string pyval :=
  <["type" := PStr ty]> {["trace_id" := PStr t]}.

(** A store with one record per detector for trace [t1]. *)
Definition sample_heap : list (gmap string pyval) :=
  [ detection_of "t1" "retry_loop";
    detection_of "t1" "fallback_storm";
    detection_of "t1" "fallback_failure";
    detection_of "t1" "expensive_model_short" ].

(** [{'fallbackstorm': {'suppress_if_retry_loop': True}}] *)
Definition sample_rules : gmap string (gmap string pyval) :=
  {[ "fallbackstorm" := {[ "suppress_if_retry_loop" := PBool true ]} ]}.

(** A store whose first record has no [type]. *)
Definition untyped_heap : list (gmap string pyval) :=
  [ {[ "trace_id" := PStr "t1" ]};
    detection_of "t1" "b";
    detection_of "t1" "retry_loop" ].

(** A store with a record without [trace_id] and one whose [trace_id] is
    the empty string. *)
Definition anonymous_heap : list (gmap string pyval) :=
  [ {[ "type" := PStr "fallback_storm" ]};
    detection_of "" "fallback_storm";
    detection_of "t1" "retry_loop" ].

(** A store with garbage: an integer [type] and a list as [trace_id]. *)
Definition garbage_heap : list (gmap string pyval) :=
  [ <["type" := PInt 5]> {[ "trace_id" := PStr "t1" ]};
    detection_of "t1" "retry_loop";
    <["type" := PStr "retry_loop"]> {[ "trace_id" := PList [PInt 1] ]} ].

(** [{'trace_id': 't1', 'type': 'retry_loop', 'waste_cost': 'n/a'}] and a
    record without cost and token fields. *)
Definition costly_heap : list (gmap string pyval) :=
  [ <["waste_cost" := PStr "n/a"]> (detection_of "t1" "retry_loop");
    detection_of "t1" "fallback_storm" ].

(** A store with a record without [trace_id], one whose [trace_id] is a
    list, and one whose [trace_id] is the empty string. *)
Definition unhashable_heap : list (gmap string pyval) :=
  [ {[ "type" := PStr "retry_loop" ]};
    <["type" := PStr "retry_loop"]> {[ "trace_id" := PList [PInt 1] ]};
    detection_of "" "retry_loop" ].

(** A store with a record of trace [t1] without [type] and one of the same
    trace whose [type] is an integer. *)
Definition half_typed_heap : list (gmap string pyval) :=
  [ {[ "trace_id" := PStr "t1" ]};
    <["type" := PInt 5]> {[ "trace_id" := PStr "t1" ]};
    detection_of "t1" "retry_loop" ].

(* ===================================================================== *)
(** * Properties *)
(* ===================================================================== *)

(* ===================================================================== *)
(** ** Values, strings and priorities *)
(* ===================================================================== *)

Lemma py_eq_truthy (a b : pyval) : py_eq a b = true → truthy a = truthy b.
Proof.
  destruct a as [|x|x|x|xs], b as [|y|y|y|ys]; cbn [py_eq truthy];
    try discriminate; try done.
  - intros H%Z.eqb_eq. by destruct x, y.
  - intros H%Z.eqb_eq. subst y. by destruct x.
  - intros H%Z.eqb_eq. subst x. by destruct y.
  - intros H%Z.eqb_eq. by subst.
  - intros H%String.eqb_eq. by subst.
  - by destruct xs, ys.
Qed.

Lemma py_eq_same_key (a b : pyval) (k : hkey) :
  py_hash a = Some k → py_hash b = Some k → py_eq a b = true.
Proof.
  destruct a as [|x|x|x|xs], b as [|y|y|y|ys]; cbn [py_hash py_eq];
    intros Ha Hb; simplify_eq; try done;
    try apply Z.eqb_refl; try apply String.eqb_refl.
  by apply Z.eqb_eq.
Qed.

Lemma startswith_empty (s : string) : startswith "" s = true.
Proof. destruct s; reflexivity. Qed.

Lemma contains_empty (s : string) : contains "" s = true.
Proof. destruct s; reflexivity. Qed.

Lemma priority_cases (name : string) :
  priority name = 1 ∨ priority name = 2 ∨ priority name = 3 ∨
  priority name = 4 ∨ priority name = 999.
Proof.
  unfold priority.
  destruct (DETECTOR_PRIORITY !! name) as [v|] eqn:E; simpl; [|tauto].
  apply elem_of_list_to_map_2 in E.
  repeat (apply elem_of_cons in E as [E|E]; [simplify_eq; tauto|]).
  by apply elem_of_nil in E.
Qed.

Lemma priority_lower_bound (name : string) : 1 ≤ priority name.
Proof. destruct (priority_cases name) as [H|[H|[H|[H|H]]]]; rewrite H; lia. Qed.

Lemma priority_RetryLoop : priority "RetryLoopDetector" = 1.
Proof. reflexivity. Qed.

(* ===================================================================== *)
(** ** One loop iteration, in closed form *)
(* ===================================================================== *)

Lemma suppress_all_eq (l : list nat) (old_owner reason : string) (s : state) :
  suppress_all l old_owner reason s = (Ok tt, push_all l old_owner reason s).
Proof.
  revert s. induction l as [|d l IH]; intros s; [done|].
  simpl. unfold bind, _add_suppressed_detection, modify. by rewrite IH.
Qed.

Lemma transfer_ownership_eq (trace_id : pyval) (old_owner new_owner : string)
    (s : state) :
  _transfer_ownership trace_id old_owner new_owner s =
  match split_active (heap s) trace_id old_owner (active_detections s) with
  | Raise e => (Raise e, s)
  | Ok (to_suppress, remaining_active) =>
      (Ok tt,
       set_active_detections remaining_active
         (push_all to_suppress old_owner ("superseded_by:" +:+ new_owner) s))
  end.
Proof.
  unfold _transfer_ownership, bind, get.
  destruct (split_active _ _ _ _) as [[ts rem]|e]; [|done].
  by rewrite suppress_all_eq.
Qed.

Lemma process_one_eq (detector_name : string) (active : list nat)
    (detection : nat) (s : state) :
  process_one detector_name active detection s =
  let trace_id := dict_get (deref (heap s) detection) "trace_id" in
  if negb (truthy trace_id) then (Ok (active ++ [detection]), s)
  else
    match py_hash trace_id with
    | None => (Raise TypeError, s)
    | Some k =>
        if config_flag detector_name s &&
           bool_decide (trace_ownership s !! k = Some "RetryLoopDetector")
        then (Ok active,
              push_suppressed detection detector_name "disabled_by_config" s)
        else
          match trace_ownership s !! k with
          | None => (Ok (active ++ [detection]), claim detector_name k detection s)
          | Some current_owner =>
              if priority detector_name >? priority current_owner then
                (Ok active,
                 push_suppressed detection detector_name
                   ("higher_priority_detector:" +:+ current_owner) s)
              else if priority detector_name <? priority current_owner then
                match split_active (heap s) trace_id current_owner
                        (active_detections s) with
                | Raise e => (Raise e, s)
                | Ok (to_suppress, remaining_active) =>
                    (Ok (active ++ [detection]),
                     claim detector_name k detection
                       (set_active_detections remaining_active
                          (push_all to_suppress current_owner
                             ("superseded_by:" +:+ detector_name) s)))
                end
              else (Ok (active ++ [detection]), claim detector_name k detection s)
          end
    end.
Proof.
  unfold process_one. cbv zeta. unfold bind at 1. unfold get at 1.
  destruct (negb _); [done|].
  unfold bind at 1. unfold _is_detector_suppressed, bind at 1, get at 1.
  fold (config_flag detector_name s).
  destruct (config_flag detector_name s); simpl.
  - destruct (py_hash _) as [k|]; [|done].
    unfold ret at 1. case_bool_decide as Ho.
    + done.
    + unfold bind at 1, get at 1. destruct (trace_ownership s !! k) as [o|]; [|done].
      destruct (_ >? _); [done|].
      destruct (_ <? _); [|done].
      unfold bind at 1. rewrite transfer_ownership_eq.
      by destruct (split_active _ _ _ _) as [[ts rem]|e].
  - unfold ret at 1. destruct (py_hash _) as [k|]; [|done].
    unfold bind at 1, get at 1. destruct (trace_ownership s !! k) as [o|]; [|done].
    destruct (_ >? _); [done|].
    destruct (_ <? _); [|done].
    unfold bind at 1. rewrite transfer_ownership_eq.
    by destruct (split_active _ _ _ _) as [[ts rem]|e].
Qed.

(** A call with a single detection is one loop iteration followed by the
    extension of the active list. *)
Lemma process_detections_single (X : string) (d : nat) (s : state) :
  process_detections X [d] s =
  match process_one X [] d s with
  | (Ok active, s') =>
      (Ok active, set_active_detections (active_detections s' ++ active) s')
  | (Raise e, s') => (Raise e, s')
  end.
Proof.
  unfold process_detections. simpl. unfold bind, modify, ret.
  by destruct (process_one X [] d s) as [[a|e] s'].
Qed.

(* ===================================================================== *)
(** ** What the state transformers change *)
(* ===================================================================== *)

Lemma deref_lookup (h : list (gmap string pyval)) (r : nat) (o : gmap string pyval) :
  h !! r = Some o → deref h r = o.
Proof. unfold deref. by intros ->. Qed.

Lemma deref_app_l (h h' : list (gmap string pyval)) (r : nat) :
  (r < length h)%nat → deref (h ++ h') r = deref h r.
Proof. intros Hr. unfold deref. by rewrite lookup_app_l. Qed.

Lemma deref_dangling (h : list (gmap string pyval)) (r : nat) :
  (length h ≤ r)%nat → deref h r = ∅.
Proof. intros Hr. unfold deref. by rewrite lookup_ge_None_2. Qed.

(** A reference whose record carries a truthy trace id is allocated. *)
Lemma truthy_trace_id_valid (h : list (gmap string pyval)) (r : nat) :
  truthy (dict_get (deref h r) "trace_id") = true → (r < length h)%nat.
Proof.
  intros Ht. destruct (decide (r < length h)%nat) as [|Hn]; [done|].
  rewrite deref_dangling in Ht by lia. done.
Qed.

Section push_all.
Context (old_owner reason : string).

Lemma push_all_active (l : list nat) (s : state) :
  active_detections (push_all l old_owner reason s) = active_detections s.
Proof. revert s. induction l as [|d l IH]; intros s; [done|]. simpl. by rewrite IH. Qed.

Lemma push_all_ownership (l : list nat) (s : state) :
  trace_ownership (push_all l old_owner reason s) = trace_ownership s.
Proof. revert s. induction l as [|d l IH]; intros s; [done|]. simpl. by rewrite IH. Qed.

Lemma push_all_config (l : list nat) (s : state) :
  suppression_config (push_all l old_owner reason s) = suppression_config s.
Proof. revert s. induction l as [|d l IH]; intros s; [done|]. simpl. by rewrite IH. Qed.

Lemma push_all_suppressed (l : list nat) (s : state) :
  suppressed_detections (push_all l old_owner reason s) =
  suppressed_detections s ++ seq (length (heap s)) (length l).
Proof.
  revert s. induction l as [|d l IH]; intros s; simpl.
  - by rewrite app_nil_r.
  - rewrite IH. simpl. rewrite length_app. simpl.
    rewrite <- app_assoc. simpl. do 3 f_equal. lia.
Qed.

Lemma push_all_heap (l : list nat) (s : state) :
  Forall (λ r, r < length (heap s))%nat l →
  heap (push_all l old_owner reason s) =
  heap s ++ ((λ r, suppressed_copy (deref (heap s) r) old_owner reason) <$> l).
Proof.
  revert s. induction l as [|d l IH]; intros s Hl; simpl.
  - by rewrite app_nil_r.
  - apply Forall_cons in Hl as [Hd Hl].
    rewrite IH; simpl.
    + rewrite <- app_assoc. simpl. do 2 f_equal.
      apply list_fmap_ext. intros i r Hr.
      rewrite deref_app_l; [done|].
      apply (Forall_lookup_1 _ _ _ _ Hl Hr).
    + rewrite length_app. eapply Forall_impl; [exact Hl|]. simpl. intros; lia.
Qed.
End push_all.

(* ===================================================================== *)
(** ** The filter of [_transfer_ownership] as a boolean test *)
(* ===================================================================== *)

Lemma typed_normalized (d : gmap string pyval) :
  typed d → ∃ ty, normalized_type d = Ok ty.
Proof.
  unfold typed, normalized_type, dict_get_or.
  destruct (d !! "type") as [[| | |ty|]|]; simpl; try done; eauto.
Qed.

Lemma matches_old_owner_typed (d : gmap string pyval) (trace_id : pyval)
    (old_owner : string) (h : list (gmap string pyval)) (r : nat) :
  deref h r = d → typed d →
  matches_old_owner d trace_id old_owner = Ok (owned_by h trace_id old_owner r).
Proof.
  intros <- Ht. unfold matches_old_owner, owned_by.
  destruct (typed_normalized _ Ht) as [ty ->].
  by destruct (py_eq _ _).
Qed.

Lemma split_active_typed (h : list (gmap string pyval)) (trace_id : pyval)
    (old_owner : string) (l : list nat) :
  Forall (λ r, typed (deref h r)) l →
  split_active h trace_id old_owner l =
  Ok (List.filter (owned_by h trace_id old_owner) l,
      List.filter (λ r, negb (owned_by h trace_id old_owner r)) l).
Proof.
  induction l as [|r l IH]; intros Hl; [done|].
  apply Forall_cons in Hl as [Hr Hl]. simpl.
  rewrite (matches_old_owner_typed _ _ _ h r) by done.
  rewrite IH by done.
  by destruct (owned_by _ _ _ r).
Qed.

(** Whatever the types, a split that returns is that partition. *)
Lemma split_active_Ok (h : list (gmap string pyval)) (trace_id : pyval)
    (old_owner : string) (l ts rem : list nat) :
  split_active h trace_id old_owner l = Ok (ts, rem) →
  ts = List.filter (owned_by h trace_id old_owner) l ∧
  rem = List.filter (λ r, negb (owned_by h trace_id old_owner r)) l ∧
  Forall (λ r, matches_old_owner (deref h r) trace_id old_owner =
                Ok (owned_by h trace_id old_owner r)) l.
Proof.
  revert ts rem. induction l as [|r l IH]; intros ts rem; simpl.
  - intros [= <- <-]. by repeat split.
  - destruct (matches_old_owner _ _ _) as [b|e] eqn:Hm; [|done].
    destruct (split_active _ _ _ l) as [[ts' rem']|e] eqn:Hs; [|done].
    destruct (IH _ _ eq_refl) as (-> & -> & Hall).
    assert (owned_by h trace_id old_owner r = b) as Hb.
    { unfold matches_old_owner in Hm. unfold owned_by.
      destruct (py_eq _ _); simpl.
      - destruct (normalized_type _); by simplify_eq.
      - by simplify_eq. }
    intros Heq. rewrite Hb. split_and!.
    + destruct b; by simplify_eq.
    + destruct b; by simplify_eq.
    + constructor; [by rewrite Hb|done].
Qed.

(** A matching record is allocated when the trace id compared with is a
    truthy one. *)
Lemma owned_by_valid (h : list (gmap string pyval)) (trace_id : pyval)
    (old_owner : string) (r : nat) :
  truthy trace_id = true → owned_by h trace_id old_owner r = true →
  (r < length h)%nat.
Proof.
  intros Ht [Heq _]%andb_prop.
  apply truthy_trace_id_valid. by rewrite (py_eq_truthy _ _ Heq).
Qed.

(* ===================================================================== *)
(** ** Suppression of an incoming detection *)
(* ===================================================================== *)

Lemma push_suppressed_new (d : nat) (name reason : string) (s : state) :
  heap (push_suppressed d name reason s) !! length (heap s) =
  Some (suppressed_copy (deref (heap s) d) name reason).
Proof. simpl. rewrite lookup_app_r by lia. by rewrite Nat.sub_diag. Qed.

Lemma suppressed_copy_reason (o : gmap string pyval) (name reason : string) :
  dict_get (suppressed_copy o name reason) "suppression_reason" = PStr reason ∧
  dict_get (suppressed_copy o name reason) "suppressed_by" = PStr name ∧
  dict_get (suppressed_copy o name reason) "detector" = PStr name.
Proof. unfold dict_get, suppressed_copy. by simplify_map_eq. Qed.

Lemma suppressed_copy_other (o : gmap string pyval) (name reason key : string) :
  key ≠ "suppressed_by" → key ≠ "suppression_reason" → key ≠ "detector" →
  suppressed_copy o name reason !! key = o !! key.
Proof. intros H1 H2 H3. unfold suppressed_copy. by rewrite !lookup_insert_ne. Qed.

(** The entry that [_add_suppressed_detection] stores: where it is, the
    three fields it writes, and the other fields as in the detection. *)
Lemma push_suppressed_entry (d : nat) (name reason : string) (s : state) :
  ∃ o', heap (push_suppressed d name reason s) !! length (heap s) = Some o' ∧
        dict_get o' "suppression_reason" = PStr reason ∧
        dict_get o' "suppressed_by" = PStr name ∧
        dict_get o' "detector" = PStr name ∧
        ∀ key, key ≠ "suppressed_by" → key ≠ "suppression_reason" →
               key ≠ "detector" → o' !! key = deref (heap s) d !! key.
Proof.
  exists (suppressed_copy (deref (heap s) d) name reason).
  split; [apply push_suppressed_new|].
  destruct (suppressed_copy_reason (deref (heap s) d) name reason) as (H1 & H2 & H3).
  split_and!; [done..|]. intros key. apply suppressed_copy_other.
Qed.



(** The rules only ever apply below [RetryLoopDetector], which no detector
    outranks. *)
Lemma config_check_outranked (s : state) (X old : string) (k : hkey) :
  trace_ownership s !! k = Some old → priority X < priority old →
  (config_flag X s &&
   bool_decide (trace_ownership s !! k = Some "RetryLoopDetector")) = false.
Proof.
  intros Ho Hlt. apply andb_false_iff. right. apply bool_decide_eq_false_2.
  rewrite Ho. intros [= ->]. pose proof (priority_lower_bound X).
  rewrite priority_RetryLoop in Hlt. lia.
Qed.

(** C5 (amended). Downgrade suppression: when a detection arrives for a
    trace whose owner has a numerically smaller rank than the incoming
    detector, and the rules do not disable the detector for that trace
    (the flag is not set for it, or the owner is not [RetryLoopDetector]),
    the detection is suppressed with reason
    [higher_priority_detector:<owner>]: one entry is appended to the
    suppressed list, a new record with that [suppression_reason], with
    [suppressed_by] and [detector] naming the incoming detector and the
    other fields as in the detection; it is not added to the active list
    (nor to the list that [process_detections] returns when it is submitted
    alone) and the ownership table is unchanged. *)
Theorem downgrade_suppression (s : state) (X : string)
    (d : nat) (k : hkey) (owner : string) :
  truthy (dict_get (deref (heap s) d) "trace_id") = true →
  py_hash (dict_get (deref (heap s) d) "trace_id") = Some k →
  trace_ownership s !! k = Some owner →
  priority owner < priority X →
  config_flag X s = false ∨ owner ≠ "RetryLoopDetector" →
  ∃ s', (∀ active, process_one X active d s = (Ok active, s')) ∧
        (process_detections X [d] s).1 = Ok [] ∧
        suppressed_detections s' = suppressed_detections s ++ [length (heap s)] ∧
        heap s' !! length (heap s) =
          Some (suppressed_copy (deref (heap s) d) X
                  ("higher_priority_detector:" +:+ owner)) ∧
        active_detections s' = active_detections s ∧
        trace_ownership s' = trace_ownership s ∧
        ∃ o', heap s' !! length (heap s) = Some o' ∧
              dict_get o' "suppression_reason" =
                PStr ("higher_priority_detector:" +:+ owner) ∧
              dict_get o' "suppressed_by" = PStr X ∧
              dict_get o' "detector" = PStr X ∧
              ∀ key, key ≠ "suppressed_by" → key ≠ "suppression_reason" →
                     key ≠ "detector" → o' !! key = deref (heap s) d !! key.
Proof.
  intros Ht Hk Ho Hlt Hcfg.
  exists (push_suppressed d X ("higher_priority_detector:" +:+ owner) s).
  assert (∀ active,
            process_one X active d s =
            (Ok active, push_suppressed d X ("higher_priority_detector:" +:+ owner) s))
    as Hstep.
  { intros active.
    rewrite process_one_eq. cbv zeta. rewrite Ht, Hk. simpl negb. cbv iota.
    assert ((config_flag X s &&
             bool_decide (trace_ownership s !! k = Some "RetryLoopDetector")) = false)
      as ->.
    { apply andb_false_iff. destruct Hcfg as [Hf|Hne]; [by left|right].
      apply bool_decide_eq_false_2. rewrite Ho. congruence. }
    rewrite Ho.
    assert ((priority X >? priority owner) = true) as ->; [|done].
    apply Z.gtb_lt. lia. }
  split_and!; try done.
  - by rewrite process_detections_single, Hstep.
  - apply push_suppressed_new.
  - apply push_suppressed_entry.
Qed.

Lemma downgrade_suppression_witness :
  let s := run [("RetryLoopDetector", [0%nat])] (init sample_heap ∅ false) in
  ∃ s', (∀ active, process_one "FallbackStormDetector" active 1 s = (Ok active, s')) ∧
        (process_detections "FallbackStormDetector" [1%nat] s).1 = Ok [] ∧
        suppressed_detections s' = suppressed_detections s ++ [length (heap s)] ∧
        heap s' !! length (heap s) =
          Some (suppressed_copy (deref (heap s) 1) "FallbackStormDetector"
                  ("higher_priority_detector:" +:+ "RetryLoopDetector")) ∧
        active_detections s' = active_detections s ∧
        trace_ownership s' = trace_ownership s ∧
        ∃ o', heap s' !! length (heap s) = Some o' ∧
              dict_get o' "suppression_reason" =
                PStr ("higher_priority_detector:" +:+ "RetryLoopDetector") ∧
              dict_get o' "suppressed_by" = PStr "FallbackStormDetector" ∧
              dict_get o' "detector" = PStr "FallbackStormDetector" ∧
              ∀ key, key ≠ "suppressed_by" → key ≠ "suppression_reason" →
                     key ≠ "detector" → o' !! key = deref (heap s) 1 !! key.
Proof.
  apply (downgrade_suppression _ "FallbackStormDetector" 1%nat (KStr "t1")
           "RetryLoopDetector");
    [vm_compute; reflexivity .. | left; vm_compute; reflexivity].
Defined.

(** C5 as stated fails when the rules disable the incoming detector: with
    [{'fallbackstorm': {'suppress_if_retry_loop': True}}], trace [t1] owned by
    [RetryLoopDetector] (rank 1) and a [FallbackStormDetector] (rank 2)
    detection for [t1], the stored reason is [disabled_by_config], not
    [higher_priority_detector:RetryLoopDetector]. *)
Lemma downgrade_suppression_counterexample :
  let s := run [("RetryLoopDetector", [0%nat])] (init sample_heap sample_rules false) in
  let s' := snd (process_detections "FallbackStormDetector" [1%nat] s) in
  trace_ownership s !! KStr "t1" = Some "RetryLoopDetector" ∧
  priority "RetryLoopDetector" < priority "FallbackStormDetector" ∧
  dict_get (deref (heap s) 1) "trace_id" = PStr "t1" ∧
  suppressed_detections s' = [4%nat] ∧
  dict_get (deref (heap s') 4) "suppression_reason" = PStr "disabled_by_config" ∧
  dict_get (deref (heap s') 4) "suppression_reason" ≠
    PStr ("higher_priority_detector:" +:+ "RetryLoopDetector").
Proof. vm_compute. split_and!; try reflexivity. discriminate. Qed.

(* ===================================================================== *)
(** ** Detections without a usable trace id *)
(* ===================================================================== *)

Lemma falsy_trace_id_step (s : state) (X : string) (active : list nat) (d : nat) :
  truthy (dict_get (deref (heap s) d) "trace_id") = false →
  process_one X active d s = (Ok (active ++ [d]), s).
Proof. intros Ht. rewrite process_one_eq. cbv zeta. by rewrite Ht. Qed.

(* ===================================================================== *)
(** ** Ownership transfer *)
(* ===================================================================== *)

(** The state after a transfer that returns. *)
Lemma transfer_state (s : state) (trace_id : pyval) (old_owner reason : string) :
  truthy trace_id = true →
  let moved := List.filter (owned_by (heap s) trace_id old_owner) (active_detections s) in
  let s' := push_all moved old_owner reason s in
  heap s' =
    heap s ++ ((λ r, suppressed_copy (deref (heap s) r) old_owner reason) <$> moved) ∧
  suppressed_detections s' =
    suppressed_detections s ++ seq (length (heap s)) (length moved).
Proof.
  intros Ht moved s'. split; [|apply push_all_suppressed].
  apply push_all_heap. apply Forall_forall. intros r Hr.
  apply list_elem_of_In, filter_In in Hr as [_ Hr].
  by eapply owned_by_valid.
Qed.

(** What a transfer does, for records whose [type] is absent or a string:
    when a trace is owned by a detector [old] and a detector [X] of
    numerically smaller rank submits a detection for it, the active
    detections for that trace whose normalised [type] is a substring of the
    lower-cased name of [old] are removed from the active list, a copy of
    each is appended to the suppressed list with reason [superseded_by:<X>]
    and attributed to [old], the other active detections stay, the incoming
    detection is accepted (appended to the local active list, marked
    [suppressed_by = None]; submitted alone, it is the list that
    [process_detections] returns and the last entry of the active list) and
    the ownership entry becomes [X]. *)
Lemma priority_transfer (s : state) (X : string)
    (d : nat) (k : hkey) (old : string) :
  let trace_id := dict_get (deref (heap s) d) "trace_id" in
  let moved := List.filter (owned_by (heap s) trace_id old) (active_detections s) in
  truthy trace_id = true →
  py_hash trace_id = Some k →
  trace_ownership s !! k = Some old →
  priority X < priority old →
  Forall (λ r, typed (deref (heap s) r)) (active_detections s) →
  ∃ s', (∀ active, process_one X active d s = (Ok (active ++ [d]), s')) ∧
        (process_detections X [d] s).1 = Ok [d] ∧
        active_detections (process_detections X [d] s).2 =
          active_detections s' ++ [d] ∧
        active_detections s' =
          List.filter (λ r, negb (owned_by (heap s) trace_id old r))
            (active_detections s) ∧
        suppressed_detections s' =
          suppressed_detections s ++ seq (length (heap s)) (length moved) ∧
        (∀ i r, moved !! i = Some r →
                heap s' !! (length (heap s) + i)%nat =
                Some (suppressed_copy (deref (heap s) r) old ("superseded_by:" +:+ X))) ∧
        trace_ownership s' = <[k := X]> (trace_ownership s) ∧
        dict_get (deref (heap s') d) "suppressed_by" = PNone.
Proof.
  intros trace_id moved Ht Hk Ho Hlt Hty.
  pose proof (truthy_trace_id_valid _ _ Ht) as Hd.
  destruct (transfer_state s trace_id old ("superseded_by:" +:+ X) Ht) as [Hh Hs].
  fold moved in Hh, Hs.
  set (rem := List.filter (λ r, negb (owned_by (heap s) trace_id old r))
                (active_detections s)).
  set (s' := claim X k d
               (set_active_detections rem
                  (push_all moved old ("superseded_by:" +:+ X) s))).
  assert (∀ active, process_one X active d s = (Ok (active ++ [d]), s')) as Hstep.
  { intros active.
    rewrite process_one_eq. cbv zeta. fold trace_id. rewrite Ht, Hk. simpl negb. cbv iota.
    rewrite (config_check_outranked s X old k Ho Hlt), Ho.
    assert ((priority X >? priority old) = false) as ->
      by (rewrite Z.gtb_ltb; apply Z.ltb_ge; lia).
    assert ((priority X <? priority old) = true) as -> by (by apply Z.ltb_lt).
    by rewrite (split_active_typed _ _ _ _ Hty). }
  exists s'. split; [done|].
  split; [by rewrite process_detections_single, Hstep|].
  split; [by rewrite process_detections_single, Hstep|].
  subst s'. simpl. rewrite Hh, Hs, push_all_ownership. split_and!; try done.
  - intros i r Hi.
    rewrite list_lookup_insert_ne by lia.
    rewrite lookup_app_r by lia.
    replace (length (heap s) + i - length (heap s))%nat with i by lia.
    by rewrite list_lookup_fmap, Hi.
  - unfold deref at 1.
    rewrite list_lookup_insert_eq by (rewrite length_app; lia).
    unfold dict_get. simpl. by rewrite lookup_insert_eq.
Qed.

Lemma priority_transfer_example :
  let s := run [("FallbackFailureDetector", [2%nat])] (init sample_heap ∅ false) in
  let trace_id := dict_get (deref (heap s) 0) "trace_id" in
  let moved := List.filter (owned_by (heap s) trace_id "FallbackFailureDetector")
                 (active_detections s) in
  moved = [2%nat] ∧
  ∃ s', (∀ active, process_one "RetryLoopDetector" active 0 s
                    = (Ok (active ++ [0%nat]), s')) ∧
        (process_detections "RetryLoopDetector" [0%nat] s).1 = Ok [0%nat] ∧
        active_detections (process_detections "RetryLoopDetector" [0%nat] s).2 =
          active_detections s' ++ [0%nat] ∧
        active_detections s' =
          List.filter (λ r, negb (owned_by (heap s) trace_id "FallbackFailureDetector" r))
            (active_detections s) ∧
        suppressed_detections s' =
          suppressed_detections s ++ seq (length (heap s)) (length moved) ∧
        (∀ i r, moved !! i = Some r →
                heap s' !! (length (heap s) + i)%nat =
                Some (suppressed_copy (deref (heap s) r) "FallbackFailureDetector"
                        ("superseded_by:" +:+ "RetryLoopDetector"))) ∧
        trace_ownership s' = <[KStr "t1" := "RetryLoopDetector"]> (trace_ownership s) ∧
        dict_get (deref (heap s') 0) "suppressed_by" = PNone.
Proof.
  split; [vm_compute; reflexivity|].
  apply (priority_transfer _ "RetryLoopDetector" 0%nat (KStr "t1")
           "FallbackFailureDetector"); try (vm_compute; reflexivity).
  vm_compute. repeat constructor.
Defined.

(** C2 (defect of the code). Priority transfer: [OverkillModelDetector]
    (rank 4) claims trace [t1] with a record of type [expensive_model_short],
    then [RetryLoopDetector] (rank 1) submits a detection for [t1].  The
    transfer is meant to "move old detections to suppressed", but it finds
    the old owner's records by their [type], and [expensivemodelshort] is
    not a substring of [overkillmodeldetector]: the earlier record stays
    active, nothing is suppressed, and the table names
    [RetryLoopDetector]. *)
Theorem priority_transfer_misses_record :
  let s0 := run [("OverkillModelDetector", [3%nat])] (init sample_heap ∅ false) in
  let s := run [("RetryLoopDetector", [0%nat])] s0 in
  active_detections s0 = [3%nat] ∧
  trace_ownership s0 !! KStr "t1" = Some "OverkillModelDetector" ∧
  priority "RetryLoopDetector" < priority "OverkillModelDetector" ∧
  dict_get (deref (heap s0) 0) "trace_id" = dict_get (deref (heap s0) 3) "trace_id" ∧
  active_detections s = [3%nat; 0%nat] ∧
  suppressed_detections s = [] ∧
  trace_ownership s !! KStr "t1" = Some "RetryLoopDetector".
Proof. vm_compute. by split_and!. Qed.

Lemma empty_type_matches (o : gmap string pyval) (trace_id : pyval) (owner : string) :
  py_eq (dict_get o "trace_id") trace_id = true →
  (o !! "type" = None ∨ o !! "type" = Some (PStr "")) →
  matches_old_owner o trace_id owner = Ok true.
Proof.
  intros Heq Hty. unfold matches_old_owner, normalized_type, dict_get_or.
  rewrite Heq. destruct Hty as [-> | ->]; simpl; by rewrite contains_empty.
Qed.

(** In a transfer that returns, an active record of the trace without a
    type is moved. *)
Lemma empty_type_moved (s s' : state) (trace_id : pyval)
    (old_owner new_owner : string) (r : nat) (o : gmap string pyval) :
  r ∈ active_detections s →
  heap s !! r = Some o →
  truthy trace_id = true →
  py_eq (dict_get o "trace_id") trace_id = true →
  (o !! "type" = None ∨ o !! "type" = Some (PStr "")) →
  _transfer_ownership trace_id old_owner new_owner s = (Ok tt, s') →
  (∀ owner, matches_old_owner o trace_id owner = Ok true) ∧
  (r ∉ active_detections s') ∧
  ∃ i r', suppressed_detections s' !! (length (suppressed_detections s) + i)%nat
            = Some r' ∧
          heap s' !! r' =
            Some (suppressed_copy o old_owner ("superseded_by:" +:+ new_owner)).
Proof.
  intros Hr Ho Ht Heq Hty Htr.
  split; [intros owner; by apply empty_type_matches|].
  rewrite transfer_ownership_eq in Htr.
  destruct (split_active _ _ _ _) as [[ts rem]|e] eqn:Hsplit; [|done].
  apply split_active_Ok in Hsplit as (-> & -> & Hall).
  injection Htr as <-.
  assert (owned_by (heap s) trace_id old_owner r = true) as Hown.
  { rewrite Forall_forall in Hall. specialize (Hall r Hr).
    rewrite (deref_lookup _ _ _ Ho), (empty_type_matches _ _ _ Heq Hty) in Hall.
    by injection Hall. }
  destruct (transfer_state s trace_id old_owner ("superseded_by:" +:+ new_owner) Ht)
    as [Hh Hs].
  split.
  - simpl. intros Hin%list_elem_of_In%filter_In. destruct Hin as [_ Hin].
    by rewrite Hown in Hin.
  - assert (r ∈ List.filter (owned_by (heap s) trace_id old_owner) (active_detections s))
      as [i Hi]%list_elem_of_lookup.
    { apply list_elem_of_In, filter_In. split; [by apply list_elem_of_In|done]. }
    exists i, (length (heap s) + i)%nat. simpl.
    rewrite Hs, Hh. split.
    + rewrite lookup_app_r by lia.
      replace (length (suppressed_detections s) + i - length (suppressed_detections s))%nat
        with i by lia.
      apply lookup_seq. split; [done|]. by eapply lookup_lt_Some.
    + rewrite lookup_app_r by lia.
      replace (length (heap s) + i - length (heap s))%nat with i by lia.
      by rewrite list_lookup_fmap, Hi, <- (deref_lookup _ _ _ Ho).
Qed.

(** The loop of the transfer reads the [type] of the active records of the
    trace only: it returns when each of those has a [type] that is absent or
    a string, whatever the records of other traces hold. *)
Lemma split_active_same_trace (h : list (gmap string pyval)) (trace_id : pyval)
    (old_owner : string) (l : list nat) :
  Forall (λ r, py_eq (dict_get (deref h r) "trace_id") trace_id = true →
               typed (deref h r)) l →
  split_active h trace_id old_owner l =
  Ok (List.filter (owned_by h trace_id old_owner) l,
      List.filter (λ r, negb (owned_by h trace_id old_owner r)) l).
Proof.
  induction l as [|r l IH]; intros Hl; [done|].
  apply Forall_cons in Hl as [Hr Hl]. simpl.
  assert (matches_old_owner (deref h r) trace_id old_owner =
          Ok (owned_by h trace_id old_owner r)) as ->.
  { unfold matches_old_owner, owned_by.
    destruct (py_eq _ _) eqn:Heq; [|done].
    destruct (typed_normalized _ (Hr eq_refl)) as [ty ->]. done. }
  rewrite IH by done.
  by destruct (owned_by _ _ _ r).
Qed.

(** C10 (amended). During an ownership transfer for a trace, an active
    detection for that trace whose [type] is absent or the empty string
    passes the old-owner test for every owner name.  When no active
    detection of the trace has a [type] that is neither absent nor a string,
    the transfer returns, removes the detection from the active list and
    appends to the suppressed list a new record whose [suppression_reason]
    is [superseded_by:<new_owner>], whose [suppressed_by] and [detector] are
    the old owner and whose other fields are those of the detection,
    whoever produced it. *)
Theorem empty_type_superseded (s : state) (trace_id : pyval)
    (old_owner new_owner : string) (r : nat) (o : gmap string pyval) :
  r ∈ active_detections s →
  heap s !! r = Some o →
  truthy trace_id = true →
  py_eq (dict_get o "trace_id") trace_id = true →
  (o !! "type" = None ∨ o !! "type" = Some (PStr "")) →
  Forall (λ r', py_eq (dict_get (deref (heap s) r') "trace_id") trace_id = true →
                typed (deref (heap s) r')) (active_detections s) →
  (∀ owner, matches_old_owner o trace_id owner = Ok true) ∧
  ∃ s', _transfer_ownership trace_id old_owner new_owner s = (Ok tt, s') ∧
        (r ∉ active_detections s') ∧
        ∃ i r' o',
          suppressed_detections s' !! (length (suppressed_detections s) + i)%nat
            = Some r' ∧
          heap s' !! r' = Some o' ∧
          o' = suppressed_copy o old_owner ("superseded_by:" +:+ new_owner) ∧
          dict_get o' "suppression_reason" = PStr ("superseded_by:" +:+ new_owner) ∧
          dict_get o' "suppressed_by" = PStr old_owner ∧
          dict_get o' "detector" = PStr old_owner ∧
          ∀ key, key ≠ "suppressed_by" → key ≠ "suppression_reason" →
                 key ≠ "detector" → o' !! key = o !! key.
Proof.
  intros Hr Ho Ht Heq Hty Htyped.
  destruct (_transfer_ownership trace_id old_owner new_owner s) as [out s'] eqn:Htr.
  assert (out = Ok tt) as ->.
  { rewrite transfer_ownership_eq, (split_active_same_trace _ _ _ _ Htyped) in Htr.
    by injection Htr as <- _. }
  destruct (empty_type_moved s s' trace_id old_owner new_owner r o)
    as (H1 & H2 & i & r' & H3 & H4); try done.
  split; [done|]. exists s'. split_and!; [done..|].
  exists i, r', (suppressed_copy o old_owner ("superseded_by:" +:+ new_owner)).
  destruct (suppressed_copy_reason o old_owner ("superseded_by:" +:+ new_owner))
    as (F1 & F2 & F3).
  split_and!; [done..|]. intros key. apply suppressed_copy_other.
Qed.

Lemma empty_type_superseded_witness :
  let s := run [("A", [0%nat]); ("B", [1%nat])] (init untyped_heap ∅ false) in
  let o : gmap string pyval := <["suppressed_by" := PNone]> {[ "trace_id" := PStr "t1" ]} in
  trace_ownership s !! KStr "t1" = Some "B" ∧
  (∀ owner, matches_old_owner o (PStr "t1") owner = Ok true) ∧
  ∃ s', _transfer_ownership (PStr "t1") "B" "RetryLoopDetector" s = (Ok tt, s') ∧
        (0%nat ∉ active_detections s') ∧
        ∃ i r' o',
          suppressed_detections s' !! (length (suppressed_detections s) + i)%nat
            = Some r' ∧
          heap s' !! r' = Some o' ∧
          o' = suppressed_copy o "B" ("superseded_by:" +:+ "RetryLoopDetector") ∧
          dict_get o' "suppression_reason" =
            PStr ("superseded_by:" +:+ "RetryLoopDetector") ∧
          dict_get o' "suppressed_by" = PStr "B" ∧
          dict_get o' "detector" = PStr "B" ∧
          ∀ key, key ≠ "suppressed_by" → key ≠ "suppression_reason" →
                 key ≠ "detector" → o' !! key = o !! key.
Proof.
  split; [vm_compute; reflexivity|].
  apply (empty_type_superseded _ (PStr "t1") "B" "RetryLoopDetector" 0%nat).
  - vm_compute. apply list_elem_of_here.
  - vm_compute; reflexivity.
  - reflexivity.
  - reflexivity.
  - left. vm_compute; reflexivity.
  - vm_compute. repeat constructor.
Defined.

(** C10 as stated fails when the transfer does not return: trace [t1] has
    two active detections, record 0 without a [type] and record 1 whose
    [type] is the integer 5, and is owned by detector [B]; when
    [RetryLoopDetector] submits record 2 for [t1], the loop of
    [_transfer_ownership] passes record 0 and raises [AttributeError] at
    record 1, before anything is moved: record 0 is still active, nothing is
    suppressed and the owner is still [B]. *)
Lemma empty_type_superseded_counterexample :
  let s := run [("A", [0%nat]); ("B", [1%nat])] (init half_typed_heap ∅ false) in
  active_detections s = [0%nat; 1%nat] ∧
  trace_ownership s !! KStr "t1" = Some "B" ∧
  priority "RetryLoopDetector" < priority "B" ∧
  deref (heap s) 0 !! "type" = None ∧
  dict_get (deref (heap s) 0) "trace_id" = PStr "t1" ∧
  matches_old_owner (deref (heap s) 0) (PStr "t1") "B" = Ok true ∧
  _transfer_ownership (PStr "t1") "B" "RetryLoopDetector" s = (Raise AttributeError, s) ∧
  process_detections "RetryLoopDetector" [2%nat] s = (Raise AttributeError, s) ∧
  suppressed_detections s = [].
Proof. vm_compute. by split_and!. Qed.

(* ===================================================================== *)
(** ** Every loop iteration is one of the five steps *)
(* ===================================================================== *)

Lemma process_one_step (X : string) (active : list nat) (d : nat) (s : state) :
  step X active d s (process_one X active d s).1 (process_one X active d s).2.
Proof.
  rewrite process_one_eq. cbv zeta.
  destruct (truthy _) eqn:Ht; simpl negb; cbv iota; [|by constructor].
  destruct (py_hash _) as [k|] eqn:Hk; [|by constructor].
  destruct (_ && _) eqn:Hcfg.
  { apply andb_prop in Hcfg as [_ Ho%bool_decide_eq_true_1].
    by eapply step_suppress. }
  destruct (trace_ownership s !! k) as [owner|] eqn:Ho;
    [|apply step_claim; auto].
  destruct (_ >? _) eqn:Hgt; [by eapply step_suppress|].
  destruct (_ <? _) eqn:Hlt.
  - apply Z.ltb_lt in Hlt.
    destruct (split_active _ _ _ _) as [[ts rem]|e] eqn:Hsplit;
      [|by eapply step_transfer_raise].
    apply split_active_Ok in Hsplit as (-> & -> & Hall).
    by apply step_transfer.
  - apply step_claim; [done..|]. right. exists owner. split; [done|].
    apply Z.ltb_ge in Hlt. rewrite Z.gtb_ltb in Hgt. apply Z.ltb_ge in Hgt. lia.
Qed.

Lemma process_one_inv (X : string) (active : list nat) (d : nat)
    (s s' : state) (out : outcome (list nat)) :
  process_one X active d s = (out, s') → step X active d s out s'.
Proof. intros H. pose proof (process_one_step X active d s) as Hs. by rewrite H in Hs. Qed.

(* ===================================================================== *)
(** ** Frame: what no call changes *)
(* ===================================================================== *)

Lemma same_raw_refl (o : gmap string pyval) : same_raw o o.
Proof. done. Qed.

Lemma same_raw_trans (o1 o2 o3 : gmap string pyval) :
  same_raw o1 o2 → same_raw o2 o3 → same_raw o1 o3.
Proof. unfold same_raw. congruence. Qed.

Lemma same_raw_lookup (o o' : gmap string pyval) (key : string) :
  same_raw o o' → key ≠ "suppressed_by" → o' !! key = o !! key.
Proof.
  intros H Hk.
  rewrite <- (lookup_delete_ne o' "suppressed_by" key) by done.
  rewrite <- (lookup_delete_ne o "suppressed_by" key) by done.
  by rewrite H.
Qed.

Lemma same_raw_copy (o o' : gmap string pyval) (name reason : string) :
  same_raw o o' → suppressed_copy o' name reason = suppressed_copy o name reason.
Proof.
  intros H. unfold suppressed_copy. do 2 f_equal.
  rewrite <- (insert_delete_eq o'), <- (insert_delete_eq o). by rewrite H.
Qed.

Lemma same_raw_mark (o : gmap string pyval) (v : pyval) :
  same_raw o (<["suppressed_by" := v]> o).
Proof. unfold same_raw. by rewrite delete_insert_eq. Qed.

Lemma heap_ext_refl (ds : list nat) (h : list (gmap string pyval)) : heap_ext ds h h.
Proof. split; [done|]. intros r o Hr. exists o. by repeat split. Qed.

Lemma heap_ext_trans (ds ds' : list nat) (h1 h2 h3 : list (gmap string pyval)) :
  heap_ext ds h1 h2 → heap_ext ds' h2 h3 → heap_ext (ds ++ ds') h1 h3.
Proof.
  intros [Hl1 H1] [Hl2 H2]. split; [lia|].
  intros r o Hr.
  destruct (H1 r o Hr) as (o2 & Hr2 & Hs2 & He2).
  destruct (H2 r o2 Hr2) as (o3 & Hr3 & Hs3 & He3).
  exists o3. split_and!; [done|by eapply same_raw_trans|].
  intros Hn. rewrite elem_of_app in Hn.
  rewrite He3, He2; tauto.
Qed.

Lemma heap_ext_mono (ds ds' : list nat) (h h' : list (gmap string pyval)) :
  ds ⊆ ds' → heap_ext ds h h' → heap_ext ds' h h'.
Proof.
  intros Hsub [Hl H]. split; [done|]. intros r o Hr.
  destruct (H r o Hr) as (o' & ? & ? & He). exists o'. split_and!; [done..|].
  intros Hn. apply He. intros Hin. by apply Hn, Hsub.
Qed.

Lemma heap_ext_app (ds : list nat) (h h' : list (gmap string pyval)) :
  heap_ext ds h (h ++ h').
Proof.
  split; [rewrite length_app; lia|]. intros r o Hr. exists o.
  split_and!; [by apply lookup_app_l_Some|done..].
Qed.

Lemma heap_ext_mark (d : nat) (h : list (gmap string pyval)) :
  heap_ext [d] h (<[d := <["suppressed_by" := PNone]> (deref h d)]> h).
Proof.
  split; [by rewrite length_insert|]. intros r o Hr.
  destruct (decide (r = d)) as [->|Hne].
  - eexists. split_and!.
    + apply list_lookup_insert_eq. by eapply lookup_lt_Some.
    + rewrite (deref_lookup _ _ _ Hr). apply same_raw_mark.
    + intros Hn. exfalso. apply Hn, list_elem_of_here.
  - exists o. split_and!; [|done..]. by rewrite list_lookup_insert_ne.
Qed.

Lemma frame_refl (ds : list nat) (s : state) : frame ds s s.
Proof. split_and!; [done|done|auto|auto|apply heap_ext_refl]. Qed.

Lemma frame_trans (ds ds' : list nat) (s1 s2 s3 : state) :
  frame ds s1 s2 → frame ds' s2 s3 → frame (ds ++ ds') s1 s3.
Proof.
  intros (Hc1 & Hp1 & Hn1 & Ha1 & Hh1) (Hc2 & Hp2 & Hn2 & Ha2 & Hh2). split_and!.
  - congruence.
  - by etrans.
  - intros r Hr. destruct Hh1 as [Hl1 _], Hh2 as [Hl2 _].
    destruct (Hn2 r Hr) as [H|H]; [|right; lia].
    destruct (Hn1 r H) as [H'|H']; [by left|right; lia].
  - intros r Hr. setoid_rewrite elem_of_app.
    destruct (Ha2 r Hr) as [H|H]; [|tauto]. destruct (Ha1 r H); tauto.
  - by eapply heap_ext_trans.
Qed.

Lemma frame_mono (ds ds' : list nat) (s s' : state) :
  ds ⊆ ds' → frame ds s s' → frame ds' s s'.
Proof.
  intros Hsub (Hc & Hp & Hn & Ha & Hh). split_and!; [done..| |by eapply heap_ext_mono].
  intros r Hr. destruct (Ha r Hr); [tauto|]. right. by apply Hsub.
Qed.

Lemma frame_step (ds : list nat) (s1 s2 s3 : state) :
  frame ds s1 s2 → frame ds s2 s3 → frame ds s1 s3.
Proof.
  intros H1 H2. eapply frame_mono; [|by eapply frame_trans].
  intros r. rewrite elem_of_app. tauto.
Qed.

Lemma frame_push_suppressed (ds : list nat) (d : nat) (name reason : string) (s : state) :
  frame ds s (push_suppressed d name reason s).
Proof.
  split_and!; simpl; [done|by apply prefix_app_r| |auto|apply heap_ext_app].
  intros r [Hr| ->%list_elem_of_singleton]%elem_of_app; [by left|right].
  rewrite length_app. simpl. lia.
Qed.

Lemma frame_push_all (ds l : list nat) (name reason : string) (s : state) :
  frame ds s (push_all l name reason s).
Proof.
  revert s. induction l as [|d l IH]; intros s; [apply frame_refl|].
  simpl. eapply frame_step; [apply frame_push_suppressed|apply IH].
Qed.

Lemma frame_set_active (ds l : list nat) (s : state) :
  l ⊆ active_detections s → frame ds s (set_active_detections l s).
Proof.
  intros Hl. split_and!; simpl; [done|done|auto| |apply heap_ext_refl].
  intros r Hr. left. by apply Hl.
Qed.

Lemma frame_claim (X : string) (k : hkey) (d : nat) (s : state) :
  frame [d] s (claim X k d s).
Proof. split_and!; simpl; [done|done|auto|auto|apply heap_ext_mark]. Qed.

Lemma filter_subseteq (f : nat → bool) (l : list nat) : List.filter f l ⊆ l.
Proof. intros r Hr%list_elem_of_In%filter_In. apply list_elem_of_In. tauto. Qed.

(** One loop iteration stays within the frame of its detection. *)
Lemma step_frame (X : string) (active : list nat) (d : nat) (s s' : state)
    (out : outcome (list nat)) :
  step X active d s out s' → frame [d] s s'.
Proof.
  destruct 1.
  - apply frame_refl.
  - apply frame_refl.
  - apply frame_refl.
  - apply frame_push_suppressed.
  - apply frame_claim.
  - eapply frame_step; [|apply frame_claim].
    eapply frame_step; [apply frame_push_all|].
    apply frame_set_active. rewrite push_all_active. apply filter_subseteq.
Qed.

(** The local list of a loop iteration: unchanged or extended by the
    detection. *)
Lemma step_local (X : string) (active active' : list nat) (d : nat) (s s' : state) :
  step X active d s (Ok active') s' → active' = active ∨ active' = active ++ [d].
Proof. inversion 1; auto. Qed.

Lemma process_loop_frame (X : string) (ds active : list nat) (s s' : state)
    (out : outcome (list nat)) :
  process_loop X active ds s = (out, s') →
  frame ds s s' ∧
  ∀ active', out = Ok active' → ∃ l, active' = active ++ l ∧ l ⊆ ds.
Proof.
  revert active s. induction ds as [|d ds IH]; intros active s; simpl.
  - intros [= <- <-]. split; [apply frame_refl|].
    intros ? [= <-]. exists []. by rewrite app_nil_r.
  - unfold bind.
    destruct (process_one X active d s) as [[a1|e] s1] eqn:H1.
    + apply process_one_inv in H1. intros H2.
      destruct (IH _ _ H2) as [Hf Hl]. split.
      * apply (frame_trans [d] ds s s1 s'); [by eapply step_frame|done].
      * intros active' ->. destruct (Hl _ eq_refl) as (l & -> & Hsub).
        destruct (step_local _ _ _ _ _ _ H1) as [-> | ->].
        -- exists l. split; [done|]. by apply list_subseteq_cons.
        -- exists (d :: l). rewrite <- app_assoc. split; [done|].
           intros r [->|Hr]%elem_of_cons; [apply list_elem_of_here|].
           apply list_elem_of_further. by apply Hsub.
    + apply process_one_inv in H1. intros [= <- <-].
      split; [|done].
      eapply frame_mono; [|by eapply step_frame].
      intros r ->%list_elem_of_singleton. apply list_elem_of_here.
Qed.

Lemma process_detections_frame (X : string) (ds : list nat) (s s' : state)
    (out : outcome (list nat)) :
  process_detections X ds s = (out, s') → frame ds s s'.
Proof.
  unfold process_detections, bind, modify, ret.
  destruct (process_loop X [] ds s) as [[a|e] s1] eqn:H1.
  - destruct (process_loop_frame _ _ _ _ _ _ H1) as [Hf Hl].
    destruct (Hl _ eq_refl) as (l & -> & Hsub). simpl.
    intros [= <- <-]. destruct Hf as (Hc & Hp & Hn & Ha & Hh).
    split_and!; simpl; [done..| |done].
    intros r [Hr|Hr]%elem_of_app; [by apply Ha|]. right. by apply Hsub.
  - intros [= <- <-]. by apply (process_loop_frame _ _ _ _ _ _ H1).
Qed.

Lemma run_frame (calls : list (string * list nat)) (s : state) :
  frame (concat calls.*2) s (run calls s).
Proof.
  revert s. induction calls as [|[X ds] calls IH]; intros s; simpl.
  - apply frame_refl.
  - eapply frame_trans; [|apply IH].
    eapply process_detections_frame. apply surjective_pairing.
Qed.

(* ===================================================================== *)
(** ** Suppression is final *)
(* ===================================================================== *)

Lemma get_suppression_summary_reads (s : state) : (get_suppression_summary s).2 = s.
Proof.
  unfold get_suppression_summary, bind, get.
  destruct (trace_ids _ _) as [ks|e]; [|done].
  by destruct (breakdown _ _ _) as [counts|e].
Qed.

Lemma operate_frame (ops : list operation) (s : state) :
  frame (fed ops) s (operate ops s).
Proof.
  revert s. induction ops as [|op ops IH]; intros s; simpl.
  - apply frame_refl.
  - eapply (frame_trans _ (fed ops)); [|apply IH].
    destruct op as [X ds|]; simpl.
    + eapply process_detections_frame. apply surjective_pairing.
    + rewrite get_suppression_summary_reads. apply frame_refl.
Qed.

(** From any state: a suppressed record that is not active and that the
    caller does not feed back stays suppressed, inactive and unchanged. *)
Lemma suppressed_stays (ops : list operation) (s : state) (r : nat) :
  r ∈ suppressed_detections s →
  (r ∉ active_detections s) →
  (r ∉ fed ops) →
  suppressed_detections s `prefix_of` suppressed_detections (operate ops s) ∧
  r ∈ suppressed_detections (operate ops s) ∧
  (r ∉ active_detections (operate ops s)) ∧
  ∀ o, heap s !! r = Some o → heap (operate ops s) !! r = Some o.
Proof.
  intros Hs Ha Hin.
  destruct (operate_frame ops s) as (_ & Hp & _ & Hact & _ & Hh).
  split_and!; [done| | |].
  - destruct Hp as [l ->]. apply elem_of_app. by left.
  - intros Hr. destruct (Hact r Hr); done.
  - intros o Ho. destruct (Hh r o Ho) as (o' & Ho' & _ & He). by rewrite Ho', He.
Qed.

(** In a run over the records of the store [h], the active list holds
    records of [h] and the suppressed list holds records allocated later. *)
Lemma run_init_refs (h : list (gmap string pyval))
    (config : gmap string (gmap string pyval)) (incl : bool)
    (calls : list (string * list nat)) :
  Forall (λ d, d < length h)%nat (concat calls.*2) →
  let s := run calls (init h config incl) in
  (∀ r, r ∈ active_detections s → r < length h)%nat ∧
  (∀ r, r ∈ suppressed_detections s → length h ≤ r < length (heap s))%nat.
Proof.
  intros Hv s. rewrite Forall_forall in Hv.
  destruct (run_frame calls (init h config incl)) as (_ & _ & Hn & Hact & _).
  fold s in Hn, Hact. split.
  - intros r Hr. destruct (Hact r Hr) as [H|H]; [|by apply Hv].
    simpl in H. by apply elem_of_nil in H.
  - intros r Hr. destruct (Hn r Hr) as [H|H]; [|done].
    simpl in H. by apply elem_of_nil in H.
Qed.

Lemma operate_init_refs (h : list (gmap string pyval))
    (config : gmap string (gmap string pyval)) (incl : bool)
    (ops : list operation) :
  Forall (λ d, d < length h)%nat (fed ops) →
  let s := operate ops (init h config incl) in
  (∀ r, r ∈ active_detections s → r < length h)%nat ∧
  (∀ r, r ∈ suppressed_detections s → length h ≤ r < length (heap s))%nat.
Proof.
  intros Hv s. rewrite Forall_forall in Hv.
  destruct (operate_frame ops (init h config incl)) as (_ & _ & Hn & Hact & _).
  fold s in Hn, Hact. split.
  - intros r Hr. destruct (Hact r Hr) as [H|H]; [|by apply Hv].
    simpl in H. by apply elem_of_nil in H.
  - intros r Hr. destruct (Hn r Hr) as [H|H]; [|done].
    simpl in H. by apply elem_of_nil in H.
Qed.

Lemma fed_app (ops1 ops2 : list operation) : fed (ops1 ++ ops2) = fed ops1 ++ fed ops2.
Proof. unfold fed. by rewrite fmap_app, concat_app. Qed.

(** C4 (amended). Monotonicity of suppression.  The suppressed list is
    append-only: from any state, whatever operations follow and whatever
    they are given, every entry stays in the list, at its position.  An
    entry that the caller never passes to [process_detections] is, after
    any further operations ([process_detections] calls and summaries), not
    in the active list, and is the same record as before. *)
Theorem suppression_monotone (h : list (gmap string pyval))
    (config : gmap string (gmap string pyval)) (incl : bool)
    (before after : list operation) (r : nat) :
  (r ∉ fed (before ++ after)) →
  let s := operate before (init h config incl) in
  let s' := operate after s in
  r ∈ suppressed_detections s →
  suppressed_detections s `prefix_of` suppressed_detections s' ∧
  r ∈ suppressed_detections s' ∧
  (r ∉ active_detections s') ∧
  heap s' !! r = heap s !! r ∧
  (∀ ops s0 r0, r0 ∈ suppressed_detections s0 →
     suppressed_detections s0 `prefix_of` suppressed_detections (operate ops s0) ∧
     r0 ∈ suppressed_detections (operate ops s0)).
Proof.
  rewrite fed_app, not_elem_of_app. intros [Hb Ha] s s' Hr.
  destruct (operate_frame before (init h config incl)) as (_ & _ & Hn & Hact & _).
  fold s in Hn, Hact.
  destruct (suppressed_stays after s r) as (Hp & Hs & Hna & Hh); [done| |done|].
  - intros [Hin|Hin]%Hact; [|done]. simpl in Hin. by apply elem_of_nil in Hin.
  - split_and!; [done..| |].
    + destruct (lookup_lt_is_Some_2 (heap s) r) as [o Ho].
      { destruct (Hn r Hr) as [Hin|Hin]; [|lia]. simpl in Hin. by apply elem_of_nil in Hin. }
      rewrite Ho. exact (Hh o Ho).
    + intros ops s0 r0 Hr0.
      destruct (operate_frame ops s0) as (_ & Hp0 & _). split; [done|].
      destruct Hp0 as [l ->]. apply elem_of_app. by left.
Qed.

Lemma suppression_monotone_witness :
  let s := operate [Process "RetryLoopDetector" [0%nat];
                    Process "FallbackStormDetector" [1%nat]]
             (init sample_heap ∅ false) in
  let s' := operate [Summary; Process "FallbackFailureDetector" [2%nat];
                     Process "RetryLoopDetector" [0%nat];
                     Process "FallbackStormDetector" [1%nat]; Summary] s in
  suppressed_detections s = [4%nat] ∧
  suppressed_detections s' = [4%nat; 5%nat; 6%nat] ∧
  suppressed_detections s `prefix_of` suppressed_detections s' ∧
  4%nat ∈ suppressed_detections s' ∧
  (4%nat ∉ active_detections s') ∧
  heap s' !! 4%nat = heap s !! 4%nat ∧
  (∀ ops s0 r0, r0 ∈ suppressed_detections s0 →
     suppressed_detections s0 `prefix_of` suppressed_detections (operate ops s0) ∧
     r0 ∈ suppressed_detections (operate ops s0)).
Proof.
  split; [vm_compute; reflexivity|]. split; [vm_compute; reflexivity|].
  apply (suppression_monotone sample_heap ∅ false
           [Process "RetryLoopDetector" [0%nat];
            Process "FallbackStormDetector" [1%nat]]
           [Summary; Process "FallbackFailureDetector" [2%nat];
            Process "RetryLoopDetector" [0%nat];
            Process "FallbackStormDetector" [1%nat]; Summary] 4%nat).
  - vm_compute. intros H.
    repeat (apply elem_of_cons in H as [H|H]; [discriminate|]).
    by apply elem_of_nil in H.
  - vm_compute. apply list_elem_of_here.
Defined.

(** C4 as stated fails when the caller passes a suppressed entry to
    [process_detections].  [RetryLoopDetector] owns trace [t1] and the
    [FallbackStormDetector] detection for it was suppressed: its copy,
    record 4, is the suppressed list.  Passed to [process_detections] for
    [RetryLoopDetector], record 4 meets an owner of equal rank, so it is
    marked [suppressed_by = None] and appended to the active list, while it
    is still in the suppressed list.  The detection it was copied from,
    record 1, passed again in the same way, is active as well. *)
Lemma suppression_monotone_counterexample :
  let s := operate [Process "RetryLoopDetector" [0%nat];
                    Process "FallbackStormDetector" [1%nat]]
             (init sample_heap ∅ false) in
  let s' := operate [Process "RetryLoopDetector" [4%nat]] s in
  let s'' := operate [Process "RetryLoopDetector" [1%nat]] s in
  suppressed_detections s = [4%nat] ∧
  active_detections s = [0%nat] ∧
  dict_get (deref (heap s) 4) "suppressed_by" = PStr "FallbackStormDetector" ∧
  dict_get (deref (heap s) 4) "suppression_reason"
    = PStr "higher_priority_detector:RetryLoopDetector" ∧
  (process_detections "RetryLoopDetector" [4%nat] s).1 = Ok [4%nat] ∧
  suppressed_detections s' = [4%nat] ∧
  active_detections s' = [0%nat; 4%nat] ∧
  dict_get (deref (heap s') 4) "suppressed_by" = PNone ∧
  active_detections s'' = [0%nat; 1%nat].
Proof. vm_compute. by split_and!. Qed.

(* ===================================================================== *)
(** ** Detections without a usable trace id are kept *)
(* ===================================================================== *)

Lemma hash_falsy_key (v : pyval) (k : hkey) :
  py_hash v = Some k → falsy_key k = negb (truthy v).
Proof.
  destruct v as [|b|z|x|l]; simpl; intros [= <-]; simpl; try done.
  - by destruct b.
  - by rewrite negb_involutive.
  - by rewrite negb_involutive.
Qed.

Lemma frame_no_trace (ds : list nat) (s s' : state) (r : nat) :
  frame ds s s' → no_trace s r → no_trace s' r.
Proof.
  intros (_ & _ & _ & _ & _ & Hh) (o & Ho & Ht).
  destruct (Hh r o Ho) as (o' & Ho' & Hraw & _).
  exists o'. split; [done|]. unfold dict_get in *.
  by rewrite (same_raw_lookup o o' "trace_id" Hraw).
Qed.

Lemma no_trace_not_owned (s : state) (r : nat) (trace_id : pyval) (owner : string) :
  no_trace s r → truthy trace_id = true → owned_by (heap s) trace_id owner r = false.
Proof.
  intros (o & Ho & Hf) Ht. unfold owned_by. rewrite (deref_lookup _ _ _ Ho).
  destruct (py_eq _ _) eqn:Heq; [|done].
  apply py_eq_truthy in Heq. congruence.
Qed.

Lemma step_keeps_no_trace (X : string) (active : list nat) (d r : nat)
    (s s' : state) (out : outcome (list nat)) :
  step X active d s out s' → no_trace s r →
  r ∈ active_detections s → r ∈ active_detections s'.
Proof.
  intros Hstep Hr Hin. destruct Hstep; simpl; try done.
  apply list_elem_of_In, filter_In. split; [by apply list_elem_of_In|].
  by rewrite (no_trace_not_owned s r _ owner Hr).
Qed.

Lemma process_loop_no_trace (X : string) (ds active : list nat) (s s' : state)
    (out : outcome (list nat)) (r : nat) :
  process_loop X active ds s = (out, s') → no_trace s r →
  (r ∈ active_detections s → r ∈ active_detections s') ∧
  ∀ active', out = Ok active' → r ∈ active ∨ r ∈ ds → r ∈ active'.
Proof.
  revert active s. induction ds as [|d ds IH]; intros active s; simpl.
  - intros [= <- <-] _. split; [done|]. intros ? [= <-] [H|H]; [done|].
    by apply elem_of_nil in H.
  - unfold bind. destruct (process_one X active d s) as [[a1|e] s1] eqn:H1.
    + intros H2 Hr. pose proof (process_one_inv _ _ _ _ _ _ H1) as Hstep.
      pose proof (frame_no_trace _ _ _ r (step_frame _ _ _ _ _ _ Hstep) Hr) as Hr1.
      destruct (IH _ _ H2 Hr1) as [Hact Hloc]. split.
      * intros Hin. by apply Hact, (step_keeps_no_trace _ _ _ _ _ _ _ Hstep Hr).
      * intros active' -> Hin. apply (Hloc _ eq_refl).
        destruct Hin as [Hin|[->|Hin]%elem_of_cons]; [|left|by right].
        -- left. destruct (step_local _ _ _ _ _ _ Hstep) as [-> | ->]; [done|].
           apply elem_of_app. by left.
        -- destruct Hr as (o & Ho & Hf).
           rewrite falsy_trace_id_step in H1 by (by rewrite (deref_lookup _ _ _ Ho)).
           injection H1 as <- <-. apply elem_of_app. right. apply list_elem_of_here.
    + intros [= <- <-] Hr. split; [|done].
      intros Hin. eapply step_keeps_no_trace; [|done..]. by eapply process_one_inv.
Qed.

Lemma process_detections_no_trace (X : string) (ds : list nat) (s s' : state)
    (out : outcome (list nat)) (r : nat) :
  process_detections X ds s = (out, s') → no_trace s r →
  (r ∈ active_detections s → r ∈ active_detections s') ∧
  ∀ active, out = Ok active → r ∈ ds → r ∈ active ∧ r ∈ active_detections s'.
Proof.
  unfold process_detections, bind, modify, ret.
  destruct (process_loop X [] ds s) as [[a|e] s1] eqn:H1; intros [= <- <-] Hr;
    destruct (process_loop_no_trace _ _ _ _ _ _ r H1 Hr) as [Hact Hloc]; simpl.
  - split.
    + intros Hin. apply elem_of_app. left. by apply Hact.
    + intros ? [= <-] Hin. assert (r ∈ a) by (apply (Hloc _ eq_refl); by right).
      split; [done|]. apply elem_of_app. by right.
  - by split.
Qed.

Lemma run_no_trace (calls : list (string * list nat)) (s : state) (r : nat) :
  no_trace s r → r ∈ active_detections s → r ∈ active_detections (run calls s).
Proof.
  revert s. induction calls as [|[X ds] calls IH]; intros s Hr Hin; [done|].
  simpl. destruct (process_detections X ds s) as [out s1] eqn:H1. simpl.
  apply IH.
  - eapply frame_no_trace; [|done]. by eapply process_detections_frame.
  - destruct (process_detections_no_trace _ _ _ _ _ r H1 Hr) as [Hact _]. auto.
Qed.

(** The ownership table never holds the key of a falsy trace id. *)
Lemma step_keys (X : string) (active : list nat) (d : nat) (s s' : state)
    (out : outcome (list nat)) (k : hkey) :
  step X active d s out s' → falsy_key k = true →
  trace_ownership s !! k = None → trace_ownership s' !! k = None.
Proof.
  intros Hstep Hk Hnone.
  assert (∀ k' v, truthy v = true → py_hash v = Some k' → k ≠ k') as Hne.
  { intros k' v Ht Hh ->. rewrite (hash_falsy_key _ _ Hh), Ht in Hk. done. }
  destruct Hstep as [| | | |k' Ht Hh|k' owner tid Ht Hh]; simpl; try done.
  - rewrite lookup_insert_ne; [done|]. intros <-. by eapply Hne.
  - rewrite push_all_ownership, lookup_insert_ne; [done|]. intros <-. by eapply Hne.
Qed.

Lemma process_loop_keys (X : string) (ds active : list nat) (s s' : state)
    (out : outcome (list nat)) (k : hkey) :
  process_loop X active ds s = (out, s') → falsy_key k = true →
  trace_ownership s !! k = None → trace_ownership s' !! k = None.
Proof.
  revert active s. induction ds as [|d ds IH]; intros active s; simpl.
  - by intros [= <- <-].
  - unfold bind. destruct (process_one X active d s) as [[a1|e] s1] eqn:H1.
    + intros H2 Hk Hn. eapply IH; [done..|].
      eapply step_keys; [by eapply process_one_inv|done..].
    + intros [= <- <-] Hk Hn. eapply step_keys; [by eapply process_one_inv|done..].
Qed.

Lemma run_keys (calls : list (string * list nat)) (s : state) (k : hkey) :
  falsy_key k = true →
  trace_ownership s !! k = None → trace_ownership (run calls s) !! k = None.
Proof.
  revert s. induction calls as [|[X ds] calls IH]; intros s Hk Hn; [done|].
  simpl. apply IH; [done|].
  unfold process_detections, bind, modify, ret.
  destruct (process_loop X [] ds s) as [[a|e] s1] eqn:H1; simpl;
    by eapply process_loop_keys.
Qed.

Lemma falsy_trace_id_kept (s : state) (d : nat) (o : gmap string pyval) :
  heap s !! d = Some o →
  truthy (dict_get o "trace_id") = false →
  (∀ X active, process_one X active d s = (Ok (active ++ [d]), s)) ∧
  (∀ X ds active s',
     d ∈ ds → process_detections X ds s = (Ok active, s') →
     d ∈ active ∧ d ∈ active_detections s') ∧
  (∀ calls, d ∈ active_detections s → d ∈ active_detections (run calls s)).
Proof.
  intros Ho Hf. assert (no_trace s d) as Hd by (by exists o). split_and!.
  - intros X active. apply falsy_trace_id_step. by rewrite (deref_lookup _ _ _ Ho).
  - intros X ds active s' Hin Hp.
    by apply (process_detections_no_trace _ _ _ _ _ d Hp Hd).
  - intros calls. by apply run_no_trace.
Qed.

(* ===================================================================== *)
(** ** When [process_detections] returns *)
(* ===================================================================== *)

Lemma record_ok_empty : record_ok ∅.
Proof. split; [done|]. unfold dict_get. by rewrite lookup_empty. Qed.

Lemma record_ok_deref (h : list (gmap string pyval)) (r : nat) :
  Forall record_ok h → record_ok (deref h r).
Proof.
  intros Hh. unfold deref. destruct (h !! r) as [o|] eqn:Hr; simpl.
  - by eapply Forall_lookup_1.
  - apply record_ok_empty.
Qed.

Lemma record_ok_insert (o : gmap string pyval) (key : string) (v : pyval) :
  key ≠ "type" → key ≠ "trace_id" → record_ok o → record_ok (<[key := v]> o).
Proof.
  intros H1 H2 [Ht Hk]. unfold record_ok, typed, dict_get in *.
  by rewrite !lookup_insert_ne.
Qed.

Lemma record_ok_copy (o : gmap string pyval) (name reason : string) :
  record_ok o → record_ok (suppressed_copy o name reason).
Proof. intros H. unfold suppressed_copy. by repeat apply record_ok_insert. Qed.

Lemma push_suppressed_ok (d : nat) (name reason : string) (s : state) :
  Forall record_ok (heap s) → Forall record_ok (heap (push_suppressed d name reason s)).
Proof.
  intros H. simpl. apply Forall_app. split; [done|].
  apply Forall_singleton. by apply record_ok_copy, record_ok_deref.
Qed.

Lemma push_all_ok (l : list nat) (name reason : string) (s : state) :
  Forall record_ok (heap s) → Forall record_ok (heap (push_all l name reason s)).
Proof.
  revert s. induction l as [|d l IH]; intros s H; [done|].
  simpl. by apply IH, push_suppressed_ok.
Qed.

Lemma claim_ok (X : string) (k : hkey) (d : nat) (s : state) :
  Forall record_ok (heap s) → Forall record_ok (heap (claim X k d s)).
Proof.
  intros H. simpl. apply Forall_insert; [done|].
  by apply record_ok_insert, record_ok_deref.
Qed.

(** On a store of usable records a loop iteration returns. *)
Lemma step_ok (X : string) (active : list nat) (d : nat) (s s' : state)
    (out : outcome (list nat)) :
  step X active d s out s' → Forall record_ok (heap s) →
  (∃ active', out = Ok active') ∧ Forall record_ok (heap s').
Proof.
  intros Hstep Hok.
  destruct Hstep as [Ht|Ht Hh|k owner e Ht Hh Ho Hlt Hsplit| | |].
  - eauto.
  - destruct (record_ok_deref _ d Hok) as [_ Hk].
    destruct (Hk Ht) as [k Hk']. congruence.
  - rewrite split_active_typed in Hsplit; [done|].
    apply Forall_forall. intros r _. by apply record_ok_deref.
  - split; [eauto|]. by apply push_suppressed_ok.
  - split; [eauto|]. by apply claim_ok.
  - split; [eauto|]. by apply claim_ok, push_all_ok.
Qed.

Lemma process_loop_ok (X : string) (ds active : list nat) (s : state) :
  Forall record_ok (heap s) →
  ∃ active' s', process_loop X active ds s = (Ok active', s') ∧
                Forall record_ok (heap s').
Proof.
  revert active s. induction ds as [|d ds IH]; intros active s Hok; simpl.
  - by exists active, s.
  - unfold bind. destruct (process_one X active d s) as [out s1] eqn:H1.
    apply process_one_inv in H1.
    destruct (step_ok _ _ _ _ _ _ H1 Hok) as [[a1 ->] Hok1].
    by apply IH.
Qed.

Lemma sum_field_missing (h : list (gmap string pyval)) (key : string) (acc : Z)
    (d : nat) (l : list nat) :
  deref h d !! key = None →
  sum_field_from h key acc (d :: l) = sum_field_from h key acc l.
Proof.
  intros Hn. simpl. unfold dict_get_or. rewrite Hn. simpl. by rewrite Z.add_0_r.
Qed.

Lemma record_okb_ok (o : gmap string pyval) : record_okb o = true → record_ok o.
Proof.
  unfold record_okb, record_ok, typed. intros [H1 H2]%andb_prop. split.
  - by destruct (o !! "type") as [[]|].
  - intros Ht. rewrite Ht in H2. simpl in H2. by apply bool_decide_eq_true_1 in H2.
Qed.

Lemma records_okb_ok (h : list (gmap string pyval)) (l : list nat) :
  forallb (λ r, record_okb (deref h r)) l = true →
  Forall (λ r, record_ok (deref h r)) l.
Proof.
  intros H. apply Forall_forall. intros r Hr. apply record_okb_ok.
  rewrite forallb_forall in H. apply H. by apply list_elem_of_In.
Qed.

(** Whatever else the store holds, a record that is usable stays usable
    when the engine stores a copy of a usable record ... *)
Lemma ok_push_suppressed (d r : nat) (name reason : string) (s : state) :
  record_ok (deref (heap s) d) → record_ok (deref (heap s) r) →
  record_ok (deref (heap (push_suppressed d name reason s)) r).
Proof.
  intros Hd Hr. simpl.
  destruct (decide (r < length (heap s))%nat) as [Hlt|Hge].
  - by rewrite deref_app_l.
  - unfold deref. destruct (decide (r = length (heap s))) as [->|Hne].
    + rewrite lookup_app_r, Nat.sub_diag by lia. simpl. by apply record_ok_copy.
    + rewrite lookup_ge_None_2; [apply record_ok_empty|].
      rewrite length_app. simpl. lia.
Qed.

Lemma ok_push_all (l : list nat) (name reason : string) (s : state) (r : nat) :
  Forall (λ d, record_ok (deref (heap s) d)) l → record_ok (deref (heap s) r) →
  record_ok (deref (heap (push_all l name reason s)) r).
Proof.
  revert s. induction l as [|d l IH]; intros s Hl Hr; [done|].
  apply Forall_cons in Hl as [Hd Hl]. simpl. apply IH.
  - eapply Forall_impl; [exact Hl|]. simpl. intros d' Hd'. by apply ok_push_suppressed.
  - by apply ok_push_suppressed.
Qed.

(** ... and when it marks a record as not suppressed. *)
Lemma ok_claim (X : string) (k : hkey) (d r : nat) (s : state) :
  record_ok (deref (heap s) r) → record_ok (deref (heap (claim X k d s)) r).
Proof.
  intros Hr. simpl. unfold deref at 1.
  destruct (decide (r = d)) as [->|Hne].
  - destruct (decide (d < length (heap s))%nat) as [Hlt|Hge].
    + rewrite list_lookup_insert_eq by done. simpl. by apply record_ok_insert.
    + rewrite list_insert_ge by lia. exact Hr.
  - rewrite list_lookup_insert_ne by done. exact Hr.
Qed.

(** A loop iteration returns when the incoming record and the active
    records are usable; the rest of the store is not read. *)
Lemma step_usable (X : string) (active : list nat) (d : nat) (s s' : state)
    (out : outcome (list nat)) :
  step X active d s out s' →
  record_ok (deref (heap s) d) →
  Forall (λ r, record_ok (deref (heap s) r)) (active_detections s) →
  (∃ active', out = Ok active') ∧
  (∀ r, record_ok (deref (heap s) r) → record_ok (deref (heap s') r)) ∧
  active_detections s' ⊆ active_detections s.
Proof.
  intros Hstep Hd Hact.
  destruct Hstep as [Ht|Ht Hh|k owner e Ht Hh Ho Hlt Hsplit| | |].
  - by eauto.
  - destruct Hd as [_ Hk]. destruct (Hk Ht) as [k Hk']. congruence.
  - rewrite split_active_typed in Hsplit; [done|].
    eapply Forall_impl; [exact Hact|]. simpl. by intros r [? _].
  - split_and!; [by eauto| |done]. intros r. by apply ok_push_suppressed.
  - split_and!; [by eauto| |done]. intros r. by apply ok_claim.
  - split_and!; [by eauto| |].
    + intros r Hr. apply ok_claim.
      change (record_ok (deref (heap (push_all
                (List.filter (owned_by (heap s) trace_id owner) (active_detections s))
                owner ("superseded_by:" +:+ X) s)) r)).
      apply ok_push_all; [|done].
      apply Forall_forall. intros r' Hr'. rewrite Forall_forall in Hact.
      apply Hact. by apply (filter_subseteq _ _ _ Hr').
    + simpl. apply filter_subseteq.
Qed.

Lemma process_loop_usable (X : string) (ds active : list nat) (s : state) :
  Forall (λ r, record_ok (deref (heap s) r)) ds →
  Forall (λ r, record_ok (deref (heap s) r)) (active_detections s) →
  ∃ active' s', process_loop X active ds s = (Ok active', s') ∧
                (∀ r, record_ok (deref (heap s) r) → record_ok (deref (heap s') r)) ∧
                active_detections s' ⊆ active_detections s.
Proof.
  revert active s. induction ds as [|d ds IH]; intros active s Hds Hact; simpl.
  - by exists active, s.
  - apply Forall_cons in Hds as [Hd Hds]. unfold bind.
    destruct (process_one X active d s) as [out s1] eqn:H1.
    apply process_one_inv in H1.
    destruct (step_usable _ _ _ _ _ _ H1 Hd Hact) as ([a1 ->] & Hok1 & Hsub1).
    destruct (IH a1 s1) as (a2 & s2 & H2 & Hok2 & Hsub2).
    + eapply Forall_impl; [exact Hds|]. simpl. auto.
    + apply Forall_forall. intros r Hr. rewrite Forall_forall in Hact. auto.
    + exists a2, s2. split_and!; [done|auto|]. by etrans.
Qed.

(** [process_detections] returns when the records passed in and the active
    records are usable, and then the active records are usable again. *)
Lemma process_detections_returns (X : string) (ds : list nat) (s : state) :
  Forall (λ r, record_ok (deref (heap s) r)) (ds ++ active_detections s) →
  ∃ active s', process_detections X ds s = (Ok active, s') ∧
               Forall (λ r, record_ok (deref (heap s') r)) (active_detections s').
Proof.
  intros [Hds Hact]%Forall_app.
  destruct (process_loop_usable X ds [] s Hds Hact) as (a & s1 & H1 & Hok & Hsub).
  destruct (process_loop_frame _ _ _ _ _ _ H1) as [_ Hl].
  destruct (Hl _ eq_refl) as (l & -> & Hlsub).
  unfold process_detections, bind, modify, ret. rewrite H1. simpl.
  eexists _, _. split; [done|]. simpl.
  rewrite Forall_forall in Hds, Hact.
  apply Forall_app. split; apply Forall_forall; intros r Hr; apply Hok; auto.
Qed.

(** Over a list of the caller's the loop that Python runs is the loop over
    the elements of the list. *)
Lemma process_loop_live_given (X : string) (ds : list nat) (fuel i : nat)
    (active : list nat) (s : state) :
  (length ds - i < fuel)%nat →
  process_loop_live fuel X (Given ds) i active s
  = Some (process_loop X active (drop i ds) s).
Proof.
  revert i active s. induction fuel as [|fuel IH]; intros i active s Hf; [lia|].
  simpl. destruct (ds !! i) as [d|] eqn:Hi.
  - rewrite (drop_S _ _ _ Hi). simpl. unfold bind.
    destruct (process_one X active d s) as [[a|e] s1]; [|done].
    apply IH. apply lookup_lt_Some in Hi. lia.
  - apply lookup_ge_None in Hi. by rewrite drop_ge.
Qed.

Lemma process_detections_live_given (X : string) (ds : list nat) (fuel : nat)
    (s : state) :
  (length ds < fuel)%nat →
  process_detections_live fuel X (Given ds) s = Some (process_detections X ds s).
Proof.
  intros Hf. unfold process_detections_live.
  rewrite process_loop_live_given by lia. rewrite drop_0.
  unfold process_detections, bind, modify, ret.
  by destruct (process_loop X [] ds s) as [[a|e] s1].
Qed.

(** A detection for a trace whose owner has a numerically smaller rank is
    suppressed, by the rules or by the ranks. *)
Lemma outranked_suppressed (X : string) (d : nat) (s : state) (k : hkey)
    (owner : string) :
  truthy (dict_get (deref (heap s) d) "trace_id") = true →
  py_hash (dict_get (deref (heap s) d) "trace_id") = Some k →
  trace_ownership s !! k = Some owner →
  priority owner < priority X →
  ∃ reason, ∀ active,
    process_one X active d s = (Ok active, push_suppressed d X reason s).
Proof.
  intros Ht Hk Ho Hlt.
  destruct (config_flag X s &&
            bool_decide (trace_ownership s !! k = Some "RetryLoopDetector")) eqn:Hc.
  - exists "disabled_by_config". intros active.
    rewrite process_one_eq. cbv zeta. rewrite Ht, Hk. simpl negb. cbv iota.
    by rewrite Hc.
  - exists ("higher_priority_detector:" +:+ owner). intros active.
    rewrite process_one_eq. cbv zeta. rewrite Ht, Hk. simpl negb. cbv iota.
    rewrite Hc, Ho.
    assert ((priority X >? priority owner) = true) as ->; [|done].
    apply Z.gtb_lt. lia.
Qed.

(** Over the engine's own suppressed list the loop does not end when every
    entry from the index on is a detection for a trace whose owner outranks
    the detector: each round appends a copy, which the loop meets later. *)
Lemma process_loop_live_own (X : string) (tid : pyval) (k : hkey) (owner : string)
    (fuel i : nat) (active : list nat) (s : state) :
  truthy tid = true → py_hash tid = Some k → priority owner < priority X →
  trace_ownership s !! k = Some owner →
  (i < length (suppressed_detections s))%nat →
  (∀ j r, (i ≤ j)%nat → suppressed_detections s !! j = Some r →
          dict_get (deref (heap s) r) "trace_id" = tid) →
  process_loop_live fuel X OwnSuppressed i active s = None.
Proof.
  intros Ht Hk Hlt. revert i active s.
  induction fuel as [|fuel IH]; intros i active s Ho Hi Hall; [done|].
  simpl. destruct (lookup_lt_is_Some_2 _ _ Hi) as [d Hd]. rewrite Hd.
  pose proof (Hall i d (le_n _) Hd) as Htid.
  destruct (outranked_suppressed X d s k owner) as [reason Hstep];
    [by rewrite Htid..|done|done|].
  rewrite Hstep. apply IH.
  - done.
  - simpl. rewrite length_app. simpl. lia.
  - intros j r Hj. simpl.
    intros [Hr|[Hlen Hr]]%lookup_app_Some.
    + pose proof (Hall j r ltac:(lia) Hr) as Hr'.
      rewrite deref_app_l; [done|].
      apply truthy_trace_id_valid. by rewrite Hr'.
    + apply list_lookup_singleton_Some in Hr as [_ <-].
      unfold deref. rewrite lookup_app_r, Nat.sub_diag by lia. simpl.
      unfold dict_get. by rewrite suppressed_copy_other.
Qed.

(** C8 (amended). Engine totality: when the records passed in and the
    records already active have a [type] that is absent or a string and a
    trace id that is absent, falsy or hashable, [process_detections]
    returns for every detector name, whatever the other fields of these
    records and whatever the other records of the store hold; the loop that
    Python runs over the caller's list gives the same result; and the active
    records are such records again afterwards.  The cost and token fields
    are not read by the engine; in the sums of the report a record without
    the field counts as 0. *)
Theorem process_detections_total (s : state) (X : string) (ds : list nat) :
  Forall (λ r, record_ok (deref (heap s) r)) (ds ++ active_detections s) →
  (∃ active s',
     process_detections X ds s = (Ok active, s') ∧
     (∀ fuel, (length ds < fuel)%nat →
              process_detections_live fuel X (Given ds) s = Some (Ok active, s')) ∧
     Forall (λ r, record_ok (deref (heap s') r)) (active_detections s')) ∧
  (∀ key acc d l,
     deref (heap s) d !! key = None →
     sum_field_from (heap s) key acc (d :: l) = sum_field_from (heap s) key acc l).
Proof.
  intros Hok. split; [|intros; by apply sum_field_missing].
  destruct (process_detections_returns X ds s Hok) as (a & s' & Hp & Hok').
  exists a, s'. split_and!; [done| |done].
  intros fuel Hf. by rewrite process_detections_live_given, Hp.
Qed.

Lemma process_detections_total_witness :
  let h := costly_heap ++ [ <["type" := PInt 5]> {[ "trace_id" := PList [PInt 1] ]} ] in
  let s := run [("FallbackStormDetector", [1%nat])] (init h ∅ false) in
  (∃ active s',
     process_detections "RetryLoopDetector" [0%nat] s = (Ok active, s') ∧
     (∀ fuel, (length [0%nat] < fuel)%nat →
              process_detections_live fuel "RetryLoopDetector" (Given [0%nat]) s
              = Some (Ok active, s')) ∧
     Forall (λ r, record_ok (deref (heap s') r)) (active_detections s')) ∧
  (∀ key acc d l,
     deref (heap s) d !! key = None →
     sum_field_from (heap s) key acc (d :: l) = sum_field_from (heap s) key acc l).
Proof.
  apply (process_detections_total _ "RetryLoopDetector" [0%nat]).
  apply records_okb_ok. vm_compute. reflexivity.
Defined.

(** C8 as stated fails on garbage values: a [type] that is an integer makes
    the loop of [_transfer_ownership] raise [AttributeError], and a
    [trace_id] that is a list makes the dictionary lookup raise
    [TypeError].  And it fails for the list that is the engine's own
    [suppressed_detections]: with trace [t1] owned by [RetryLoopDetector]
    and one suppressed [FallbackStormDetector] detection for it, the call
    for [FallbackStormDetector] over that list suppresses each entry it
    meets and so appends another one: the loop is not through after any
    number of rounds. *)
Lemma process_detections_total_counterexample :
  (process_detections "RetryLoopDetector" [1%nat]
     (run [("OverkillModelDetector", [0%nat])] (init garbage_heap ∅ false))).1
  = Raise AttributeError ∧
  (process_detections "RetryLoopDetector" [2%nat] (init garbage_heap ∅ false)).1
  = Raise TypeError ∧
  let s := run [("RetryLoopDetector", [0%nat]); ("FallbackStormDetector", [1%nat])]
             (init sample_heap ∅ false) in
  suppressed_detections s = [4%nat] ∧
  Forall (λ r, record_ok (deref (heap s) r))
    (suppressed_detections s ++ active_detections s) ∧
  ∀ fuel, process_detections_live fuel "FallbackStormDetector" OwnSuppressed s = None.
Proof.
  split; [vm_compute; reflexivity|]. split; [vm_compute; reflexivity|].
  split; [vm_compute; reflexivity|]. split.
  - apply records_okb_ok. vm_compute. reflexivity.
  - intros fuel. unfold process_detections_live.
    rewrite (process_loop_live_own "FallbackStormDetector" (PStr "t1") (KStr "t1")
               "RetryLoopDetector"); try done.
    + vm_compute. lia.
    + intros j r _ Hr. vm_compute in Hr. destruct j as [|j]; [|done].
      injection Hr as <-. vm_compute. reflexivity.
Qed.

(* ===================================================================== *)
(** ** Calls with detections without a usable trace id *)
(* ===================================================================== *)

Lemma process_loop_falsy (X : string) (ds active : list nat) (s : state) :
  Forall (λ r, truthy (dict_get (deref (heap s) r) "trace_id") = false) ds →
  process_loop X active ds s = (Ok (active ++ ds), s).
Proof.
  revert active. induction ds as [|d ds IH]; intros active Hds; simpl.
  - by rewrite app_nil_r.
  - apply Forall_cons in Hds as [Hd Hds]. unfold bind.
    rewrite falsy_trace_id_step by done. rewrite IH by done.
    by rewrite <- app_assoc.
Qed.

(** A batch of detections without a usable trace id is returned as it is
    and appended to the active list, in every state. *)
Lemma process_detections_falsy (X : string) (ds : list nat) (s : state) :
  Forall (λ r, truthy (dict_get (deref (heap s) r) "trace_id") = false) ds →
  process_detections X ds s
  = (Ok ds, set_active_detections (active_detections s ++ ds) s).
Proof.
  intros Hds. unfold process_detections, bind, modify, ret.
  by rewrite process_loop_falsy.
Qed.

Lemma falsy_trace_id_returned (s : state) (d : nat) (o : gmap string pyval) :
  heap s !! d = Some o →
  truthy (dict_get o "trace_id") = false →
  (∀ X ds,
     d ∈ ds →
     Forall (λ r, truthy (dict_get (deref (heap s) r) "trace_id") = false) ds →
     process_detections X ds s
     = (Ok ds, set_active_detections (active_detections s ++ ds) s)) ∧
  (∀ X ds,
     d ∈ ds →
     Forall (λ r, record_ok (deref (heap s) r)) (ds ++ active_detections s) →
     ∃ active s', process_detections X ds s = (Ok active, s') ∧
                  d ∈ active ∧ d ∈ active_detections s').
Proof.
  intros Ho Hf. split.
  - intros X ds _. apply process_detections_falsy.
  - intros X ds Hin Hok.
    destruct (process_detections_returns X ds s Hok) as (a & s' & Hp & _).
    exists a, s'. split; [done|].
    destruct (falsy_trace_id_kept s d o Ho Hf) as (_ & H2 & _).
    by apply (H2 X ds).
Qed.

(** C7 (amended). No-trace-id auto-accept: a detection whose record has no
    [trace_id] is accepted by the loop iteration for every detector, every
    set of rules and every ownership table, and the engine state is left as
    it was (nothing is suppressed, the ownership table is not touched).  A
    call whose batch holds only detections without a usable trace id
    returns the batch and appends it to the active list; a call whose
    records, and the active ones, are records the engine can handle
    returns, with the detection in the returned list and in the active
    list; and so does every call that returns.  No later call removes the
    detection from the active list, and the key of a missing trace id,
    [None], is never in the ownership table of a run. *)
Theorem no_trace_id_accepted (s : state) (d : nat) (o : gmap string pyval) :
  heap s !! d = Some o →
  o !! "trace_id" = None →
  (∀ X active, process_one X active d s = (Ok (active ++ [d]), s)) ∧
  (∀ X ds,
     d ∈ ds →
     Forall (λ r, truthy (dict_get (deref (heap s) r) "trace_id") = false) ds →
     process_detections X ds s
     = (Ok ds, set_active_detections (active_detections s ++ ds) s)) ∧
  (∀ X ds,
     d ∈ ds →
     Forall (λ r, record_ok (deref (heap s) r)) (ds ++ active_detections s) →
     ∃ active s', process_detections X ds s = (Ok active, s') ∧
                  d ∈ active ∧ d ∈ active_detections s') ∧
  (∀ X ds active s',
     d ∈ ds → process_detections X ds s = (Ok active, s') →
     d ∈ active ∧ d ∈ active_detections s') ∧
  (∀ calls, d ∈ active_detections s → d ∈ active_detections (run calls s)) ∧
  (∀ h config incl calls,
     trace_ownership (run calls (init h config incl)) !! KNone = None).
Proof.
  intros Ho Hn.
  assert (truthy (dict_get o "trace_id") = false) as Hf.
  { unfold dict_get. by rewrite Hn. }
  destruct (falsy_trace_id_kept s d o Ho Hf) as (H1 & H2 & H3).
  destruct (falsy_trace_id_returned s d o Ho Hf) as (H4 & H5).
  split_and!; [done..|]. intros h config incl calls. by apply run_keys.
Qed.

Lemma no_trace_id_accepted_witness :
  let s := run [("RetryLoopDetector", [2%nat])] (init anonymous_heap sample_rules false) in
  (∀ X active, process_one X active 0 s = (Ok (active ++ [0%nat]), s)) ∧
  (∀ X ds,
     0%nat ∈ ds →
     Forall (λ r, truthy (dict_get (deref (heap s) r) "trace_id") = false) ds →
     process_detections X ds s
     = (Ok ds, set_active_detections (active_detections s ++ ds) s)) ∧
  (∀ X ds,
     0%nat ∈ ds →
     Forall (λ r, record_ok (deref (heap s) r)) (ds ++ active_detections s) →
     ∃ active s', process_detections X ds s = (Ok active, s') ∧
                  0%nat ∈ active ∧ 0%nat ∈ active_detections s') ∧
  (∀ X ds active s',
     0%nat ∈ ds → process_detections X ds s = (Ok active, s') →
     0%nat ∈ active ∧ 0%nat ∈ active_detections s') ∧
  (∀ calls, 0%nat ∈ active_detections s → 0%nat ∈ active_detections (run calls s)) ∧
  (∀ h config incl calls,
     trace_ownership (run calls (init h config incl)) !! KNone = None).
Proof.
  apply (no_trace_id_accepted _ 0%nat {[ "type" := PStr "fallback_storm" ]});
    vm_compute; reflexivity.
Defined.

(** C7 as stated fails for a call that raises: the batch holds record 0,
    which has no [trace_id], and record 1, whose [trace_id] is a list.  The
    loop accepts record 0 into its local list; at record 1 the lookup in the
    ownership table raises [TypeError], the call ends before the local list
    is appended to the active list, and record 0 is neither returned nor
    active. *)
Lemma no_trace_id_accepted_counterexample :
  let s := init unhashable_heap ∅ false in
  deref (heap s) 0 !! "trace_id" = None ∧
  process_one "RetryLoopDetector" [] 0 s = (Ok [0%nat], s) ∧
  process_detections "RetryLoopDetector" [0%nat; 1%nat] s = (Raise TypeError, s) ∧
  active_detections (process_detections "RetryLoopDetector" [0%nat; 1%nat] s).2 = [].
Proof. vm_compute. by split_and!. Qed.

(** C9 (amended). A detection whose [trace_id] is the empty string is
    treated like one without a trace id: the loop iteration accepts it for
    every detector, rules and ownership table and leaves the engine state as
    it was.  A call whose batch holds only detections without a usable
    trace id returns the batch and appends it to the active list; a call
    whose records, and the active ones, are records the engine can handle
    returns, with the detection in the returned list and in the active
    list; and so does every call that returns.  No later call removes the
    detection from the active list, and the empty string is never a key of
    the ownership table of a run. *)
Theorem empty_trace_id_accepted (s : state) (d : nat) (o : gmap string pyval) :
  heap s !! d = Some o →
  o !! "trace_id" = Some (PStr "") →
  (∀ X active, process_one X active d s = (Ok (active ++ [d]), s)) ∧
  (∀ X ds,
     d ∈ ds →
     Forall (λ r, truthy (dict_get (deref (heap s) r) "trace_id") = false) ds →
     process_detections X ds s
     = (Ok ds, set_active_detections (active_detections s ++ ds) s)) ∧
  (∀ X ds,
     d ∈ ds →
     Forall (λ r, record_ok (deref (heap s) r)) (ds ++ active_detections s) →
     ∃ active s', process_detections X ds s = (Ok active, s') ∧
                  d ∈ active ∧ d ∈ active_detections s') ∧
  (∀ X ds active s',
     d ∈ ds → process_detections X ds s = (Ok active, s') →
     d ∈ active ∧ d ∈ active_detections s') ∧
  (∀ calls, d ∈ active_detections s → d ∈ active_detections (run calls s)) ∧
  (∀ h config incl calls,
     trace_ownership (run calls (init h config incl)) !! KStr "" = None).
Proof.
  intros Ho Hn.
  assert (truthy (dict_get o "trace_id") = false) as Hf.
  { unfold dict_get. by rewrite Hn. }
  destruct (falsy_trace_id_kept s d o Ho Hf) as (H1 & H2 & H3).
  destruct (falsy_trace_id_returned s d o Ho Hf) as (H4 & H5).
  split_and!; [done..|]. intros h config incl calls. by apply run_keys.
Qed.

Lemma empty_trace_id_accepted_witness :
  let s := run [("RetryLoopDetector", [2%nat])] (init anonymous_heap sample_rules false) in
  (∀ X active, process_one X active 1 s = (Ok (active ++ [1%nat]), s)) ∧
  (∀ X ds,
     1%nat ∈ ds →
     Forall (λ r, truthy (dict_get (deref (heap s) r) "trace_id") = false) ds →
     process_detections X ds s
     = (Ok ds, set_active_detections (active_detections s ++ ds) s)) ∧
  (∀ X ds,
     1%nat ∈ ds →
     Forall (λ r, record_ok (deref (heap s) r)) (ds ++ active_detections s) →
     ∃ active s', process_detections X ds s = (Ok active, s') ∧
                  1%nat ∈ active ∧ 1%nat ∈ active_detections s') ∧
  (∀ X ds active s',
     1%nat ∈ ds → process_detections X ds s = (Ok active, s') →
     1%nat ∈ active ∧ 1%nat ∈ active_detections s') ∧
  (∀ calls, 1%nat ∈ active_detections s → 1%nat ∈ active_detections (run calls s)) ∧
  (∀ h config incl calls,
     trace_ownership (run calls (init h config incl)) !! KStr "" = None).
Proof.
  apply (empty_trace_id_accepted _ 1%nat (detection_of "" "fallback_storm"));
    vm_compute; reflexivity.
Defined.

(** C9 as stated fails for a call that raises: the batch holds record 2,
    whose [trace_id] is the empty string, and record 1, whose [trace_id] is
    a list.  The loop accepts record 2 into its local list; at record 1 the
    lookup in the ownership table raises [TypeError], and record 2 is
    neither returned nor active. *)
Lemma empty_trace_id_accepted_counterexample :
  let s := init unhashable_heap ∅ false in
  deref (heap s) 2 !! "trace_id" = Some (PStr "") ∧
  process_one "RetryLoopDetector" [] 2 s = (Ok [2%nat], s) ∧
  process_detections "RetryLoopDetector" [2%nat; 1%nat] s = (Raise TypeError, s) ∧
  active_detections (process_detections "RetryLoopDetector" [2%nat; 1%nat] s).2 = [].
Proof. vm_compute. by split_and!. Qed.

(* ===================================================================== *)
(** ** Accounting of the detections fed in *)
(* ===================================================================== *)

Lemma stable_refl (h : list (gmap string pyval)) : stable h h.
Proof. split; [done|]. intros; apply same_raw_refl. Qed.

Lemma stable_ext (ds : list nat) (h0 h h' : list (gmap string pyval)) :
  stable h0 h → heap_ext ds h h' → stable h0 h'.
Proof.
  intros [Hl Hs] [Hl' He]. split; [lia|]. intros r Hr.
  destruct (lookup_lt_is_Some_2 h r) as [o Ho]; [lia|].
  destruct (He r o Ho) as (o' & Ho' & Hraw & _).
  rewrite (deref_lookup _ _ _ Ho').
  eapply same_raw_trans; [by apply Hs|]. by rewrite (deref_lookup _ _ _ Ho).
Qed.

Lemma stable_copy (h0 h : list (gmap string pyval)) (r : nat) (name reason : string) :
  stable h0 h → (r < length h0)%nat →
  suppressed_copy (deref h r) name reason = suppressed_copy (deref h0 r) name reason.
Proof. intros [_ Hs] Hr. by apply same_raw_copy, Hs. Qed.

Lemma stable_get (h0 h : list (gmap string pyval)) (r : nat) (key : string) :
  stable h0 h → (r < length h0)%nat → key ≠ "suppressed_by" →
  deref h r !! key = deref h0 r !! key.
Proof. intros [_ Hs] Hr Hk. by apply same_raw_lookup; [apply Hs|]. Qed.

Lemma copies_ext (ds : list nat) (h0 h h' : list (gmap string pyval))
    (sup moved : list nat) :
  Forall (λ d, d < length h0)%nat ds → heap_ext ds h h' →
  Forall2 (copy_of h0 h) sup moved → Forall2 (copy_of h0 h') sup moved.
Proof.
  intros Hds [_ He] Hc. eapply Forall2_impl; [exact Hc|]. clear Hc.
  intros r' r (Hr' & name & reason & Hc). split; [done|]. exists name, reason.
  destruct (He r' _ Hc) as (o' & Ho' & _ & Heq). rewrite Ho', Heq; [done|].
  rewrite Forall_forall in Hds. intros Hin%Hds. lia.
Qed.

Lemma filter_partition (f : nat → bool) (l : list nat) :
  List.filter f l ++ List.filter (λ r, negb (f r)) l ≡ₚ l.
Proof.
  induction l as [|r l IH]; [done|]. simpl. destruct (f r); simpl.
  - by rewrite IH.
  - by rewrite <- Permutation_middle, IH.
Qed.

(** The copies that a transfer appends. *)
Lemma transfer_copies (h0 : list (gmap string pyval)) (s : state) (X : string)
    (k : hkey) (d : nat) (ts rem : list nat) (owner reason : string) :
  stable h0 (heap s) → (d < length h0)%nat →
  Forall (λ r, r < length h0)%nat ts →
  let s' := claim X k d (set_active_detections rem (push_all ts owner reason s)) in
  Forall2 (copy_of h0 (heap s'))
    (seq (length (heap s)) (length ts)) ts.
Proof.
  intros Hst Hd Hts s'. pose proof Hst as [Hl _].
  assert (heap (push_all ts owner reason s) =
          heap s ++ ((λ r, suppressed_copy (deref (heap s) r) owner reason) <$> ts))
    as Hh.
  { apply push_all_heap. eapply Forall_impl; [exact Hts|]. simpl. intros; lia. }
  apply Forall2_same_length_lookup_2; [by rewrite length_seq|].
  intros i r' r Hi Hr. apply lookup_seq in Hi as [-> Hi].
  split; [lia|]. exists owner, reason. subst s'. simpl. rewrite Hh.
  rewrite list_lookup_insert_ne by lia.
  rewrite lookup_app_r by lia.
  replace (length (heap s) + i - length (heap s))%nat with i by lia.
  rewrite list_lookup_fmap, Hr. simpl. f_equal.
  apply stable_copy; [done|]. by eapply Forall_lookup_1 in Hts.
Qed.

Lemma step_partition (h0 : list (gmap string pyval)) (fed : list nat)
    (X : string) (active active' : list nat) (d : nat) (s s' : state) :
  step X active d s (Ok active') s' →
  Forall (λ r, r < length h0)%nat fed → (d < length h0)%nat →
  partition_inv h0 fed active s → partition_inv h0 (fed ++ [d]) active' s'.
Proof.
  intros Hstep Hfed Hd (Hst & moved & Hperm & Hcopies).
  pose proof (step_frame _ _ _ _ _ _ Hstep) as (_ & _ & _ & _ & Hext).
  split; [by eapply stable_ext|].
  assert (Forall2 (copy_of h0 (heap s')) (suppressed_detections s) moved) as Hold.
  { apply (copies_ext [d] h0 (heap s)); [by apply Forall_singleton|done..]. }
  clear Hext. pose proof Hst as [Hl _].
  inversion Hstep; subst; clear Hstep.
  - exists moved. split; [|done]. rewrite <- Hperm. solve_Permutation.
  - exists (moved ++ [d]). split.
    + by rewrite app_assoc, Hperm.
    + simpl. apply Forall2_app; [done|]. constructor; [|constructor].
      split; [lia|]. exists X, reason.
      rewrite lookup_app_r by lia. rewrite Nat.sub_diag. simpl.
      f_equal. by apply stable_copy.
  - exists moved. split; [|done]. rewrite <- Hperm. simpl. solve_Permutation.
  - set (ts := List.filter (owned_by (heap s) trace_id owner) (active_detections s)).
    set (rem := List.filter (λ r, negb (owned_by (heap s) trace_id owner r))
                  (active_detections s)).
    assert (Forall (λ r, r < length h0)%nat ts) as Hts.
    { apply Forall_forall. intros r Hr%filter_subseteq.
      rewrite Forall_forall in Hfed. apply Hfed. rewrite <- Hperm.
      rewrite !elem_of_app. tauto. }
    exists (moved ++ ts). split.
    + simpl. fold rem.
      pose proof (filter_partition (owned_by (heap s) trace_id owner)
                    (active_detections s)) as Hfp. fold ts rem in Hfp.
      rewrite <- Hperm, <- Hfp. solve_Permutation.
    + set (sfin := claim X k d _) in *.
      replace (suppressed_detections sfin) with
        (suppressed_detections s ++ seq (length (heap s)) (length ts)).
      * apply Forall2_app; [done|]. by apply transfer_copies.
      * subst sfin. simpl. by rewrite push_all_suppressed.
Qed.

Lemma process_loop_partition (h0 : list (gmap string pyval)) (X : string)
    (ds fed active active' : list nat) (s s' : state) :
  process_loop X active ds s = (Ok active', s') →
  Forall (λ r, r < length h0)%nat fed → Forall (λ r, r < length h0)%nat ds →
  partition_inv h0 fed active s → partition_inv h0 (fed ++ ds) active' s'.
Proof.
  revert fed active s. induction ds as [|d ds IH]; intros fed active s; simpl.
  - intros [= <- <-] _ _. by rewrite app_nil_r.
  - unfold bind. destruct (process_one X active d s) as [[a1|e] s1] eqn:H1; [|done].
    intros H2 Hfed [Hd Hds]%Forall_cons Hinv.
    apply process_one_inv in H1.
    rewrite (cons_middle d fed ds), app_assoc.
    eapply IH; [done| |done|].
    + apply Forall_app. split; [done|]. by apply Forall_singleton.
    + by eapply step_partition.
Qed.

Lemma process_detections_partition (h0 : list (gmap string pyval)) (X : string)
    (ds fed active : list nat) (s s' : state) :
  process_detections X ds s = (Ok active, s') →
  Forall (λ r, r < length h0)%nat fed → Forall (λ r, r < length h0)%nat ds →
  partition_inv h0 fed [] s → partition_inv h0 (fed ++ ds) [] s'.
Proof.
  unfold process_detections, bind, modify, ret.
  destruct (process_loop X [] ds s) as [[a|e] s1] eqn:H1; [|done].
  intros [= <- <-] Hfed Hds Hinv.
  destruct (process_loop_partition h0 _ _ _ _ _ _ _ H1 Hfed Hds Hinv)
    as (Hst & moved & Hperm & Hcopies).
  split; [done|]. exists moved. simpl. by rewrite app_nil_r.
Qed.

Lemma run_partition (h0 : list (gmap string pyval))
    (calls : list (string * list nat)) (fed : list nat) (s : state) :
  completes calls s = true →
  Forall (λ r, r < length h0)%nat fed →
  Forall (λ r, r < length h0)%nat (concat calls.*2) →
  partition_inv h0 fed [] s →
  partition_inv h0 (fed ++ concat calls.*2) [] (run calls s).
Proof.
  revert fed s. induction calls as [|[X ds] calls IH]; intros fed s; simpl.
  - intros _ _ _. by rewrite app_nil_r.
  - destruct (process_detections X ds s) as [[a|e] s1] eqn:H1; [|done]. simpl.
    intros Hc Hfed [Hds Hrest]%Forall_app Hinv.
    rewrite app_assoc. apply IH; [done| |done|].
    + by apply Forall_app.
    + by eapply process_detections_partition.
Qed.

(** C3 (amended). Partition property: in a run over raw detections in which
    every call returns, each detection fed in is accounted for exactly
    once, either by its own reference in the active list or by one entry of
    the suppressed list.  A suppressed entry is not the record that was
    fed in but a copy of it that the engine allocates, carrying
    [suppressed_by], [suppression_reason] and [detector]; so the lengths of
    the two lists add up to the number of detections fed in. *)
Theorem partition_property (h : list (gmap string pyval))
    (config : gmap string (gmap string pyval)) (incl : bool)
    (calls : list (string * list nat)) :
  Forall (λ r, r < length h)%nat (concat calls.*2) →
  completes calls (init h config incl) = true →
  let s := run calls (init h config incl) in
  ∃ moved,
    active_detections s ++ moved ≡ₚ concat calls.*2 ∧
    Forall2 (copy_of h (heap s)) (suppressed_detections s) moved ∧
    (length (active_detections s) + length (suppressed_detections s))%nat
    = length (concat calls.*2).
Proof.
  intros Hv Hc s.
  destruct (run_partition h calls [] (init h config incl) Hc) as (_ & moved & Hp & Hcp);
    [done|done| |].
  { split; [apply stable_refl|]. exists []. simpl. by split. }
  fold s in Hp, Hcp. rewrite app_nil_r in Hp. simpl in Hp.
  exists moved. split_and!; [done..|].
  rewrite (Forall2_length _ _ _ Hcp), <- length_app. by rewrite Hp.
Qed.

Lemma partition_property_witness :
  let calls := [("FallbackFailureDetector", [2%nat]);
                ("RetryLoopDetector", [0%nat]);
                ("FallbackStormDetector", [1%nat])] in
  let s := run calls (init sample_heap ∅ false) in
  active_detections s = [0%nat] ∧
  suppressed_detections s = [4%nat; 5%nat] ∧
  ∃ moved,
    active_detections s ++ moved ≡ₚ concat calls.*2 ∧
    Forall2 (copy_of sample_heap (heap s)) (suppressed_detections s) moved ∧
    (length (active_detections s) + length (suppressed_detections s))%nat
    = length (concat calls.*2).
Proof.
  split; [vm_compute; reflexivity|]. split; [vm_compute; reflexivity|].
  apply (partition_property sample_heap ∅ false).
  - vm_compute. repeat constructor.
  - vm_compute. reflexivity.
Defined.

(** C3 as stated fails by reference: [RetryLoopDetector] is given record 0
    and [FallbackStormDetector] record 1, both for trace [t1].  Record 1 is
    afterwards in neither list, and the suppressed list holds record 4, which
    was never fed in. *)
Lemma partition_property_counterexample :
  let s := run [("RetryLoopDetector", [0%nat]); ("FallbackStormDetector", [1%nat])]
             (init sample_heap ∅ false) in
  active_detections s = [0%nat] ∧
  suppressed_detections s = [4%nat] ∧
  (1%nat ∉ active_detections s ++ suppressed_detections s) ∧
  (4%nat ∉ [0%nat; 1%nat]).
Proof.
  vm_compute. split_and!; try reflexivity.
  - intros H. repeat (apply elem_of_cons in H as [H|H]; [discriminate|]).
    by apply elem_of_nil in H.
  - intros H. repeat (apply elem_of_cons in H as [H|H]; [discriminate|]).
    by apply elem_of_nil in H.
Qed.

(* ===================================================================== *)
(** ** Single ownership *)
(* ===================================================================== *)

Lemma trace_key_valid (h : list (gmap string pyval)) (r : nat) (k : hkey) :
  trace_key h r = Some k → (r < length h)%nat.
Proof.
  unfold trace_key. destruct (truthy _) eqn:Ht; [|done].
  intros _. by apply truthy_trace_id_valid.
Qed.

Lemma trace_key_stable (h0 h : list (gmap string pyval)) (r : nat) :
  stable h0 h → (r < length h0)%nat → trace_key h r = trace_key h0 r.
Proof.
  intros Hst Hr. unfold trace_key, dict_get.
  by rewrite (stable_get h0 h r "trace_id" Hst Hr).
Qed.

Lemma trace_key_Some (h : list (gmap string pyval)) (r : nat) (k : hkey) :
  truthy (dict_get (deref h r) "trace_id") = true →
  py_hash (dict_get (deref h r) "trace_id") = Some k →
  trace_key h r = Some k.
Proof. intros Ht Hk. unfold trace_key. by rewrite Ht. Qed.

Lemma trace_key_inv (h : list (gmap string pyval)) (r : nat) (k : hkey) :
  trace_key h r = Some k →
  truthy (dict_get (deref h r) "trace_id") = true ∧
  py_hash (dict_get (deref h r) "trace_id") = Some k.
Proof. unfold trace_key. by destruct (truthy _). Qed.

(** A record of the old owner with the trace key of the transfer passes the
    test of the transfer. *)
Lemma owned_by_matching (h0 h : list (gmap string pyval)) (trace_id : pyval)
    (owner : string) (r : nat) (k : hkey) :
  stable h0 h → trace_key h0 r = Some k → py_hash trace_id = Some k →
  type_matches h0 r owner → owned_by h trace_id owner r = true.
Proof.
  intros Hst Hk Hh Hty. pose proof (trace_key_valid _ _ _ Hk) as Hr.
  rewrite <- (trace_key_stable h0 h r Hst Hr) in Hk.
  apply trace_key_inv in Hk as [_ Hk].
  unfold owned_by. rewrite (py_eq_same_key _ _ k Hk Hh). simpl.
  unfold type_matches, normalized_type, dict_get_or in *.
  rewrite (stable_get h0 h r "type" Hst Hr) by done.
  by destruct (default (PStr "") (deref h0 r !! "type")).
Qed.

Section ownership.
Context (h0 : list (gmap string pyval)) (calls : list (string * list nat)).
Context (Hrank : ∀ X Y, X ∈ calls.*1 → Y ∈ calls.*1 →
                        priority X = priority Y → X = Y).
Context (Htype : ∀ X ds r, (X, ds) ∈ calls → r ∈ ds → type_matches h0 r X).

Lemma claim_ownership (X : string) (k : hkey) (d : nat) (active rem : list nat)
    (s s1 : state) :
  X ∈ calls.*1 → (d < length h0)%nat →
  trace_key h0 d = Some k →
  stable h0 (heap (claim X k d s1)) →
  trace_ownership s1 = trace_ownership s →
  active_detections s1 = rem → rem ⊆ active_detections s →
  (∀ r, r ∈ rem → trace_key h0 r = Some k → trace_ownership s !! k = Some X) →
  (∀ r, r ∈ active → trace_key h0 r = Some k → trace_ownership s !! k = Some X) →
  ownership_inv h0 calls s → local_inv h0 X s active →
  ownership_inv h0 calls (claim X k d s1) ∧
  local_inv h0 X (claim X k d s1) (active ++ [d]).
Proof.
  intros HX Hd Hk Hst Hown Hact Hsub Hrem Hloc (_ & Hnames & HA) HJ.
  split; [split_and!|].
  - done.
  - simpl. rewrite Hown. intros k' O. rewrite lookup_insert.
    case_decide; [by intros [= <-]|apply Hnames].
  - simpl. rewrite Hown, Hact. intros r k' Hr Hk'.
    destruct (HA r k' (Hsub r Hr) Hk') as (O & HO & Hp).
    destruct (decide (k = k')) as [<-|Hne].
    + exists X. rewrite lookup_insert_eq. split; [done|].
      rewrite (Hrem r Hr Hk') in HO. by injection HO as <-.
    + exists O. by rewrite lookup_insert_ne.
  - unfold local_inv. simpl. rewrite Hown. intros r k' Hr Hk'.
    destruct (decide (k = k')) as [<-|Hne]; [by rewrite lookup_insert_eq|].
    rewrite lookup_insert_ne by done.
    apply elem_of_app in Hr as [Hr| ->%list_elem_of_singleton]; [by eapply HJ|].
    congruence.
Qed.

Lemma step_ownership (X : string) (active : list nat) (d : nat) (s s' : state)
    (out : outcome (list nat)) :
  step X active d s out s' →
  X ∈ calls.*1 → (d < length h0)%nat →
  ownership_inv h0 calls s → local_inv h0 X s active →
  ownership_inv h0 calls s' ∧ ∀ active', out = Ok active' → local_inv h0 X s' active'.
Proof.
  intros Hstep HX Hd Hinv HJ.
  pose proof (step_frame _ _ _ _ _ _ Hstep) as (_ & _ & _ & _ & Hext).
  pose proof Hinv as (Hst & Hnames & HA).
  pose proof (stable_ext _ _ _ _ Hst Hext) as Hst'. clear Hext.
  assert (∀ k, truthy (dict_get (deref (heap s) d) "trace_id") = true →
               py_hash (dict_get (deref (heap s) d) "trace_id") = Some k →
               trace_key h0 d = Some k) as Hkey.
  { intros k Ht Hk. rewrite <- (trace_key_stable h0 (heap s) d Hst Hd).
    by apply trace_key_Some. }
  destruct Hstep as [Ht|Ht Hh|k owner e Ht Hh Ho Hlt Hsplit|k owner reason Ht Hh Ho
                     |k Ht Hh Ho|k owner trace_id Ht Hh Ho Hlt Hall].
  - split; [done|]. intros ? [= <-] r k [Hr| ->%list_elem_of_singleton]%elem_of_app Hk;
      [by eapply HJ|].
    rewrite <- (trace_key_stable h0 (heap s) d Hst Hd) in Hk.
    apply trace_key_inv in Hk as [Hk _]. congruence.
  - by split.
  - by split.
  - split; [by split_and!|]. by intros ? [= <-].
  - destruct (claim_ownership X k d active (active_detections s) s s)
      as [H1 H2]; try done.
    + by apply Hkey.
    + intros r Hr Hk. destruct (HA r k Hr Hk) as (O & HO & _).
      destruct Ho as [Ho|(owner & Ho & Hp)]; [congruence|].
      rewrite Ho in HO. injection HO as <-. rewrite Ho. f_equal. symmetry.
      apply Hrank; [done| |done]. by eapply Hnames.
    + intros r Hr Hk. by eapply HJ.
    + split; [done|]. by intros ? [= <-].
  - set (rem := List.filter _ _) in *. set (s1 := set_active_detections _ _) in *.
    destruct (claim_ownership X k d active rem s s1) as [H1 H2]; try done.
    + by apply Hkey.
    + subst s1. simpl. apply push_all_ownership.
    + apply filter_subseteq.
    + intros r Hr Hk. exfalso.
      apply list_elem_of_In, filter_In in Hr as [Hr%list_elem_of_In Hno].
      destruct (HA r k Hr Hk) as (O & HO & ds & Hc & Hin).
      rewrite Ho in HO. injection HO as <-.
      rewrite (owned_by_matching h0 (heap s) trace_id owner r k) in Hno; try done.
      by eapply Htype.
    + intros r Hr Hk. exfalso. rewrite (HJ r k Hr Hk) in Ho.
      injection Ho as <-. lia.
    + split; [done|]. by intros ? [= <-].
Qed.

Lemma process_loop_ownership (X : string) (ds active : list nat) (s s' : state)
    (out : outcome (list nat)) :
  process_loop X active ds s = (out, s') →
  X ∈ calls.*1 → Forall (λ d, d < length h0)%nat ds →
  ownership_inv h0 calls s → local_inv h0 X s active →
  ownership_inv h0 calls s' ∧ ∀ active', out = Ok active' → local_inv h0 X s' active'.
Proof.
  revert active s. induction ds as [|d ds IH]; intros active s; simpl.
  - intros [= <- <-] _ _ Hinv HJ. split; [done|]. by intros ? [= <-].
  - unfold bind. destruct (process_one X active d s) as [[a1|e] s1] eqn:H1.
    + intros H2 HX [Hd Hds]%Forall_cons Hinv HJ. apply process_one_inv in H1.
      destruct (step_ownership _ _ _ _ _ _ H1 HX Hd Hinv HJ) as [Hinv1 HJ1].
      eapply IH; eauto.
    + intros [= <- <-] HX [Hd Hds]%Forall_cons Hinv HJ. apply process_one_inv in H1.
      destruct (step_ownership _ _ _ _ _ _ H1 HX Hd Hinv HJ) as [Hinv1 _].
      by split.
Qed.

Lemma process_detections_ownership (X : string) (ds : list nat) (s : state) :
  (X, ds) ∈ calls → Forall (λ d, d < length h0)%nat ds →
  ownership_inv h0 calls s →
  ownership_inv h0 calls (process_detections X ds s).2.
Proof.
  intros Hc Hds Hinv.
  assert (X ∈ calls.*1) as HX.
  { apply list_elem_of_fmap. by exists (X, ds). }
  unfold process_detections, bind, modify, ret.
  destruct (process_loop X [] ds s) as [[a|e] s1] eqn:H1; simpl.
  - destruct (process_loop_frame _ _ _ _ _ _ H1) as [_ Hl].
    destruct (Hl _ eq_refl) as (l & -> & Hsub). simpl in *.
    destruct (process_loop_ownership _ _ _ _ _ _ H1 HX Hds Hinv) as [Hinv1 HJ1].
    { by intros r k Hr%elem_of_nil. }
    specialize (HJ1 _ eq_refl). destruct Hinv1 as (Hst & Hnames & HA).
    split_and!; [done..|]. simpl.
    intros r k [Hr|Hr]%elem_of_app Hk; [by apply HA|].
    exists X. split; [by eapply HJ1|]. exists ds. split; [done|]. by apply Hsub.
  - eapply process_loop_ownership; eauto. by intros r k Hr%elem_of_nil.
Qed.

Lemma run_ownership (todo : list (string * list nat)) (s : state) :
  todo ⊆ calls → Forall (λ d, d < length h0)%nat (concat todo.*2) →
  ownership_inv h0 calls s → ownership_inv h0 calls (run todo s).
Proof.
  revert s. induction todo as [|[X ds] todo IH]; intros s Hsub Hv Hinv; [done|].
  simpl in *. apply Forall_app in Hv as [Hds Hv].
  apply IH; [|done|].
  - intros c Hc. apply Hsub. by apply list_elem_of_further.
  - apply process_detections_ownership; [|done..]. apply Hsub, list_elem_of_here.
Qed.

End ownership.

(** C1 (amended). Single ownership: the ownership table records one
    detector per trace id; and in a run over raw detections in which the
    detectors taking part have pairwise different priority ranks and every
    detection has a [type] that the transfer test recognises as its
    detector's (normalised, a substring of the lower-cased detector name),
    every detection of the active list that carries a usable trace id was
    fed in by the detector recorded as owner of that trace. *)
Theorem single_ownership (h : list (gmap string pyval))
    (config : gmap string (gmap string pyval)) (incl : bool)
    (calls : list (string * list nat)) :
  Forall (λ d, d < length h)%nat (concat calls.*2) →
  (∀ X Y, X ∈ calls.*1 → Y ∈ calls.*1 → priority X = priority Y → X = Y) →
  (∀ X ds r, (X, ds) ∈ calls → r ∈ ds → type_matches h r X) →
  let s := run calls (init h config incl) in
  (∀ k X Y, trace_ownership s !! k = Some X → trace_ownership s !! k = Some Y → X = Y) ∧
  (∀ r k, r ∈ active_detections s → trace_key (heap s) r = Some k →
          ∃ X, trace_ownership s !! k = Some X ∧ produced calls r X).
Proof.
  intros Hv Hrank Htype s. split; [congruence|].
  destruct (run_ownership h calls Hrank Htype calls (init h config incl))
    as (Hst & _ & HA); [done|done| |].
  { split_and!; [apply stable_refl| |]; simpl.
    - intros k O. by rewrite lookup_empty.
    - by intros r k Hr%elem_of_nil. }
  fold s in Hst, HA. intros r k Hr Hk. apply HA; [done|].
  rewrite <- (trace_key_stable h (heap s) r); [done..|].
  by apply (run_init_refs h config incl calls Hv).
Qed.

Lemma single_ownership_witness :
  let calls := [("OverkillModelDetector", [1%nat]);
                ("FallbackFailureDetector", [2%nat]);
                ("RetryLoopDetector", [3%nat])] in
  let h := [ detection_of "t2" "retry_loop";
             detection_of "t1" "overkill_model";
             detection_of "t1" "fallback_failure";
             detection_of "t1" "retry_loop" ] in
  let s := run calls (init h ∅ false) in
  active_detections s = [3%nat] ∧
  (∀ k X Y, trace_ownership s !! k = Some X → trace_ownership s !! k = Some Y → X = Y) ∧
  (∀ r k, r ∈ active_detections s → trace_key (heap s) r = Some k →
          ∃ X, trace_ownership s !! k = Some X ∧ produced calls r X).
Proof.
  split; [vm_compute; reflexivity|].
  apply single_ownership.
  - vm_compute. repeat constructor.
  - intros X Y HX HY.
    repeat (apply elem_of_cons in HX as [->|HX]);
      repeat (apply elem_of_cons in HY as [->|HY]);
      try (by apply elem_of_nil in HX); try (by apply elem_of_nil in HY);
      vm_compute; congruence.
  - intros X ds r Hc Hr.
    repeat (apply elem_of_cons in Hc as [Hc|Hc]; [injection Hc as -> ->|]);
      try (by apply elem_of_nil in Hc);
      apply list_elem_of_singleton in Hr as ->; vm_compute; reflexivity.
Defined.

(** C1 as stated fails in two ways.  Two detectors of the same rank (here
    the default rank 999) both keep their detections active while the table
    names the later one: a tie neither suppresses nor transfers.  And a
    record of [OverkillModelDetector] with type [expensive_model_short] is
    not recognised by the transfer to [RetryLoopDetector] and stays active
    for a trace that [RetryLoopDetector] owns. *)
Lemma single_ownership_counterexample :
  (let s := run [("A", [0%nat]); ("B", [1%nat])] (init sample_heap ∅ false) in
   priority "A" = priority "B" ∧
   0%nat ∈ active_detections s ∧
   trace_key (heap s) 0 = Some (KStr "t1") ∧
   trace_ownership s !! KStr "t1" = Some "B") ∧
  (let s := run [("OverkillModelDetector", [3%nat]); ("RetryLoopDetector", [0%nat])]
              (init sample_heap ∅ false) in
   3%nat ∈ active_detections s ∧
   trace_key (heap s) 3 = Some (KStr "t1") ∧
   trace_ownership s !! KStr "t1" = Some "RetryLoopDetector").
Proof.
  split; vm_compute; split_and!; try reflexivity.
  - apply list_elem_of_here.
  - apply list_elem_of_here.
Qed.

(* ===================================================================== *)
(** * Further properties of the engine *)
(* ===================================================================== *)

(* ===================================================================== *)
(** ** The owner of a trace only improves *)
(* ===================================================================== *)

Lemma owners_improve_refl (s : state) : owners_improve s s.
Proof. intros k O HO. exists O. split; [done|lia]. Qed.

Lemma owners_improve_trans (s1 s2 s3 : state) :
  owners_improve s1 s2 → owners_improve s2 s3 → owners_improve s1 s3.
Proof.
  intros H1 H2 k O HO. destruct (H1 k O HO) as (O2 & HO2 & Hle2).
  destruct (H2 k O2 HO2) as (O3 & HO3 & Hle3). exists O3. split; [done|lia].
Qed.

Lemma owners_improve_eq (s s' : state) :
  trace_ownership s' = trace_ownership s → owners_improve s s'.
Proof. intros Heq k O HO. exists O. rewrite Heq. split; [done|lia]. Qed.

Lemma owners_improve_insert (s s' : state) (k : hkey) (X : string) :
  trace_ownership s' = <[k := X]> (trace_ownership s) →
  (∀ O, trace_ownership s !! k = Some O → priority X ≤ priority O) →
  owners_improve s s'.
Proof.
  intros Heq Hle k' O HO. rewrite Heq.
  destruct (decide (k = k')) as [<-|Hne].
  - exists X. rewrite lookup_insert_eq. split; [done|]. by apply Hle.
  - exists O. rewrite lookup_insert_ne by done. split; [done|lia].
Qed.

Lemma step_owners (X : string) (active : list nat) (d : nat) (s s' : state)
    (out : outcome (list nat)) :
  step X active d s out s' → owners_improve s s'.
Proof.
  destruct 1 as [| | | |k Ht Hh Ho|k owner trace_id Ht Hh Ho Hlt Hall];
    try apply owners_improve_refl.
  - by apply owners_improve_eq.
  - apply (owners_improve_insert _ _ k X); [done|].
    intros O HO. destruct Ho as [Ho|(owner & Ho & Hp)]; [congruence|].
    rewrite Ho in HO. injection HO as <-. lia.
  - apply (owners_improve_insert _ _ k X).
    + simpl. by rewrite push_all_ownership.
    + intros O HO. rewrite Ho in HO. injection HO as <-. lia.
Qed.

Lemma process_loop_owners (X : string) (ds active : list nat) (s s' : state)
    (out : outcome (list nat)) :
  process_loop X active ds s = (out, s') → owners_improve s s'.
Proof.
  revert active s. induction ds as [|d ds IH]; intros active s; simpl.
  - intros [= <- <-]. apply owners_improve_refl.
  - unfold bind. destruct (process_one X active d s) as [[a1|e] s1] eqn:H1.
    + intros H2. eapply owners_improve_trans; [|by eapply IH].
      eapply step_owners. by eapply process_one_inv.
    + intros [= <- <-]. eapply step_owners. by eapply process_one_inv.
Qed.

Lemma process_detections_owners (X : string) (ds : list nat) (s : state) :
  owners_improve s (process_detections X ds s).2.
Proof.
  unfold process_detections, bind, modify, ret.
  destruct (process_loop X [] ds s) as [[a|e] s1] eqn:H1; simpl.
  - eapply owners_improve_trans; [by eapply process_loop_owners|].
    by apply owners_improve_eq.
  - by eapply process_loop_owners.
Qed.

(** X1. Once a trace has an owner it keeps one through every later
    operation, and the rank of its owner never gets numerically larger. *)
Theorem owner_rank_never_worsens (ops : list operation) (s : state)
    (k : hkey) (O : string) :
  trace_ownership s !! k = Some O →
  ∃ O', trace_ownership (operate ops s) !! k = Some O' ∧ priority O' ≤ priority O.
Proof.
  revert s O. induction ops as [|op ops IH]; intros s O HO; simpl.
  - exists O. split; [done|lia].
  - assert (owners_improve s (perform op s)) as Hop.
    { destruct op as [X ds|]; simpl.
      - apply process_detections_owners.
      - rewrite get_suppression_summary_reads. apply owners_improve_refl. }
    destruct (Hop k O HO) as (O1 & HO1 & Hle1).
    destruct (IH _ _ HO1) as (O' & HO' & Hle'). exists O'. split; [done|lia].
Qed.

Lemma owner_rank_never_worsens_witness :
  let s := operate [Process "OverkillModelDetector" [1%nat]]
             (init [ detection_of "t1" "retry_loop";
                     detection_of "t1" "overkill_model" ] ∅ false) in
  let ops := [Process "RetryLoopDetector" [0%nat]; Summary;
              Process "OverkillModelDetector" [1%nat]] in
  trace_ownership (operate ops s) !! KStr "t1" = Some "RetryLoopDetector" ∧
  ∃ O', trace_ownership (operate ops s) !! KStr "t1" = Some O' ∧
        priority O' ≤ priority "OverkillModelDetector".
Proof.
  split; [vm_compute; reflexivity|].
  apply owner_rank_never_worsens. vm_compute; reflexivity.
Defined.

(* ===================================================================== *)
(** ** Order of the lists *)
(* ===================================================================== *)

Lemma filter_sublist (f : nat → bool) (l : list nat) : List.filter f l `sublist_of` l.
Proof.
  induction l as [|r l IH]; [done|]. simpl.
  destruct (f r); [by apply sublist_skip|by apply sublist_cons].
Qed.

Lemma step_active_sublist (X : string) (active : list nat) (d : nat)
    (s s' : state) (out : outcome (list nat)) :
  step X active d s out s' → active_detections s' `sublist_of` active_detections s.
Proof. destruct 1; simpl; try done. apply filter_sublist. Qed.

Lemma process_loop_sublist (X : string) (ds active : list nat) (s s' : state)
    (out : outcome (list nat)) :
  process_loop X active ds s = (out, s') →
  active_detections s' `sublist_of` active_detections s ∧
  ∀ active', out = Ok active' → ∃ l, active' = active ++ l ∧ l `sublist_of` ds.
Proof.
  revert active s. induction ds as [|d ds IH]; intros active s; simpl.
  - intros [= <- <-]. split; [done|]. intros ? [= <-]. exists [].
    by rewrite app_nil_r.
  - unfold bind. destruct (process_one X active d s) as [[a1|e] s1] eqn:H1.
    + apply process_one_inv in H1. intros H2. destruct (IH _ _ H2) as [Hs Hl].
      split; [etrans; [done|by eapply step_active_sublist]|].
      intros active' ->. destruct (Hl _ eq_refl) as (l & -> & Hsub).
      destruct (step_local _ _ _ _ _ _ H1) as [-> | ->].
      * exists l. split; [done|]. by apply sublist_cons.
      * exists (d :: l). rewrite <- app_assoc. split; [done|]. by apply sublist_skip.
    + apply process_one_inv in H1. intros [= <- <-].
      split; [by eapply step_active_sublist|done].
Qed.

(** X2. The list that [process_detections] returns holds detections of its
    input in the order of the input; the active list afterwards is what the
    call kept of the old active list, in the old order, followed by the
    returned list.  A call that raises adds nothing to the active list. *)
Theorem returned_in_input_order (X : string) (ds : list nat) (s s' : state)
    (out : outcome (list nat)) :
  process_detections X ds s = (out, s') →
  ∃ kept, kept `sublist_of` active_detections s ∧
          match out with
          | Ok active => active `sublist_of` ds ∧ active_detections s' = kept ++ active
          | Raise _ => active_detections s' = kept
          end.
Proof.
  unfold process_detections, bind, modify, ret.
  destruct (process_loop X [] ds s) as [[a|e] s1] eqn:H1; intros [= <- <-];
    destruct (process_loop_sublist _ _ _ _ _ _ H1) as [Hs Hl];
    exists (active_detections s1); (split; [done|]); simpl; [|done].
  destruct (Hl _ eq_refl) as (l & -> & Hsub). done.
Qed.

Lemma returned_in_input_order_witness :
  let s := run [("FallbackFailureDetector", [2%nat]); ("FallbackStormDetector", [1%nat])]
             (init sample_heap ∅ false) in
  let r := process_detections "RetryLoopDetector" [3%nat; 0%nat] s in
  r.1 = Ok [3%nat; 0%nat] ∧
  ∃ kept, kept `sublist_of` active_detections s ∧
          match r.1 with
          | Ok active =>
              active `sublist_of` [3%nat; 0%nat] ∧ active_detections r.2 = kept ++ active
          | Raise _ => active_detections r.2 = kept
          end.
Proof.
  split; [vm_compute; reflexivity|].
  apply (returned_in_input_order "RetryLoopDetector"). apply surjective_pairing.
Defined.

(* ===================================================================== *)
(** ** The payload of a record *)
(* ===================================================================== *)

(** X3. The engine never alters the payload of a detection: whatever
    operations it performs, a record of the store is still there and
    differs from what it was at most in [suppressed_by], and not at all
    when it was not fed in; and the copy stored in the suppressed list
    differs from the record it was made of at most in [suppressed_by],
    [suppression_reason] and [detector]. *)
Theorem records_pass_through (ops : list operation) (s : state) (r : nat)
    (o : gmap string pyval) :
  heap s !! r = Some o →
  (∃ o', heap (operate ops s) !! r = Some o' ∧
         (∀ key, key ≠ "suppressed_by" → o' !! key = o !! key) ∧
         (r ∉ fed ops → o' = o)) ∧
  (∀ name reason key,
     key ≠ "suppressed_by" → key ≠ "suppression_reason" → key ≠ "detector" →
     suppressed_copy o name reason !! key = o !! key).
Proof.
  intros Ho. split.
  - destruct (operate_frame ops s) as (_ & _ & _ & _ & _ & Hh).
    destruct (Hh r o Ho) as (o' & Ho' & Hraw & He). exists o'.
    split_and!; [done| |done]. intros key Hk. by apply same_raw_lookup.
  - intros name reason key H1 H2 H3. unfold suppressed_copy.
    by rewrite !lookup_insert_ne.
Qed.

Lemma records_pass_through_witness :
  let s := init sample_heap ∅ false in
  let ops := [Process "FallbackStormDetector" [1%nat];
              Process "RetryLoopDetector" [0%nat]] in
  let o := detection_of "t1" "fallback_storm" in
  heap (operate ops s) !! 4%nat =
    Some (suppressed_copy o "FallbackStormDetector" "superseded_by:RetryLoopDetector") ∧
  (∃ o', heap (operate ops s) !! 1%nat = Some o' ∧
         (∀ key, key ≠ "suppressed_by" → o' !! key = o !! key) ∧
         (1%nat ∉ fed ops → o' = o)) ∧
  (∀ name reason key,
     key ≠ "suppressed_by" → key ≠ "suppression_reason" → key ≠ "detector" →
     suppressed_copy o name reason !! key = o !! key).
Proof.
  split; [vm_compute; reflexivity|].
  apply records_pass_through. vm_compute; reflexivity.
Defined.

(* ===================================================================== *)
(** ** A tie of ranks *)
(* ===================================================================== *)

(** X4. When the incoming detector has the same rank as the owner of the
    trace (the same detector again, or two detectors of the default rank)
    and the rules do not disable it for the trace, the detection is
    accepted without any suppression: the active and the suppressed list
    stay as they are, and the table names the incoming detector. *)
Theorem equal_rank_accepts (s : state) (X : string) (d : nat) (k : hkey)
    (owner : string) :
  truthy (dict_get (deref (heap s) d) "trace_id") = true →
  py_hash (dict_get (deref (heap s) d) "trace_id") = Some k →
  trace_ownership s !! k = Some owner →
  priority X = priority owner →
  config_flag X s = false ∨ owner ≠ "RetryLoopDetector" →
  ∃ s', (∀ active, process_one X active d s = (Ok (active ++ [d]), s')) ∧
        active_detections s' = active_detections s ∧
        suppressed_detections s' = suppressed_detections s ∧
        trace_ownership s' = <[k := X]> (trace_ownership s) ∧
        active_detections (process_detections X [d] s).2 = active_detections s ++ [d].
Proof.
  intros Ht Hk Ho Heq Hcfg. exists (claim X k d s).
  assert (∀ active, process_one X active d s = (Ok (active ++ [d]), claim X k d s))
    as Hstep.
  { intros active.
    rewrite process_one_eq. cbv zeta. rewrite Ht, Hk. simpl negb. cbv iota.
    assert ((config_flag X s &&
             bool_decide (trace_ownership s !! k = Some "RetryLoopDetector")) = false)
      as ->.
    { apply andb_false_iff. destruct Hcfg as [Hf|Hne]; [by left|right].
      apply bool_decide_eq_false_2. rewrite Ho. congruence. }
    rewrite Ho, Heq, Z.gtb_ltb, Z.ltb_irrefl. done. }
  split_and!; try done.
  by rewrite process_detections_single, Hstep.
Qed.

Lemma equal_rank_accepts_witness :
  let s := run [("A", [0%nat])] (init sample_heap ∅ false) in
  ∃ s', (∀ active, process_one "B" active 1 s = (Ok (active ++ [1%nat]), s')) ∧
        active_detections s' = active_detections s ∧
        suppressed_detections s' = suppressed_detections s ∧
        trace_ownership s' = <[KStr "t1" := "B"]> (trace_ownership s) ∧
        active_detections (process_detections "B" [1%nat] s).2
        = active_detections s ++ [1%nat].
Proof.
  apply (equal_rank_accepts _ "B" 1%nat (KStr "t1") "A");
    [vm_compute; reflexivity .. | left; vm_compute; reflexivity].
Defined.

(* ===================================================================== *)
(** ** The rules act on traces of [RetryLoopDetector] only *)
(* ===================================================================== *)

Lemma push_all_set_config (c : gmap string (gmap string pyval)) (l : list nat)
    (name reason : string) (s : state) :
  push_all l name reason (set_suppression_config c s) =
  set_suppression_config c (push_all l name reason s).
Proof. revert s. induction l as [|d l IH]; intros s; [done|]. simpl. by rewrite <- IH. Qed.

(** X5. The suppression rules are inert for a detection whose trace is not
    owned by [RetryLoopDetector]: the loop iteration gives the same result
    and leaves the same lists, table and store under any rules. *)
Theorem rules_inert_off_retry_loop (c : gmap string (gmap string pyval))
    (s : state) (X : string) (active : list nat) (d : nat) :
  (∀ k, py_hash (dict_get (deref (heap s) d) "trace_id") = Some k →
        trace_ownership s !! k ≠ Some "RetryLoopDetector") →
  process_one X active d (set_suppression_config c s) =
  ((process_one X active d s).1,
   set_suppression_config c (process_one X active d s).2).
Proof.
  intros Hown. rewrite !process_one_eq. cbv zeta.
  change (heap (set_suppression_config c s)) with (heap s).
  change (trace_ownership (set_suppression_config c s)) with (trace_ownership s).
  change (active_detections (set_suppression_config c s)) with (active_detections s).
  destruct (truthy _); simpl negb; cbv iota; [|done].
  destruct (py_hash _) as [k|] eqn:Hk; [|done].
  rewrite (bool_decide_eq_false_2 _ (Hown k eq_refl)), !andb_false_r.
  destruct (trace_ownership s !! k) as [owner|]; [|done].
  destruct (_ >? _); [done|].
  destruct (_ <? _); [|done].
  destruct (split_active _ _ _ _) as [[ts rem]|e]; [|done].
  simpl. by rewrite push_all_set_config.
Qed.

Lemma rules_inert_off_retry_loop_witness :
  let s := run [("FallbackStormDetector", [1%nat])] (init sample_heap ∅ false) in
  (process_one "FallbackFailureDetector" [] 2 s).1 = Ok [] ∧
  process_one "FallbackFailureDetector" [] 2 (set_suppression_config sample_rules s) =
  ((process_one "FallbackFailureDetector" [] 2 s).1,
   set_suppression_config sample_rules (process_one "FallbackFailureDetector" [] 2 s).2).
Proof.
  split; [vm_compute; reflexivity|].
  apply rules_inert_off_retry_loop.
  intros k Hk. vm_compute in Hk. injection Hk as <-. vm_compute. discriminate.
Defined.

(* ===================================================================== *)
(** ** Detectors run in the order of their ranks *)
(* ===================================================================== *)

Lemma owners_within_mono (p q : Z) (s : state) :
  p ≤ q → owners_within p s → owners_within q s.
Proof. intros Hle H k O HO. specialize (H k O HO). lia. Qed.

(** When no owner is outranked by the caller, an iteration neither
    transfers nor reads a [type]. *)
Lemma step_no_transfer (X : string) (active : list nat) (d : nat) (s s' : state)
    (out : outcome (list nat)) :
  step X active d s out s' → owners_within (priority X) s →
  active_detections s' = active_detections s ∧
  owners_within (priority X) s' ∧ out ≠ Raise AttributeError.
Proof.
  intros Hstep Hw.
  destruct Hstep as [| |k owner e Ht Hh Ho Hlt Hsplit| |k Ht Hh Ho
                     |k owner trace_id Ht Hh Ho Hlt Hall]; try done.
  - specialize (Hw k owner Ho). lia.
  - split_and!; [done| |done]. unfold owners_within. simpl.
    intros k' O. rewrite lookup_insert.
    case_decide; [intros [= <-]; lia|apply Hw].
  - specialize (Hw k owner Ho). lia.
Qed.

Lemma process_loop_no_transfer (X : string) (ds active : list nat) (s s' : state)
    (out : outcome (list nat)) :
  process_loop X active ds s = (out, s') → owners_within (priority X) s →
  active_detections s' = active_detections s ∧
  owners_within (priority X) s' ∧ out ≠ Raise AttributeError.
Proof.
  revert active s. induction ds as [|d ds IH]; intros active s; simpl.
  - by intros [= <- <-] Hw.
  - unfold bind. destruct (process_one X active d s) as [[a1|e] s1] eqn:H1.
    + apply process_one_inv in H1. intros H2 Hw.
      destruct (step_no_transfer _ _ _ _ _ _ H1 Hw) as (Ha1 & Hw1 & _).
      destruct (IH _ _ H2 Hw1) as (Ha & Hw' & Hout). by rewrite Ha, Ha1.
    + apply process_one_inv in H1. intros [= <- <-] Hw.
      by apply (step_no_transfer _ _ _ _ _ _ H1 Hw).
Qed.

Lemma process_detections_no_transfer (X : string) (ds : list nat) (s s' : state)
    (out : outcome (list nat)) :
  process_detections X ds s = (out, s') → owners_within (priority X) s →
  match out with
  | Ok active => active_detections s' = active_detections s ++ active
  | Raise e => active_detections s' = active_detections s ∧ e = TypeError
  end ∧ owners_within (priority X) s'.
Proof.
  unfold process_detections, bind, modify, ret.
  destruct (process_loop X [] ds s) as [[a|e] s1] eqn:H1; intros [= <- <-] Hw;
    destruct (process_loop_no_transfer _ _ _ _ _ _ H1 Hw) as (Ha & Hw' & Hout).
  - simpl. by rewrite Ha.
  - split; [|done]. split; [done|]. by destruct e.
Qed.

Lemma scan_loop_in_rank_order (results : list (string * outcome (list nat)))
    (all_active_detections : list nat) (s : state) (p : Z) :
  owners_within p s →
  Forall (λ c, p ≤ priority c.1) results →
  StronglySorted (λ a b : string * outcome (list nat), priority a.1 ≤ priority b.1)
    results →
  all_active_detections = active_detections s →
  (scan_loop results all_active_detections s).1
  = active_detections (scan_loop results all_active_detections s).2.
Proof.
  revert all_active_detections s p.
  induction results as [|[X res] results IH]; intros all s p Hw Hp Hs Hall; [done|].
  apply Forall_cons in Hp as [HpX Hp]. apply StronglySorted_inv in Hs as [Hs Hhd].
  simpl in HpX. simpl. destruct res as [raw|e].
  - destruct (process_detections X raw s) as [out s'] eqn:Hcall.
    destruct (process_detections_no_transfer _ _ _ _ _ Hcall) as [Hact Hw'].
    { by eapply owners_within_mono. }
    destruct out as [act|e]; (eapply (IH _ _ (priority X)); [done|done|done|]).
    + by rewrite Hact, Hall.
    + destruct Hact as [-> _]. done.
  - by eapply (IH _ _ p).
Qed.

Lemma detector_order_ranks :
  StronglySorted (λ a b, priority a ≤ priority b) detector_order.
Proof. repeat constructor; vm_compute; discriminate. Qed.

(** X6. [scan] runs the detectors in the order of their ranks, so no
    transfer ever takes place in it: the list of active detections that it
    collects from the calls and reports is the active list of the engine,
    whatever the detectors produce and whichever of them or of the calls
    raise. *)
Theorem scan_reports_engine_active_list (h : list (gmap string pyval))
    (config : gmap string (gmap string pyval)) (incl : bool)
    (results : list (string * outcome (list nat))) :
  results.*1 = detector_order →
  (scan_loop results [] (init h config incl)).1
  = active_detections (scan_loop results [] (init h config incl)).2.
Proof.
  intros Hnames. apply (scan_loop_in_rank_order _ _ _ 0).
  - intros k O. simpl. by rewrite lookup_empty.
  - apply Forall_forall. intros c _. pose proof (priority_lower_bound c.1). lia.
  - pose proof detector_order_ranks as Hs. rewrite <- Hnames in Hs.
    clear Hnames. induction results as [|c results IH]; [constructor|].
    simpl in Hs. apply StronglySorted_inv in Hs as [Hs Hhd].
    constructor; [by apply IH|]. by rewrite Forall_fmap in Hhd.
  - done.
Qed.

Lemma scan_reports_engine_active_list_witness :
  let results := [ ("RetryLoopDetector", Ok [0%nat]);
                   ("FallbackStormDetector", Raise TypeError);
                   ("FallbackFailureDetector", Ok [2%nat]);
                   ("OverkillModelDetector", Ok [3%nat]) ] in
  (scan_loop results [] (init sample_heap ∅ false)).1 = [0%nat] ∧
  (scan_loop results [] (init sample_heap ∅ false)).1
  = active_detections (scan_loop results [] (init sample_heap ∅ false)).2.
Proof.
  split; [vm_compute; reflexivity|].
  apply scan_reports_engine_active_list. reflexivity.
Defined.

(* ===================================================================== *)
(** ** The summary *)
(* ===================================================================== *)

Lemma count_total_bump (m : gmap hkey nat) (k : hkey) :
  count_total (<[k := S (default O (m !! k))]> m) = S (count_total m).
Proof.
  unfold count_total.
  destruct (m !! k) as [n|] eqn:Hk; simpl.
  - rewrite <- insert_delete_eq.
    rewrite map_fold_insert_L; [|intros; lia|apply lookup_delete_eq].
    rewrite (map_fold_delete_L _ _ k n m); [lia|intros; lia|done].
  - rewrite map_fold_insert_L; [done|intros; lia|done].
Qed.

Lemma breakdown_total (h : list (gmap string pyval)) (l : list nat)
    (acc m : gmap hkey nat) :
  breakdown h acc l = Ok m → count_total m = (count_total acc + length l)%nat.
Proof.
  revert acc. induction l as [|d l IH]; intros acc; simpl.
  - intros [= <-]. lia.
  - destruct (py_hash _) as [reason|]; [|done].
    intros Hm%IH. rewrite Hm, count_total_bump. lia.
Qed.

Lemma trace_ids_size (h : list (gmap string pyval)) (l : list nat) (ks : gset hkey) :
  trace_ids h l = Ok ks → (size ks ≤ length l)%nat.
Proof.
  revert ks. induction l as [|d l IH]; intros ks; simpl.
  - intros [= <-]. by rewrite size_empty.
  - destruct (truthy _).
    + destruct (py_hash _) as [k|]; [|done].
      destruct (trace_ids h l) as [ks'|e]; [|done]. intros [= <-].
      specialize (IH ks' eq_refl).
      rewrite size_union_alt, size_singleton.
      assert (size (ks' ∖ {[k]}) ≤ size ks')%nat as Hsz
        by apply subseteq_size, subseteq_difference_l, reflexivity.
      simpl. lia.
    + intros Hks%IH. lia.
Qed.

(** X7. A summary that is returned is consistent with the lists: the
    counts of its breakdown by reason add up to the number of suppressed
    detections, the two issue counts are the lengths of the two lists, the
    number of traces is at most their sum, the table is handed out as it
    is, and the engine is left as it was. *)
Theorem summary_counts (s s' : state) (r : summary) :
  get_suppression_summary s = (Ok r, s') →
  s' = s ∧
  count_total (suppression_breakdown r) = suppressed_issues r ∧
  suppressed_issues r = length (suppressed_detections s) ∧
  active_issues r = length (active_detections s) ∧
  (total_traces_analyzed r ≤ active_issues r + suppressed_issues r)%nat ∧
  trace_ownership_copy r = trace_ownership s.
Proof.
  unfold get_suppression_summary, bind, get, ret, raise.
  destruct (trace_ids _ _) as [ks|e] eqn:Hks; [|done].
  destruct (breakdown _ _ _) as [counts|e] eqn:Hb; [|done].
  intros [= <- <-]. simpl. split_and!; try done.
  - rewrite (breakdown_total _ _ _ _ Hb). unfold count_total.
    by rewrite map_fold_empty.
  - apply trace_ids_size in Hks. by rewrite length_app in Hks.
Qed.

Lemma summary_counts_witness :
  let s := run [("FallbackFailureDetector", [2%nat]); ("RetryLoopDetector", [0%nat]);
                ("FallbackStormDetector", [1%nat])] (init sample_heap ∅ false) in
  ∃ r, (get_suppression_summary s).1 = Ok r ∧
       suppressed_issues r = 2%nat ∧
       (get_suppression_summary s).2 = s ∧
       count_total (suppression_breakdown r) = suppressed_issues r ∧
       suppressed_issues r = length (suppressed_detections s) ∧
       active_issues r = length (active_detections s) ∧
       (total_traces_analyzed r ≤ active_issues r + suppressed_issues r)%nat ∧
       trace_ownership_copy r = trace_ownership s.
Proof.
  intros s.
  destruct (get_suppression_summary s) as [[r|e] s'] eqn:Hsum.
  - exists r. split; [done|]. split.
    + vm_compute in Hsum. by injection Hsum as <- _.
    + by apply summary_counts.
  - vm_compute in Hsum. discriminate.
Defined.

(* ===================================================================== *)
(** ** What the lists hold after a run *)
(* ===================================================================== *)

Lemma py_eq_hashable (a b : pyval) (k : hkey) :
  py_eq a b = true → py_hash b = Some k → py_hash a = Some k.
Proof.
  destruct a as [|x|x|x|xs], b as [|y|y|y|ys]; cbn [py_hash py_eq];
    intros Heq Hb; simplify_eq; try done.
  - apply Z.eqb_eq in Heq. by rewrite Heq.
  - apply Z.eqb_eq in Heq. by rewrite Heq.
  - apply Z.eqb_eq in Heq. by rewrite Heq.
  - apply Z.eqb_eq in Heq. by rewrite Heq.
  - apply String.eqb_eq in Heq. by rewrite Heq.
Qed.

Lemma deref_push_suppressed (d r : nat) (name reason : string) (s : state) :
  (r < length (heap s))%nat →
  deref (heap (push_suppressed d name reason s)) r = deref (heap s) r.
Proof. intros Hr. simpl. by apply deref_app_l. Qed.

Lemma push_all_length (l : list nat) (name reason : string) (s : state) :
  length (heap (push_all l name reason s)) = (length (heap s) + length l)%nat.
Proof.
  revert s. induction l as [|d l IH]; intros s; simpl; [lia|].
  rewrite IH. simpl. rewrite length_app. simpl. lia.
Qed.

Lemma deref_push_all (l : list nat) (r : nat) (name reason : string) (s : state) :
  (r < length (heap s))%nat →
  deref (heap (push_all l name reason s)) r = deref (heap s) r.
Proof.
  revert s. induction l as [|d l IH]; intros s Hr; [done|]. simpl.
  rewrite IH; [by apply deref_push_suppressed|].
  simpl. rewrite length_app. lia.
Qed.

Lemma deref_claim_eq (X : string) (k : hkey) (d : nat) (s : state) :
  (d < length (heap s))%nat →
  deref (heap (claim X k d s)) d = <["suppressed_by" := PNone]> (deref (heap s) d).
Proof. intros Hd. simpl. unfold deref at 1. by rewrite list_lookup_insert_eq. Qed.

Lemma deref_claim_ne (X : string) (k : hkey) (d r : nat) (s : state) :
  r ≠ d → deref (heap (claim X k d s)) r = deref (heap s) r.
Proof. intros Hne. simpl. unfold deref. by rewrite list_lookup_insert_ne. Qed.

Lemma usable_trace_copy (o : gmap string pyval) (name reason : string) :
  dict_get (suppressed_copy o name reason) "trace_id" = dict_get o "trace_id".
Proof. unfold dict_get, suppressed_copy. by rewrite !lookup_insert_ne. Qed.

(** The records that one loop iteration allocates are engine copies. *)
Lemma process_one_allocates (X : string) (active : list nat) (d : nat) (s : state)
    (r : nat) (o : gmap string pyval) :
  heap (process_one X active d s).2 !! r = Some o →
  (length (heap s) ≤ r)%nat → engine_copy o.
Proof.
  rewrite process_one_eq. cbv zeta.
  destruct (truthy _) eqn:Ht; simpl negb; cbv iota.
  2:{ simpl. intros Hr Hle. apply lookup_lt_Some in Hr. lia. }
  destruct (py_hash _) as [k|] eqn:Hk.
  2:{ simpl. intros Hr Hle. apply lookup_lt_Some in Hr. lia. }
  assert (usable_trace (deref (heap s) d)) as Hd by (split; [done|by eexists]).
  assert (∀ reason, reason_form reason →
            heap (push_suppressed d X reason s) !! r = Some o →
            (length (heap s) ≤ r)%nat → engine_copy o) as Hpush.
  { intros reason Hre. simpl. intros Hr Hle.
    rewrite lookup_app_r in Hr by done.
    destruct (r - length (heap s))%nat; [|done]. injection Hr as <-.
    by eexists _, _, _. }
  assert (∀ s1, heap s1 = heap s → heap (claim X k d s1) !! r = Some o →
                (length (heap s) ≤ r)%nat → engine_copy o) as Hclaim.
  { intros s1 Hs1. simpl. rewrite Hs1. intros Hr Hle.
    apply lookup_lt_Some in Hr. rewrite length_insert in Hr. lia. }
  destruct (_ && _).
  { apply Hpush. by left. }
  destruct (trace_ownership s !! k) as [owner|]; [|by apply Hclaim].
  destruct (_ >? _).
  { apply Hpush. right. left. by eexists. }
  destruct (_ <? _); [|by apply Hclaim].
  destruct (split_active _ _ _ _) as [[ts rem]|e] eqn:Hsplit.
  2:{ simpl. intros Hr Hle. apply lookup_lt_Some in Hr. lia. }
  apply split_active_Ok in Hsplit as (-> & -> & _).
  set (tid := dict_get (deref (heap s) d) "trace_id") in *.
  set (ts := List.filter (owned_by (heap s) tid owner) (active_detections s)).
  destruct (transfer_state s tid owner ("superseded_by:" +:+ X) Ht) as [Hh _].
  fold ts in Hh. pose proof (truthy_trace_id_valid _ _ Ht) as Hdv.
  simpl. rewrite Hh. intros Hr Hle.
  rewrite list_lookup_insert_ne in Hr by lia.
  rewrite lookup_app_r in Hr by done.
  rewrite list_lookup_fmap in Hr.
  destruct (ts !! (r - length (heap s))%nat) as [r0|] eqn:Hr0; [|done].
  injection Hr as <-. eexists _, _, _. split; [done|]. split.
  - apply list_elem_of_lookup_2, list_elem_of_In, filter_In in Hr0 as [_ Hown].
    apply andb_prop in Hown as [Heq _]. split.
    + by rewrite (py_eq_truthy _ _ Heq).
    + exists k. by eapply py_eq_hashable.
  - right. right. by eexists.
Qed.

Lemma run_inv_drop_local (h0 : list (gmap string pyval)) (local : list nat) (s : state) :
  run_inv h0 local s → run_inv h0 [] s.
Proof.
  intros (H1 & H2 & H3 & H4 & H5). split_and!; try done.
  intros r Hr. apply H2. rewrite app_nil_r in Hr. apply elem_of_app. by left.
Qed.

Lemma step_run_inv (h0 : list (gmap string pyval)) (X : string)
    (active : list nat) (d : nat) (s s' : state) (out : outcome (list nat)) :
  process_one X active d s = (out, s') → (d < length h0)%nat →
  run_inv h0 active s →
  run_inv h0 (match out with Ok a => a | Raise _ => active end) s'.
Proof.
  intros Hrun Hd (H1 & H2 & H3 & H4 & H5).
  pose proof (process_one_inv _ _ _ _ _ _ Hrun) as Hstep.
  pose proof (step_frame _ _ _ _ _ _ Hstep) as (_ & _ & Hn & _ & Hext).
  pose proof (stable_ext _ _ _ _ H1 Hext) as H1'.
  pose proof H1 as [Hlen _]. pose proof Hext as [Hlen' Hrec].
  assert (dict_get (deref (heap s) d) "trace_id" = dict_get (deref h0 d) "trace_id")
    as Htid.
  { unfold dict_get. by rewrite (stable_get h0 (heap s) d "trace_id" H1 Hd). }
  assert (∀ r, r ∈ suppressed_detections s' →
               (length h0 ≤ r < length (heap s'))%nat) as H4'.
  { intros r Hr. destruct (Hn r Hr) as [Hold|Hnew]; [|lia].
    specialize (H4 r Hold). lia. }
  assert (∀ r o, heap s' !! r = Some o → (length h0 ≤ r)%nat → engine_copy o) as H5'.
  { intros r o Hr Hle. destruct (decide (r < length (heap s))%nat) as [Hlt|Hge].
    - destruct (lookup_lt_is_Some_2 (heap s) r Hlt) as [o0 Ho0].
      destruct (Hrec r o0 Ho0) as (o' & Ho' & _ & Heq).
      rewrite Ho' in Hr. injection Hr as <-. rewrite Heq.
      + by eapply H5.
      + intros ->%list_elem_of_singleton. lia.
    - apply (process_one_allocates X active d s r); [by rewrite Hrun|lia]. }
  (* what accepting [d] on top of a state [s1] with the raw records of [s] gives *)
  assert (∀ s1 k,
            truthy (dict_get (deref (heap s) d) "trace_id") = true →
            py_hash (dict_get (deref (heap s) d) "trace_id") = Some k →
            (∀ r, (r < length (heap s))%nat → deref (heap s1) r = deref (heap s) r) →
            (length (heap s) ≤ length (heap s1))%nat →
            active_detections s1 ⊆ active_detections s →
            (∀ r, r ∈ active_detections (claim X k d s1) ++ (active ++ [d]) →
                  (r < length h0)%nat ∧
                  (truthy (dict_get (deref h0 r) "trace_id") = true →
                   is_Some (trace_key h0 r)) ∧
                  (is_Some (trace_key h0 r) →
                   deref (heap (claim X k d s1)) r !! "suppressed_by" = Some PNone)) ∧
            (∀ r, (r < length h0)%nat →
                  truthy (dict_get (deref h0 r) "trace_id") = false →
                  deref (heap (claim X k d s1)) r = deref h0 r)) as Haccept.
  { intros s1 k Ht Hk Hsame Hl1 Hsub. split.
    - intros r Hr.
      assert (r = d ∨ r ∈ active_detections s ++ active) as [->|Hold].
      { simpl in Hr. rewrite !elem_of_app in Hr. rewrite elem_of_app.
        destruct Hr as [Hr|[Hr|Hr%list_elem_of_singleton]]; auto. }
      + split_and!; [done| |].
        * intros _. exists k. apply trace_key_Some; by rewrite <- Htid.
        * intros _. rewrite deref_claim_eq by lia. apply lookup_insert_eq.
      + destruct (H2 r Hold) as (Hv & Hh & Htag). split_and!; [done..|].
        intros Hkey. destruct (decide (r = d)) as [->|Hne].
        * rewrite deref_claim_eq by lia. apply lookup_insert_eq.
        * rewrite deref_claim_ne by done. rewrite Hsame by lia. by apply Htag.
    - intros r Hv Hf. destruct (decide (r = d)) as [->|Hne]; [congruence|].
      rewrite deref_claim_ne by done. rewrite Hsame by lia. by apply H3. }
  destruct Hstep as [Ht|Ht Hh|k owner e Ht Hh Ho Hlt Hsplit|k owner reason Ht Hh Ho
                     |k Ht Hh Ho|k owner trace_id Ht Hh Ho Hlt Hall].
  - split_and!; try done. intros r Hr.
    rewrite app_assoc in Hr.
    apply elem_of_app in Hr as [Hr| ->%list_elem_of_singleton]; [by apply H2|].
    split_and!; [done|congruence|].
    intros [k Hk]. apply trace_key_inv in Hk as [Hk _]. congruence.
  - by split_and!.
  - by split_and!.
  - split_and!; try done.
    + intros r Hr. destruct (H2 r Hr) as (Hv & Hh' & Htag). split_and!; [done..|].
      intros Hkey. rewrite deref_push_suppressed by lia. by apply Htag.
    + intros r Hv Hf. rewrite deref_push_suppressed by lia. by apply H3.
  - destruct (Haccept s k Ht Hh) as [Ha2 Ha3]; [done..|]. by split_and!.
  - set (s1 := set_active_detections _ _) in *.
    destruct (Haccept s1 k Ht Hh) as [Ha2 Ha3].
    + intros r Hr. subst s1. simpl. by apply deref_push_all.
    + subst s1. simpl. rewrite push_all_length. lia.
    + subst s1. simpl. apply filter_subseteq.
    + by split_and!.
Qed.

Lemma process_loop_run_inv (h0 : list (gmap string pyval)) (X : string)
    (ds active : list nat) (s s' : state) (out : outcome (list nat)) :
  process_loop X active ds s = (out, s') →
  Forall (λ d, d < length h0)%nat ds →
  run_inv h0 active s →
  run_inv h0 (match out with Ok a => a | Raise _ => [] end) s'.
Proof.
  revert active s. induction ds as [|d ds IH]; intros active s; simpl.
  - by intros [= <- <-] _ Hinv.
  - unfold bind. destruct (process_one X active d s) as [[a1|e] s1] eqn:H1.
    + intros H2 [Hd Hds]%Forall_cons Hinv. eapply IH; [done..|].
      by apply (step_run_inv h0 _ _ _ _ _ _ H1 Hd).
    + intros [= <- <-] [Hd Hds]%Forall_cons Hinv.
      eapply run_inv_drop_local. by apply (step_run_inv h0 _ _ _ _ _ _ H1 Hd).
Qed.

Lemma process_detections_run_inv (h0 : list (gmap string pyval)) (X : string)
    (ds : list nat) (s : state) :
  Forall (λ d, d < length h0)%nat ds →
  run_inv h0 [] s → run_inv h0 [] (process_detections X ds s).2.
Proof.
  intros Hds Hinv. unfold process_detections, bind, modify, ret.
  destruct (process_loop X [] ds s) as [[a|e] s1] eqn:H1; simpl.
  - destruct (process_loop_run_inv h0 _ _ _ _ _ _ H1 Hds Hinv)
      as (I1 & I2 & I3 & I4 & I5).
    split_and!; try done. simpl. intros r Hr. rewrite app_nil_r in Hr.
    by apply I2.
  - by apply (process_loop_run_inv h0 _ _ _ _ _ _ H1 Hds Hinv).
Qed.

Lemma operate_run_inv (h0 : list (gmap string pyval)) (ops : list operation)
    (s : state) :
  Forall (λ d, d < length h0)%nat (fed ops) →
  run_inv h0 [] s → run_inv h0 [] (operate ops s).
Proof.
  revert s. induction ops as [|op ops IH]; intros s Hv Hinv; [done|].
  unfold fed in Hv. simpl in Hv. apply Forall_app in Hv as [Hop Hv]. simpl.
  apply IH; [done|]. destruct op as [X ds|]; simpl.
  - by apply process_detections_run_inv.
  - by rewrite get_suppression_summary_reads.
Qed.

Lemma init_run_inv (h : list (gmap string pyval))
    (config : gmap string (gmap string pyval)) (incl : bool) :
  run_inv h [] (init h config incl).
Proof.
  split_and!; simpl.
  - apply stable_refl.
  - by intros r Hr%elem_of_nil.
  - done.
  - by intros r Hr%elem_of_nil.
  - intros r o Hr Hle. apply lookup_lt_Some in Hr. lia.
Qed.

Lemma trace_ids_ok (h : list (gmap string pyval)) (l : list nat) :
  (∀ r, r ∈ l → truthy (dict_get (deref h r) "trace_id") = true →
        is_Some (py_hash (dict_get (deref h r) "trace_id"))) →
  ∃ ks, trace_ids h l = Ok ks.
Proof.
  induction l as [|d l IH]; intros Hl; simpl; [by eexists|].
  destruct IH as [ks Hks].
  { intros r Hr. apply Hl. by apply list_elem_of_further. }
  rewrite Hks. destruct (truthy _) eqn:Ht; [|by eexists].
  destruct (Hl d (list_elem_of_here _ _) Ht) as [k ->]. by eexists.
Qed.

Lemma breakdown_ok (h : list (gmap string pyval)) (l : list nat) (acc : gmap hkey nat) :
  (∀ r, r ∈ l →
        is_Some (py_hash (dict_get_or (deref h r) "suppression_reason" (PStr "unknown")))) →
  ∃ m, breakdown h acc l = Ok m.
Proof.
  revert acc. induction l as [|d l IH]; intros acc Hl; simpl; [by eexists|].
  destruct (Hl d (list_elem_of_here _ _)) as [k ->].
  apply IH. intros r Hr. apply Hl. by apply list_elem_of_further.
Qed.

(** X8. After any sequence of operations on raw detections, whatever the
    records hold and whichever calls raised, [get_suppression_summary]
    returns: a record whose trace id or reason could not be hashed never
    gets into the lists. *)
Theorem summary_returns_after_run (h : list (gmap string pyval))
    (config : gmap string (gmap string pyval)) (incl : bool)
    (ops : list operation) :
  Forall (λ d, d < length h)%nat (fed ops) →
  ∃ r, get_suppression_summary (operate ops (init h config incl))
       = (Ok r, operate ops (init h config incl)).
Proof.
  intros Hv.
  destruct (operate_run_inv h ops _ Hv (init_run_inv h config incl))
    as (I1 & I2 & I3 & I4 & I5).
  set (s := operate ops (init h config incl)) in *.
  assert (∀ r, r ∈ suppressed_detections s →
               ∃ o, deref (heap s) r = o ∧ engine_copy o) as Hsup.
  { intros r Hr. specialize (I4 r Hr).
    destruct (lookup_lt_is_Some_2 (heap s) r) as [o Ho]; [lia|].
    exists o. split; [by apply deref_lookup|]. eapply I5; [done|lia]. }
  destruct (trace_ids_ok (heap s) (active_detections s ++ suppressed_detections s))
    as [ks Hks].
  { intros r [Hr|Hr]%elem_of_app Ht.
    - destruct (I2 r) as (Hlt & Hh & _); [rewrite app_nil_r; done|].
      unfold dict_get in *.
      rewrite (stable_get h (heap s) r "trace_id" I1 Hlt) in * by done.
      destruct (Hh Ht) as [k Hk]. apply trace_key_inv in Hk as [_ Hk]. by exists k.
    - destruct (Hsup r Hr) as (o & -> & o0 & name & reason & -> & [_ Hu] & _).
      by rewrite usable_trace_copy. }
  destruct (breakdown_ok (heap s) (suppressed_detections s) ∅) as [m Hm].
  { intros r Hr.
    destruct (Hsup r Hr) as (o & -> & o0 & name & reason & -> & _ & _).
    unfold dict_get_or, suppressed_copy.
    rewrite lookup_insert_ne, lookup_insert_eq by done. by eexists. }
  unfold get_suppression_summary, bind, get, ret. rewrite Hks, Hm. by eexists.
Qed.

Lemma summary_returns_after_run_witness :
  let ops := [Process "OverkillModelDetector" [0%nat];
              Process "RetryLoopDetector" [2%nat; 1%nat]; Summary] in
  (process_detections "RetryLoopDetector" [2%nat; 1%nat]
     (operate [Process "OverkillModelDetector" [0%nat]]
        (init garbage_heap ∅ false))).1 = Raise TypeError ∧
  ∃ r, get_suppression_summary (operate ops (init garbage_heap ∅ false))
       = (Ok r, operate ops (init garbage_heap ∅ false)).
Proof.
  split; [vm_compute; reflexivity|].
  apply summary_returns_after_run. vm_compute. repeat constructor.
Defined.

(** X9. After any sequence of operations on raw detections, every entry of
    the suppressed list is a record that the engine allocated, not a raw
    detection; it carries a truthy, hashable trace id, names one detector
    in both [suppressed_by] and [detector], and its reason is
    [disabled_by_config], [higher_priority_detector:<name>] or
    [superseded_by:<name>]. *)
Theorem suppressed_entries_shape (h : list (gmap string pyval))
    (config : gmap string (gmap string pyval)) (incl : bool)
    (ops : list operation) (r : nat) :
  Forall (λ d, d < length h)%nat (fed ops) →
  r ∈ suppressed_detections (operate ops (init h config incl)) →
  (length h ≤ r)%nat ∧
  ∃ o name reason,
    heap (operate ops (init h config incl)) !! r = Some o ∧
    usable_trace o ∧
    dict_get o "suppressed_by" = PStr name ∧
    dict_get o "detector" = PStr name ∧
    dict_get o "suppression_reason" = PStr reason ∧
    reason_form reason.
Proof.
  intros Hv Hr.
  destruct (operate_run_inv h ops _ Hv (init_run_inv h config incl))
    as (_ & _ & _ & I4 & I5).
  specialize (I4 r Hr). split; [lia|].
  destruct (lookup_lt_is_Some_2 (heap (operate ops (init h config incl))) r)
    as [o Ho]; [lia|].
  destruct (I5 r o Ho) as (o0 & name & reason & -> & Hu & Hre); [lia|].
  exists (suppressed_copy o0 name reason), name, reason.
  destruct (suppressed_copy_reason o0 name reason) as (? & ? & ?).
  split_and!; try done. unfold usable_trace. by rewrite usable_trace_copy.
Qed.

Lemma suppressed_entries_shape_witness :
  let ops := [Process "FallbackFailureDetector" [2%nat];
              Process "RetryLoopDetector" [0%nat]; Summary;
              Process "FallbackStormDetector" [1%nat]] in
  suppressed_detections (operate ops (init sample_heap sample_rules false))
  = [4%nat; 5%nat] ∧
  (length sample_heap ≤ 5)%nat ∧
  ∃ o name reason,
    heap (operate ops (init sample_heap sample_rules false)) !! 5%nat = Some o ∧
    usable_trace o ∧
    dict_get o "suppressed_by" = PStr name ∧
    dict_get o "detector" = PStr name ∧
    dict_get o "suppression_reason" = PStr reason ∧
    reason_form reason.
Proof.
  split; [vm_compute; reflexivity|].
  apply suppressed_entries_shape.
  - vm_compute. repeat constructor.
  - vm_compute. apply list_elem_of_further, list_elem_of_here.
Defined.

(** X10. After any sequence of operations on raw detections, an active
    detection is a raw record, and either it carries a truthy, hashable
    trace id and is marked [suppressed_by = None], or its trace id is absent
    or falsy and the record is exactly as it was fed in: the engine does not
    mark the detections it accepts for want of a trace id. *)
Theorem active_entries_marking (h : list (gmap string pyval))
    (config : gmap string (gmap string pyval)) (incl : bool)
    (ops : list operation) (r : nat) :
  Forall (λ d, d < length h)%nat (fed ops) →
  r ∈ active_detections (operate ops (init h config incl)) →
  let s := operate ops (init h config incl) in
  (r < length h)%nat ∧
  ((usable_trace (deref (heap s) r) ∧
    deref (heap s) r !! "suppressed_by" = Some PNone) ∨
   (truthy (dict_get (deref (heap s) r) "trace_id") = false ∧
    deref (heap s) r = deref h r)).
Proof.
  intros Hv Hr s.
  destruct (operate_run_inv h ops _ Hv (init_run_inv h config incl))
    as (I1 & I2 & I3 & _ & _).
  fold s in I1, I2, I3.
  destruct (I2 r) as (Hlt & Hh & Htag); [rewrite app_nil_r; done|].
  split; [done|].
  assert (dict_get (deref (heap s) r) "trace_id" = dict_get (deref h r) "trace_id")
    as Htid.
  { unfold dict_get. by rewrite (stable_get h (heap s) r "trace_id" I1 Hlt). }
  unfold usable_trace. rewrite Htid.
  destruct (truthy (dict_get (deref h r) "trace_id")) eqn:Ht.
  - left. destruct (Hh eq_refl) as [k Hk]. split.
    + split; [done|]. apply trace_key_inv in Hk as [_ Hk]. by exists k.
    + apply Htag. by exists k.
  - right. split; [done|]. by apply I3.
Qed.

Lemma active_entries_marking_witness :
  let ops := [Process "RetryLoopDetector" [2%nat; 0%nat; 1%nat]] in
  let s := operate ops (init anonymous_heap ∅ false) in
  active_detections s = [2%nat; 0%nat; 1%nat] ∧
  deref (heap s) 0 !! "suppressed_by" = None ∧
  (0 < length anonymous_heap)%nat ∧
  ((usable_trace (deref (heap s) 0) ∧
    deref (heap s) 0 !! "suppressed_by" = Some PNone) ∨
   (truthy (dict_get (deref (heap s) 0) "trace_id") = false ∧
    deref (heap s) 0 = deref anonymous_heap 0)).
Proof.
  split; [vm_compute; reflexivity|]. split; [vm_compute; reflexivity|].
  apply (active_entries_marking anonymous_heap ∅ false
           [Process "RetryLoopDetector" [2%nat; 0%nat; 1%nat]] 0%nat).
  - vm_compute. repeat constructor.
  - vm_compute. apply list_elem_of_further, list_elem_of_here.
Defined.

(* ===================================================================== *)
(** ** The traces that the summary counts *)
(* ===================================================================== *)

Lemma trace_ids_elem (h : list (gmap string pyval)) (l : list nat) (ks : gset hkey) :
  trace_ids h l = Ok ks →
  ∀ k, k ∈ ks ↔ ∃ r, r ∈ l ∧ trace_key h r = Some k.
Proof.
  revert ks. induction l as [|d l IH]; intros ks; simpl.
  - intros [= <-] k. split; [set_solver|]. by intros (r & Hr%elem_of_nil & _).
  - unfold trace_key in *. destruct (truthy _) eqn:Ht.
    + destruct (py_hash _) as [k0|] eqn:Hk0; [|done].
      destruct (trace_ids h l) as [ks'|e]; [|done]. intros [= <-] k.
      rewrite elem_of_union, elem_of_singleton, (IH ks' eq_refl k). split.
      * intros [->|(r & Hr & Hk)].
        -- exists d. split; [apply list_elem_of_here|]. by rewrite Ht.
        -- exists r. split; [by apply list_elem_of_further|done].
      * intros (r & [->|Hr]%elem_of_cons & Hk).
        -- left. rewrite Ht in Hk. congruence.
        -- right. by exists r.
    + intros Hks k. rewrite (IH ks Hks k). split.
      * intros (r & Hr & Hk). exists r. split; [by apply list_elem_of_further|done].
      * intros (r & [->|Hr]%elem_of_cons & Hk).
        -- by rewrite Ht in Hk.
        -- by exists r.
Qed.

Lemma step_keys_inv (h0 : list (gmap string pyval)) (fed_so_far : list nat)
    (X : string) (active active' : list nat) (d : nat) (s s' : state) :
  step X active d s (Ok active') s' → (d < length h0)%nat →
  keys_inv h0 fed_so_far s → keys_inv h0 (fed_so_far ++ [d]) s'.
Proof.
  intros Hstep Hd (Hst & HK & HU).
  pose proof (step_frame _ _ _ _ _ _ Hstep) as (_ & _ & _ & _ & Hext).
  pose proof (step_owners _ _ _ _ _ _ Hstep) as Himp.
  split; [by eapply stable_ext|].
  assert (∀ k, is_Some (trace_ownership s !! k) → is_Some (trace_ownership s' !! k))
    as Hkeep.
  { intros k [O HO]. destruct (Himp k O HO) as (O' & HO' & _). by exists O'. }
  assert (∀ k, truthy (dict_get (deref (heap s) d) "trace_id") = true →
               py_hash (dict_get (deref (heap s) d) "trace_id") = Some k →
               trace_key h0 d = Some k) as Hkey.
  { intros k Ht Hk. rewrite <- (trace_key_stable h0 (heap s) d Hst Hd).
    by apply trace_key_Some. }
  assert (∀ k, trace_key h0 d = Some k →
               truthy (dict_get (deref (heap s) d) "trace_id") = true ∧
               py_hash (dict_get (deref (heap s) d) "trace_id") = Some k) as Hkey'.
  { intros k Hk. rewrite <- (trace_key_stable h0 (heap s) d Hst Hd) in Hk.
    by apply trace_key_inv. }
  assert (∀ r, r ∈ fed_so_far ++ [d] → r ∈ fed_so_far ∨ r = d) as Hin.
  { intros r [Hr| ->%list_elem_of_singleton]%elem_of_app; auto. }
  assert (∀ r k, r ∈ fed_so_far → trace_key h0 r = Some k →
                 ∃ r', r' ∈ fed_so_far ++ [d] ∧ trace_key h0 r' = Some k) as Hwk.
  { intros r k Hr Hk. exists r. split; [|done]. apply elem_of_app. by left. }
  assert (∀ k, trace_key h0 d = Some k →
               ∃ r', r' ∈ fed_so_far ++ [d] ∧ trace_key h0 r' = Some k) as Hwd.
  { intros k Hk. exists d. split; [|done]. apply elem_of_app. right.
    apply list_elem_of_here. }
  inversion Hstep; subst; clear Hstep.
  - split.
    + intros r k [Hr| ->]%Hin Hk; [by eapply HK|].
      apply Hkey' in Hk as [Hk _]. congruence.
    + intros k Hs. destruct (HU k Hs) as (r & Hr & Hk). by eapply Hwk.
  - split.
    + intros r k' [Hr| ->]%Hin Hk; [by eapply Hkeep, HK|].
      apply Hkey' in Hk as [_ Hk]. simpl. by replace k' with k by congruence.
    + simpl. intros k' Hs. destruct (HU k' Hs) as (r & Hr & Hk). by eapply Hwk.
  - split.
    + intros r k' [Hr| ->]%Hin Hk; [by eapply Hkeep, HK|].
      apply Hkey' in Hk as [_ Hk]. simpl. replace k' with k by congruence.
      by rewrite lookup_insert_eq.
    + simpl. intros k'. rewrite lookup_insert. case_decide as Hkk.
      * subst k'. intros _. apply Hwd. by apply Hkey.
      * intros Hs. destruct (HU k' Hs) as (r & Hr & Hk). by eapply Hwk.
  - repeat match goal with x := _ : pyval |- _ => subst x end.
    split.
    + intros r k' [Hr| ->]%Hin Hk; [by eapply Hkeep, HK|].
      apply Hkey' in Hk as [_ Hk]. simpl. replace k' with k by congruence.
      by rewrite lookup_insert_eq.
    + simpl. rewrite push_all_ownership. intros k'. rewrite lookup_insert.
      case_decide as Hkk.
      * subst k'. intros _. apply Hwd. by apply Hkey.
      * intros Hs. destruct (HU k' Hs) as (r & Hr & Hk). by eapply Hwk.
Qed.

Lemma process_loop_keys_inv (h0 : list (gmap string pyval)) (X : string)
    (ds fed_so_far active active' : list nat) (s s' : state) :
  process_loop X active ds s = (Ok active', s') →
  Forall (λ r, r < length h0)%nat ds →
  keys_inv h0 fed_so_far s → keys_inv h0 (fed_so_far ++ ds) s'.
Proof.
  revert fed_so_far active s. induction ds as [|d ds IH]; intros fed0 active s; simpl.
  - intros [= <- <-] _. by rewrite app_nil_r.
  - unfold bind. destruct (process_one X active d s) as [[a1|e] s1] eqn:H1; [|done].
    intros H2 [Hd Hds]%Forall_cons Hinv. apply process_one_inv in H1.
    rewrite (cons_middle d fed0 ds), app_assoc.
    eapply IH; [done..|]. by eapply step_keys_inv.
Qed.

Lemma run_keys_inv (h0 : list (gmap string pyval))
    (calls : list (string * list nat)) (fed_so_far : list nat) (s : state) :
  completes calls s = true →
  Forall (λ r, r < length h0)%nat (concat calls.*2) →
  keys_inv h0 fed_so_far s →
  keys_inv h0 (fed_so_far ++ concat calls.*2) (run calls s).
Proof.
  revert fed_so_far s. induction calls as [|[X ds] calls IH]; intros fed0 s; simpl.
  - intros _ _. by rewrite app_nil_r.
  - destruct (process_detections X ds s) as [[a|e] s1] eqn:H1; [|done]. simpl.
    intros Hc [Hds Hrest]%Forall_app Hinv.
    rewrite app_assoc. apply IH; [done..|].
    unfold process_detections, bind, modify, ret in H1.
    destruct (process_loop X [] ds s) as [[a'|e] s2] eqn:H2; [|done].
    injection H1 as <- <-.
    destruct (process_loop_keys_inv h0 _ _ _ _ _ _ _ H2 Hds Hinv) as (K1 & K2 & K3).
    by split_and!.
Qed.

(** X11. When every call of a run over raw detections returns, the number
    of traces that the summary reports is the number of entries of the
    ownership table: the traces of the active and suppressed detections are
    exactly the owned ones. *)
Theorem summary_counts_owned_traces (h : list (gmap string pyval))
    (config : gmap string (gmap string pyval)) (incl : bool)
    (calls : list (string * list nat)) (r : summary) :
  Forall (λ d, d < length h)%nat (concat calls.*2) →
  completes calls (init h config incl) = true →
  (get_suppression_summary (run calls (init h config incl))).1 = Ok r →
  total_traces_analyzed r = size (trace_ownership (run calls (init h config incl))).
Proof.
  intros Hv Hc Hsum. set (s := run calls (init h config incl)) in *.
  destruct (run_partition h calls [] (init h config incl) Hc)
    as (Hst & moved & Hp & Hcp); [done|done| |].
  { split; [apply stable_refl|]. exists []. simpl. by split. }
  destruct (run_keys_inv h calls [] (init h config incl) Hc Hv) as (_ & HK & HU).
  { split_and!; [apply stable_refl| |]; simpl.
    - by intros r0 k Hr%elem_of_nil.
    - intros k [O HO]. by rewrite lookup_empty in HO. }
  fold s in Hst, Hp, Hcp, HK, HU. rewrite app_nil_r in Hp. simpl in Hp, HK, HU.
  unfold get_suppression_summary, bind, get, ret, raise in Hsum.
  destruct (trace_ids _ _) as [ks|e] eqn:Hks; [|done].
  destruct (breakdown _ _ _) as [counts|e]; [|done].
  simpl in Hsum. injection Hsum as <-. simpl.
  rewrite <- size_dom. f_equal. apply set_eq. intros k.
  rewrite (trace_ids_elem _ _ _ Hks k), elem_of_dom.
  assert (Forall (λ d, d < length h)%nat (active_detections s ++ moved)) as Hvalid.
  { by rewrite Hp. }
  apply Forall_app in Hvalid as [Hva Hvm]. rewrite Forall_forall in Hva, Hvm.
  split.
  - intros (r0 & [Hr|Hr]%elem_of_app & Hk).
    + apply (HK r0); [rewrite <- Hp; apply elem_of_app; by left|].
      by rewrite <- (trace_key_stable h (heap s) r0 Hst (Hva r0 Hr)).
    + apply list_elem_of_lookup in Hr as [i Hi].
      destruct (Forall2_lookup_l _ _ _ _ _ Hcp Hi) as (r1 & Hm & _ & name & reason & Hc1).
      apply (HK r1); [rewrite <- Hp; apply elem_of_app; right;
                       by eapply list_elem_of_lookup_2|].
      unfold trace_key in *. rewrite (deref_lookup _ _ _ Hc1) in Hk.
      by rewrite usable_trace_copy in Hk.
  - intros Hs. destruct (HU k Hs) as (r1 & Hr1 & Hk).
    rewrite <- Hp in Hr1. apply elem_of_app in Hr1 as [Hr1|Hr1].
    + exists r1. split; [apply elem_of_app; by left|].
      by rewrite (trace_key_stable h (heap s) r1 Hst (Hva r1 Hr1)).
    + apply list_elem_of_lookup in Hr1 as [i Hi].
      destruct (Forall2_lookup_r _ _ _ _ _ Hcp Hi) as (r0 & Hs0 & _ & name & reason & Hc1).
      exists r0. split; [apply elem_of_app; right; by eapply list_elem_of_lookup_2|].
      unfold trace_key in *. rewrite (deref_lookup _ _ _ Hc1).
      by rewrite usable_trace_copy.
Qed.

Lemma summary_counts_owned_traces_witness :
  let h := [ detection_of "t1" "retry_loop"; detection_of "t2" "fallback_storm";
             detection_of "t1" "fallback_storm"; detection_of "t2" "retry_loop";
             {[ "type" := PStr "overkill_model" ]} ] in
  let calls := [("FallbackStormDetector", [1%nat; 2%nat]);
                ("RetryLoopDetector", [0%nat; 3%nat]);
                ("OverkillModelDetector", [4%nat])] in
  ∃ r, (get_suppression_summary (run calls (init h ∅ false))).1 = Ok r ∧
       total_traces_analyzed r = 2%nat ∧
       total_traces_analyzed r = size (trace_ownership (run calls (init h ∅ false))).
Proof.
  intros h calls.
  destruct (get_suppression_summary (run calls (init h ∅ false))).1 as [r|e] eqn:Hsum.
  - exists r. split; [done|]. split.
    + vm_compute in Hsum. by injection Hsum as <-.
    + apply summary_counts_owned_traces; [|vm_compute; reflexivity|done].
      vm_compute. repeat constructor.
  - vm_compute in Hsum. discriminate.
Defined.

(* ===================================================================== *)
(** ** A detector that no owner outranks *)
(* ===================================================================== *)

Lemma unrivalled_insert (X : string) (k : hkey) (s s' : state) :
  trace_ownership s' = <[k := X]> (trace_ownership s) →
  unrivalled X s → unrivalled X s'.
Proof.
  intros Heq Hu k' O. rewrite Heq, lookup_insert.
  case_decide; [intros [= <-]; lia|apply Hu].
Qed.

Lemma unrivalled_step (X : string) (active : list nat) (d : nat) (s : state) :
  unrivalled X s → config_flag X s = false → Forall record_ok (heap s) →
  ∃ s', process_one X active d s = (Ok (active ++ [d]), s') ∧
        unrivalled X s' ∧ config_flag X s' = false ∧ Forall record_ok (heap s').
Proof.
  intros Hu Hcfg Hok. rewrite process_one_eq. cbv zeta.
  destruct (truthy _) eqn:Ht; simpl negb; cbv iota; [|by eexists].
  destruct (record_ok_deref _ d Hok) as [_ Hk]. destruct (Hk Ht) as [k ->].
  rewrite Hcfg. simpl andb. cbv iota.
  destruct (trace_ownership s !! k) as [owner|] eqn:Ho.
  2:{ eexists. split; [done|]. split_and!.
      - by eapply unrivalled_insert.
      - done.
      - by apply claim_ok. }
  assert ((priority X >? priority owner) = false) as ->.
  { rewrite Z.gtb_ltb. apply Z.ltb_ge. by eapply Hu. }
  destruct (_ <? _).
  - rewrite split_active_typed.
    2:{ apply Forall_forall. intros r _. by apply record_ok_deref. }
    eexists. split; [done|]. split_and!.
    + eapply unrivalled_insert; [|done]. simpl. by rewrite push_all_ownership.
    + unfold config_flag. simpl. by rewrite push_all_config.
    + by apply claim_ok, push_all_ok.
  - eexists. split; [done|]. split_and!.
    + by eapply unrivalled_insert.
    + done.
    + by apply claim_ok.
Qed.

Lemma unrivalled_loop (X : string) (ds active : list nat) (s : state) :
  unrivalled X s → config_flag X s = false → Forall record_ok (heap s) →
  ∃ s', process_loop X active ds s = (Ok (active ++ ds), s').
Proof.
  revert active s. induction ds as [|d ds IH]; intros active s Hu Hcfg Hok; simpl.
  - exists s. by rewrite app_nil_r.
  - destruct (unrivalled_step X active d s Hu Hcfg Hok) as (s1 & H1 & Hu1 & Hc1 & Hok1).
    unfold bind. rewrite H1.
    destruct (IH (active ++ [d]) s1 Hu1 Hc1 Hok1) as [s' Hs'].
    exists s'. by rewrite Hs', <- app_assoc.
Qed.

(** X12. A detector that no current owner outranks, and that the rules do
    not mention, gets every one of its detections accepted: on records the
    engine can handle, [process_detections] returns its input list.  This is
    so for [RetryLoopDetector] in every state. *)
Theorem unrivalled_detector_all_accepted (s : state) (X : string) (ds : list nat) :
  unrivalled X s → config_flag X s = false → Forall record_ok (heap s) →
  (process_detections X ds s).1 = Ok ds ∧
  ∀ s0, unrivalled "RetryLoopDetector" s0.
Proof.
  intros Hu Hcfg Hok. split.
  - destruct (unrivalled_loop X ds [] s Hu Hcfg Hok) as [s' Hs'].
    unfold process_detections, bind, modify, ret. by rewrite Hs'.
  - intros s0 k O _. rewrite priority_RetryLoop. apply priority_lower_bound.
Qed.

Lemma unrivalled_detector_all_accepted_witness :
  let s := run [("OverkillModelDetector", [3%nat]); ("FallbackStormDetector", [1%nat])]
             (init sample_heap sample_rules false) in
  (process_detections "RetryLoopDetector" [0%nat; 0%nat] s).1 = Ok [0%nat; 0%nat] ∧
  ∀ s0, unrivalled "RetryLoopDetector" s0.
Proof.
  apply unrivalled_detector_all_accepted.
  - intros k O _. rewrite priority_RetryLoop. apply priority_lower_bound.
  - vm_compute; reflexivity.
  - vm_compute. repeat constructor; try done; intros _; by eexists.
Defined.

(* ===================================================================== *)
(** ** Detections of other traces *)
(* ===================================================================== *)

Lemma heap_ext_trace_id (ds : list nat) (h h' : list (gmap string pyval)) (r : nat) :
  heap_ext ds h h' → (r < length h)%nat →
  dict_get (deref h' r) "trace_id" = dict_get (deref h r) "trace_id".
Proof.
  intros [_ He] Hr. destruct (lookup_lt_is_Some_2 h r Hr) as [o Ho].
  destruct (He r o Ho) as (o' & Ho' & Hraw & _).
  rewrite (deref_lookup _ _ _ Ho), (deref_lookup _ _ _ Ho'). unfold dict_get.
  by rewrite (same_raw_lookup o o' "trace_id" Hraw).
Qed.

Lemma step_other_trace (X : string) (active : list nat) (d r : nat)
    (s s' : state) (out : outcome (list nat)) :
  step X active d s out s' →
  py_eq (dict_get (deref (heap s) r) "trace_id")
        (dict_get (deref (heap s) d) "trace_id") = false →
  r ∈ active_detections s → r ∈ active_detections s'.
Proof.
  intros Hstep Hne Hr. destruct Hstep; simpl; try done.
  apply list_elem_of_In, filter_In. split; [by apply list_elem_of_In|].
  unfold owned_by. subst trace_id. by rewrite Hne.
Qed.

Lemma process_loop_other_trace (X : string) (ds active : list nat) (s s' : state)
    (out : outcome (list nat)) (r : nat) :
  process_loop X active ds s = (out, s') →
  (r < length (heap s))%nat →
  Forall (λ d, (d < length (heap s))%nat ∧
               py_eq (dict_get (deref (heap s) r) "trace_id")
                     (dict_get (deref (heap s) d) "trace_id") = false) ds →
  r ∈ active_detections s → r ∈ active_detections s'.
Proof.
  revert active s. induction ds as [|d ds IH]; intros active s; simpl.
  - by intros [= <- <-].
  - unfold bind. destruct (process_one X active d s) as [[a1|e] s1] eqn:H1.
    + apply process_one_inv in H1.
      intros H2 Hr [[Hd Hne] Hds]%Forall_cons Hin.
      pose proof (step_frame _ _ _ _ _ _ H1) as (_ & _ & _ & _ & Hext).
      pose proof Hext as [Hlen _].
      eapply IH; [done|lia| |by eapply step_other_trace].
      eapply Forall_impl; [exact Hds|]. simpl. intros d' [Hd' Hne'].
      split; [lia|].
      by rewrite (heap_ext_trace_id _ _ _ r Hext Hr),
                 (heap_ext_trace_id _ _ _ d' Hext Hd').
    + apply process_one_inv in H1.
      intros [= <- <-] Hr [[Hd Hne] Hds]%Forall_cons Hin.
      by eapply step_other_trace.
Qed.

(** X13. [process_detections] never removes an active detection of another
    trace: an active detection whose trace id differs (under [==]) from the
    trace id of every incoming detection is still active after the call,
    whether the call returns or raises. *)
Theorem other_traces_untouched (X : string) (ds : list nat) (s : state) (r : nat) :
  (r < length (heap s))%nat →
  Forall (λ d, (d < length (heap s))%nat ∧
               py_eq (dict_get (deref (heap s) r) "trace_id")
                     (dict_get (deref (heap s) d) "trace_id") = false) ds →
  r ∈ active_detections s →
  r ∈ active_detections (process_detections X ds s).2.
Proof.
  intros Hr Hds Hin. unfold process_detections, bind, modify, ret.
  destruct (process_loop X [] ds s) as [[a|e] s1] eqn:H1; simpl.
  - apply elem_of_app. left. by eapply process_loop_other_trace.
  - by eapply process_loop_other_trace.
Qed.

Lemma other_traces_untouched_witness :
  let h := [ detection_of "t1" "fallback_storm"; detection_of "t2" "fallback_storm";
             detection_of "t1" "retry_loop" ] in
  let s := run [("FallbackStormDetector", [0%nat; 1%nat])] (init h ∅ false) in
  active_detections (process_detections "RetryLoopDetector" [2%nat] s).2
  = [1%nat; 2%nat] ∧
  1%nat ∈ active_detections (process_detections "RetryLoopDetector" [2%nat] s).2.
Proof.
  split; [vm_compute; reflexivity|].
  apply other_traces_untouched.
  - vm_compute. lia.
  - vm_compute. repeat constructor.
  - vm_compute. apply list_elem_of_further, list_elem_of_here.
Defined.

(* ===================================================================== *)
(** ** The groups of the report *)
(* ===================================================================== *)

Lemma group_get_append (k k' : hkey) (d : nat) (groups : list (hkey * list nat)) :
  group_get k' (group_append k d groups)
  = if decide (k' = k) then Some (default [] (group_get k groups) ++ [d])
    else group_get k' groups.
Proof.
  induction groups as [|[k0 g] rest IH]; simpl.
  - destruct (decide (k' = k)); [done|]. by destruct (decide (k' = k)).
  - destruct (decide (k = k0)) as [->|Hk]; simpl.
    + destruct (decide (k' = k0)); [done|]. by destruct (decide (k' = k0)).
    + destruct (decide (k' = k0)) as [->|Hk'].
      * destruct (decide (k0 = k)); [congruence|]. done.
      * rewrite IH. done.
Qed.

Lemma group_get_None (k : hkey) (groups : list (hkey * list nat)) :
  group_get k groups = None ↔ (k ∉ groups.*1).
Proof.
  induction groups as [|[k0 g] rest IH]; simpl.
  - split; [intros _; apply not_elem_of_nil|done].
  - rewrite not_elem_of_cons. destruct (decide (k = k0)) as [->|Hk].
    + split; [done|]. by intros [? _].
    + rewrite IH. tauto.
Qed.

Lemma group_get_elem_of (k : hkey) (g : list nat) (groups : list (hkey * list nat)) :
  NoDup groups.*1 → (k, g) ∈ groups ↔ group_get k groups = Some g.
Proof.
  induction groups as [|[k0 g0] rest IH]; simpl; intros Hnd.
  - split; [by intros ?%elem_of_nil|done].
  - apply NoDup_cons in Hnd as [Hk0 Hnd]. rewrite elem_of_cons.
    destruct (decide (k = k0)) as [->|Hk].
    + split.
      * intros [[= ->]|Hin]; [done|]. exfalso. apply Hk0.
        apply list_elem_of_fmap. by exists (k0, g).
      * intros [= ->]. by left.
    + rewrite <- (IH Hnd). split; [|by right]. intros [[= -> _]|?]; done.
Qed.

Lemma group_append_keys (k : hkey) (d : nat) (groups : list (hkey * list nat)) :
  (group_append k d groups).*1
  = if decide (k ∈ groups.*1) then groups.*1 else groups.*1 ++ [k].
Proof.
  induction groups as [|[k0 g] rest IH]; cbn [group_append].
  - case_decide as Hin; [by apply elem_of_nil in Hin|done].
  - destruct (decide (k = k0)) as [->|Hk]; rewrite !fmap_cons; cbn [fst].
    + clear IH. case_decide as Hn; [reflexivity|].
      exfalso. apply Hn, list_elem_of_here.
    + rewrite IH. clear IH.
      destruct (decide (k ∈ rest.*1)) as [Hin|Hin];
        destruct (decide (k ∈ k0 :: rest.*1)) as [Hin'|Hin']; try reflexivity.
      * exfalso. by apply Hin', list_elem_of_further.
      * apply elem_of_cons in Hin' as [?|?]; done.
Qed.

Lemma group_append_NoDup (k : hkey) (d : nat) (groups : list (hkey * list nat)) :
  NoDup groups.*1 → NoDup (group_append k d groups).*1.
Proof.
  intros Hnd. rewrite group_append_keys.
  destruct (decide (k ∈ groups.*1)) as [|Hn]; [done|].
  apply NoDup_app. split; [done|]. split; [|apply NoDup_singleton].
  intros x Hx ->%list_elem_of_singleton. done.
Qed.

Lemma group_append_members (k : hkey) (d : nat) (groups : list (hkey * list nat)) :
  concat (group_append k d groups).*2 ≡ₚ d :: concat groups.*2.
Proof.
  induction groups as [|[k0 g] rest IH]; simpl; [done|].
  destruct (decide (k = k0)); simpl.
  - solve_Permutation.
  - rewrite IH. solve_Permutation.
Qed.

Lemma of_type_snoc (h : list (gmap string pyval)) (k k0 : hkey) (seen : list nat) (d : nat) :
  type_key h d = Some k0 →
  of_type h k (seen ++ [d]) = of_type h k seen ++ (if decide (k = k0) then [d] else []).
Proof.
  intros Hd. unfold of_type. rewrite List.filter_app. simpl. rewrite Hd.
  destruct (decide (k = k0)) as [->|Hk].
  - by rewrite bool_decide_eq_true_2.
  - rewrite bool_decide_eq_false_2; [done|]. congruence.
Qed.

Lemma group_of_default (l : list nat) : default [] (group_of l) = l.
Proof. by destruct l. Qed.

Lemma group_of_snoc (l : list nat) (d : nat) : group_of (l ++ [d]) = Some (l ++ [d]).
Proof. by destruct l. Qed.

Lemma detections_by_type_inv (h : list (gmap string pyval)) (l seen : list nat)
    (groups : list (hkey * list nat)) :
  Forall (λ d, is_Some (type_key h d)) l →
  NoDup groups.*1 →
  (∀ k, group_get k groups = group_of (of_type h k seen)) →
  concat groups.*2 ≡ₚ seen →
  ∃ gs, detections_by_type h groups l = Ok gs ∧
        NoDup gs.*1 ∧
        (∀ k, group_get k gs = group_of (of_type h k (seen ++ l))) ∧
        concat gs.*2 ≡ₚ seen ++ l.
Proof.
  revert seen groups. induction l as [|d l IH]; intros seen groups Hl Hnd Hget Hperm.
  - exists groups. rewrite app_nil_r. done.
  - apply Forall_cons in Hl as [[k0 Hd] Hl]. simpl.
    unfold type_key in Hd. rewrite Hd.
    destruct (IH (seen ++ [d]) (group_append k0 d groups) Hl) as (gs & Hgs & H1 & H2 & H3).
    + by apply group_append_NoDup.
    + intros k. rewrite group_get_append, (of_type_snoc h k k0 seen d Hd).
      destruct (decide (k = k0)) as [->|Hk].
      * by rewrite Hget, group_of_default, group_of_snoc.
      * by rewrite app_nil_r.
    + rewrite group_append_members, Hperm. solve_Permutation.
    + exists gs. rewrite <- !app_assoc in *. done.
Qed.

(** X14. The grouping loop of [_generate_transparent_output]. When the type
    of every active detection can be hashed the loop returns; its groups
    have pairwise different keys; each group is exactly the detections
    whose type has the group's key, in the order of the input, and is not
    empty (the [if not detections: continue] guard never fires); every
    detection is in the group of its key, and the groups together hold the
    input, each detection as often as it occurs. *)
Theorem groups_partition_by_type (h : list (gmap string pyval)) (l : list nat) :
  Forall (λ d, is_Some (type_key h d)) l →
  ∃ gs, detections_by_type h [] l = Ok gs ∧
        NoDup gs.*1 ∧
        (∀ k g, (k, g) ∈ gs → g ≠ [] ∧ g = of_type h k l) ∧
        (∀ d, d ∈ l → ∃ k, type_key h d = Some k ∧ (k, of_type h k l) ∈ gs ∧
                           d ∈ of_type h k l) ∧
        concat gs.*2 ≡ₚ l.
Proof.
  intros Hl.
  destruct (detections_by_type_inv h l [] [] Hl) as (gs & Hgs & Hnd & Hget & Hperm).
  - apply NoDup_nil_2.
  - done.
  - done.
  - simpl in *. exists gs. repeat split; try done.
    + intros ->. apply (group_get_elem_of _ _ _ Hnd) in H.
      rewrite Hget in H. by destruct (of_type h k l).
    + apply (group_get_elem_of _ _ _ Hnd) in H. rewrite Hget in H.
      destruct (of_type h k l); [done|]. by injection H as <-.
    + intros d Hd. pose proof Hl as Hl'. rewrite Forall_forall in Hl'.
      destruct (Hl' d Hd) as [k Hk]. exists k.
      assert (d ∈ of_type h k l) as Hin.
      { apply list_elem_of_In, filter_In. split; [by apply list_elem_of_In|].
        by apply bool_decide_eq_true_2. }
      split; [done|]. split; [|done].
      apply (group_get_elem_of _ _ _ Hnd). rewrite Hget.
      destruct (of_type h k l); [by apply elem_of_nil in Hin|done].
Qed.

Lemma groups_partition_by_type_witness :
  let h := [ detection_of "t1" "retry_loop"; detection_of "t2" "overkill_model";
             detection_of "t3" "retry_loop"; {["trace_id" := PStr "t4"]} ] in
  detections_by_type h [] [0%nat; 1%nat; 2%nat; 3%nat]
  = Ok [ (KStr "retry_loop", [0%nat; 2%nat]); (KStr "overkill_model", [1%nat]);
         (KStr "unknown", [3%nat]) ] ∧
  ∃ gs, detections_by_type h [] [0%nat; 1%nat; 2%nat; 3%nat] = Ok gs ∧
        concat gs.*2 ≡ₚ [0%nat; 1%nat; 2%nat; 3%nat].
Proof.
  split; [vm_compute; reflexivity|].
  destruct (groups_partition_by_type
              [ detection_of "t1" "retry_loop"; detection_of "t2" "overkill_model";
                detection_of "t3" "retry_loop"; {["trace_id" := PStr "t4"]} ]
              [0%nat; 1%nat; 2%nat; 3%nat]) as (gs & Hgs & _ & _ & _ & Hp).
  - repeat constructor; vm_compute; eauto.
  - exists gs. by split.
Defined.
